(** * IPTV-StreamWatcher: probe, fetch and orchestration logic

    A shallow embedding of [src/iptv_monitor/worker.py] and of the probe
    loop of [run_local_test.py].

    Conventions.
    - Python [str] values are [string]s; a character stands for a code
      point below 256.
    - Python [int] values are [Z].
    - Python [float] values that hold seconds are rationals ([Q]): every
      binary64 value is a rational. A sum, a difference and [round]
      give the binary64 value nearest to the exact result ([to_float]).
    - What the outside world decides (the exit status and the output of
      the inspection process, whether a wait times out, what the network
      answers, what the clock reads) is an explicit input of the function
      that consumes it. *)

From Stdlib Require Import QArith Qround Qabs Qpower Lqa.
From Stdlib Require Import Ascii.
From stdpp Require Import gmap strings list pretty.

Open Scope Z_scope.

(** ** Python string operations used by the sources *)

Module PyStr.

Definition chr (n : nat) : ascii := ascii_of_nat n.

(** [c.isspace()] for a code point below 256. *)
Definition isspace (c : ascii) : bool :=
  let n := nat_of_ascii c in
  ((9 <=? n) && (n <=? 13))%nat || ((28 <=? n) && (n <=? 32))%nat
  || (n =? 133)%nat || (n =? 160)%nat.

(** Line boundaries of [str.splitlines()] below 256. *)
Definition is_linebreak (c : ascii) : bool :=
  let n := nat_of_ascii c in
  ((10 <=? n) && (n <=? 13))%nat || ((28 <=? n) && (n <=? 30))%nat
  || (n =? 133)%nat.

Definition is_digit (c : ascii) : bool :=
  let n := nat_of_ascii c in ((48 <=? n) && (n <=? 57))%nat.

Definition is_empty (s : string) : bool :=
  match s with EmptyString => true | String _ _ => false end.

(** [s.startswith(p)] *)
Fixpoint startswith (s p : string) {struct p} : bool :=
  match p, s with
  | EmptyString, _ => true
  | String a p', String b s' => Ascii.eqb a b && startswith s' p'
  | String _ _, EmptyString => false
  end.

(** [p in s] *)
Fixpoint contains (p s : string) : bool :=
  startswith s p ||
  match s with
  | EmptyString => false
  | String _ s' => contains p s'
  end.

Fixpoint lstrip (s : string) : string :=
  match s with
  | EmptyString => EmptyString
  | String c s' => if isspace c then lstrip s' else s
  end.

Definition rstrip (s : string) : string := String.rev (lstrip (String.rev s)).

(** [s.strip()] *)
Definition strip (s : string) : string := rstrip (lstrip s).

(** [s.splitlines()]: [cur] is the line being read, [after_cr] tells
    that the previous character was a carriage return, so that a line
    feed right after it belongs to the same boundary. *)
Fixpoint splitlines_go (s cur : string) (after_cr : bool) : list string :=
  match s with
  | EmptyString => if is_empty cur then [] else [cur]
  | String c s' =>
      if after_cr && Ascii.eqb c (chr 10) then splitlines_go s' cur false
      else if is_linebreak c then cur :: splitlines_go s' "" (Ascii.eqb c (chr 13))
      else splitlines_go s' (cur +:+ String c "") false
  end.

Definition splitlines (s : string) : list string := splitlines_go s "" false.

(** [s.split(sep, 1)[1]] for a one-character [sep] that occurs in [s];
    the empty string stands for the index error when it does not. *)
Fixpoint after_first (sep : ascii) (s : string) : string :=
  match s with
  | EmptyString => EmptyString
  | String c s' => if Ascii.eqb c sep then s' else after_first sep s'
  end.

Definition lower_char (c : ascii) : ascii :=
  let n := nat_of_ascii c in
  if ((65 <=? n) && (n <=? 90))%nat
     || ((192 <=? n) && (n <=? 222) && negb (n =? 215))%nat
  then ascii_of_nat (n + 32) else c.

(** [s.lower()] *)
Fixpoint lower (s : string) : string :=
  match s with
  | EmptyString => EmptyString
  | String c s' => String (lower_char c) (lower s')
  end.

(** [s[n:]] *)
Fixpoint drop (n : nat) (s : string) : string :=
  match n, s with
  | O, _ => s
  | S n', String _ s' => drop n' s'
  | S _, EmptyString => EmptyString
  end.

(** The longest prefix of [s] made of characters that satisfy [p]. *)
Fixpoint take_while (p : ascii -> bool) (s : string) : string :=
  match s with
  | EmptyString => EmptyString
  | String c s' => if p c then String c (take_while p s') else EmptyString
  end.

(** [re.search(key + "(" + cls + "+)", s)]: the group of the leftmost
    match, that is, the longest run of [cls] characters right after the
    leftmost occurrence of [key] that is followed by one such
    character. *)
Fixpoint re_search_run (key : string) (cls : ascii -> bool) (s : string)
  : option string :=
  let here :=
    if startswith s key
    then
      let g := take_while cls (drop (String.length key) s) in
      if is_empty g then None else Some g
    else None in
  match here with
  | Some g => Some g
  | None =>
      match s with
      | EmptyString => None
      | String _ s' => re_search_run key cls s'
      end
  end.

End PyStr.

(** ** [worker.py]: playlist parsing *)

Module Playlist.
Import PyStr.

(** The guard of the inner loop: [not lines[j] or lines[j].startswith('#')]. *)
Definition skipped (l : string) : bool := is_empty l || startswith l "#".

Definition is_extinf (l : string) : bool := startswith l "#EXTINF".

(** [line.split(',', 1)[1] if ',' in line else 'unknown'] *)
Definition name_of (line : string) : string :=
  if contains "," line then after_first "," line else "unknown".

(** The inner [while]: advance [j] over empty and comment lines. At most
    [fuel] lines are passed. *)
Fixpoint scan_url (fuel : nat) (lines : list string) (j : nat) : nat :=
  match fuel with
  | O => j
  | S fuel' =>
      match lines !! j with
      | Some l => if skipped l then scan_url fuel' lines (S j) else j
      | None => j
      end
  end.

(** The outer [while i < len(lines)], one iteration per unit of fuel. *)
Fixpoint parse_loop (fuel : nat) (lines : list string) (i : nat)
    (items : list (string * string)) : list (string * string) :=
  match fuel with
  | O => items
  | S fuel' =>
      match lines !! i with
      | None => items
      | Some line =>
          if is_extinf line then
            let name := name_of line in
            let j := scan_url (length lines) lines (S i) in
            let items' :=
              match lines !! j with
              | Some url => if is_empty url then items else items ++ [(name, url)]
              | None => items
              end in
            parse_loop fuel' lines (S j) items'
          else parse_loop fuel' lines (S i) items
      end
  end.

Definition stripped_lines (text : string) : list string :=
  strip <$> splitlines text.

Definition parse_m3u (text : string) : list (string * string) :=
  let lines := stripped_lines text in
  parse_loop (length lines) lines 0 [].

(** *** What the parser pairs, in terms of line numbers *)

Local Open Scope nat_scope.

(** Line [j] is the first non-empty, non-comment line after line [i]. *)
Definition next_url (lines : list string) (i j : nat) : Prop :=
  i < j ∧ (∃ u, lines !! j = Some u ∧ skipped u = false) ∧
  ∀ k l, i < k < j → lines !! k = Some l → skipped l = true.

(** Line [i] is an [#EXTINF] line, and every earlier [#EXTINF] line is
    separated from it by a non-empty, non-comment line. *)
Definition reached (lines : list string) (i : nat) : Prop :=
  (∃ l, lines !! i = Some l ∧ is_extinf l = true) ∧
  ∀ i' l', i' < i → lines !! i' = Some l' → is_extinf l' = true →
    ∃ k l, i' < k < i ∧ lines !! k = Some l ∧ skipped l = false.

(** The pair built from the [#EXTINF] line [i] and the URL line [j]. *)
Definition pair_at (lines : list string) (ij : nat * nat) : string * string :=
  (name_of (default "" (lines !! ij.1)), default "" (lines !! ij.2)).

(** [lo <= i1 < j1 < i2 < j2 < ...] *)
Fixpoint chain (lo : nat) (idx : list (nat * nat)) : Prop :=
  match idx with
  | [] => True
  | (i, j) :: rest => lo ≤ i ∧ i < j ∧ chain (S j) rest
  end.

(** The invariant of the outer loop at line [i]: every [#EXTINF] line
    before [i] has met a URL line before [i], unless the text is over. *)
Definition settled (lines : list string) (i : nat) : Prop :=
  length lines ≤ i ∨
  ∀ i' l', i' < i → lines !! i' = Some l' → is_extinf l' = true →
    ∃ k l, i' < k < i ∧ lines !! k = Some l ∧ skipped l = false.

(** The reading of the pairing rule in which every [#EXTINF] line
    that has a URL line after it contributes its pair. *)
Definition pairs_every_extinf (text : string) : Prop :=
  ∀ i j l u,
    stripped_lines text !! i = Some l → is_extinf l = true →
    next_url (stripped_lines text) i j → stripped_lines text !! j = Some u →
    (name_of l, u) ∈ parse_m3u text.

Definition nl : string := String (chr 10) "".

(** Two [#EXTINF] lines in a row, then one URL. *)
Definition two_extinf_one_url : string :=
  "#EXTINF:-1,A" +:+ nl +:+ "#EXTINF:-1,B" +:+ nl +:+ "http://x" +:+ nl.

Local Close Scope nat_scope.

End Playlist.

(** ** Exceptions

    [TimeoutError] is [asyncio.TimeoutError]; [PyException msg] is any
    other instance [e] of [Exception], with [str(e) = msg]. *)

Module Exc.

Inductive exn : Type :=
| TimeoutError
| PyException (msg : string).

Definition str_exn (e : exn) : string :=
  match e with
  | TimeoutError => ""
  | PyException msg => msg
  end.

Inductive exc (A : Type) : Type :=
| Ok (a : A)
| Raise (e : exn).
Arguments Ok {A} a.
Arguments Raise {A} e.

Definition bind {A B} (m : exc A) (k : A → exc B) : exc B :=
  match m with
  | Ok a => k a
  | Raise e => Raise e
  end.

(** [try: m  except Exception as e: h e] *)
Definition try_except {A} (m : exc A) (h : exn → exc A) : exc A :=
  match m with
  | Ok a => Ok a
  | Raise e => h e
  end.

Definition returns {A} (m : exc A) : Prop := ∃ a, m = Ok a.

#[global] Instance exc_ret : MRet exc := @Ok.
#[global] Instance exc_bind : MBind exc := fun A B k m => bind m k.

End Exc.

(** ** [worker.py]: the probe [check_ts] *)

Module Probe.
Import PyStr Exc.

Inductive probe_status : Type := pass | buffering | error.

(** The tuple [(result, notes, resolution, test_duration)]. *)
Record ProbeOutcome : Type := {
  result : probe_status;
  notes : string;
  resolution : option string;
  test_duration : option Q;
}.

(** [subprocess.CompletedProcess] with captured text output. *)
Record CompletedProcess : Type := {
  returncode : Z;
  stdout : string;
  stderr : string;
}.

(** What [subprocess.run] does with a command line. *)
Inductive run_event : Type :=
| Completed (proc : CompletedProcess)
| RunRaised (msg : string).

(** What [asyncio.wait_for] does with the probe coroutine. As a field
    of the surroundings it can be any of the three; [loop_wait] below
    is the one that the event loop gives. *)
Inductive wait_event : Type :=
| Awaited
| TimedOut
| WaitRaised (msg : string).

(** The surroundings of one probe call. *)
Record world : Type := {
  subprocess_run : list string → run_event;
  wait_for_event : Z → wait_event;
  elapsed : Q;
}.

Definition ffprobe_cmd (url : string) : list string :=
  ["ffprobe"; "-v"; "error"; "-show_streams"; "-show_format"; "-i"; url].

Definition run (w : world) (cmd : list string) : exc CompletedProcess :=
  match subprocess_run w cmd with
  | Completed proc => Ok proc
  | RunRaised msg => Raise (PyException msg)
  end.

(** The class [[\d\.]] of the duration pattern. *)
Definition is_digit_or_dot (c : ascii) : bool :=
  is_digit c || Ascii.eqb c ".".

Fixpoint count_char (p : ascii → bool) (s : string) : nat :=
  match s with
  | EmptyString => O
  | String c s' => (if p c then 1 else 0) + count_char p s'
  end.

(** [float] accepts a run of digits and dots when it has a digit and at
    most one dot. *)
Definition float_ok (s : string) : bool :=
  (1 <=? count_char is_digit s)%nat
  && (count_char (fun c => Ascii.eqb c ".") s <=? 1)%nat.

Fixpoint digits_value (acc : Z) (s : string) : Z :=
  match s with
  | EmptyString => acc
  | String c s' =>
      if is_digit c
      then digits_value (10 * acc + (Z.of_nat (nat_of_ascii c) - 48)) s'
      else digits_value acc s'
  end.

Definition decimal_value (s : string) : Q :=
  let frac := after_first "." s in
  inject_Z (digits_value 0 s) / inject_Z (10 ^ Z.of_nat (String.length frac)).

(** [float(s)] on a run of digits and dots. *)
Definition py_float (s : string) : exc Q :=
  if float_ok s then Ok (decimal_value s)
  else Raise (PyException ("could not convert string to float: '" +:+ s +:+ "'")).

Definition error_outcome (msg : string) : ProbeOutcome :=
  {| result := error; notes := msg; resolution := None; test_duration := None |}.

(** The inner coroutine [_check]: its whole body sits in a [try] whose
    handler turns any exception into an [error] outcome. *)
Definition _check (w : world) (url : string) : ProbeOutcome :=
  let body : exc ProbeOutcome :=
    proc ← run w (ffprobe_cmd url);
    let ffprobe_out := stdout proc in
    let ffprobe_err := stderr proc in
    if negb (returncode proc =? 0) then
      let notes := "" +:+ "ffprobe error: " +:+ strip ffprobe_err in
      Ok {| result := buffering; notes := strip notes;
            resolution := Some ""; test_duration := Some (elapsed w) |}
    else
      let notes := "" in
      let notes :=
        if contains "codec_type=video" ffprobe_out
        then notes +:+ "[video detected] " else notes in
      let notes :=
        if contains "codec_type=audio" ffprobe_out
        then notes +:+ "[audio detected] " else notes in
      let '(resolution, notes) :=
        match re_search_run "width=" is_digit ffprobe_out,
              re_search_run "height=" is_digit ffprobe_out with
        | Some w, Some h =>
            let resolution := w +:+ "x" +:+ h in
            (resolution, strip (notes +:+ "[video detected " +:+ resolution +:+ "] "))
        | _, _ => ("", notes)
        end in
      duration ←
        match re_search_run "duration=" is_digit_or_dot ffprobe_out with
        | Some g => d ← py_float g; Ok (Some d)
        | None => Ok None
        end;
      let '(is_buffering, notes) :=
        if contains "error" ffprobe_out || contains "buffer" ffprobe_out
        then (true, notes +:+ "[ffprobe buffering] ") else (false, notes) in
      Ok {| result := if is_buffering then buffering else pass;
            notes := strip notes;
            resolution := Some resolution;
            test_duration := Some (elapsed w) |}
  in
  match body with
  | Ok o => o
  | Raise e => error_outcome (str_exn e)
  end.

Definition wait_for (w : world) (timeout : Z) (coro : ProbeOutcome)
  : exc ProbeOutcome :=
  match wait_for_event w timeout with
  | Awaited => Ok coro
  | TimedOut => Raise TimeoutError
  | WaitRaised msg => Raise (PyException msg)
  end.

Definition check_ts (w : world) (url : string) (per_check_timeout : Z)
  : exc ProbeOutcome :=
  try_except (wait_for w per_check_timeout (_check w url))
    (fun e =>
       match e with
       | TimeoutError => Ok (error_outcome "timeout")
       | PyException msg => Ok (error_outcome msg)
       end).

(** The duration field, when the report has one, converts. *)
Definition duration_ok (out : string) : bool :=
  match re_search_run "duration=" is_digit_or_dot out with
  | Some g => float_ok g
  | None => true
  end.

(** The classification rule with the two words sought in any case. *)
Definition status_any_case (proc : CompletedProcess) : probe_status :=
  if negb (returncode proc =? 0)
     || contains "error" (lower (stdout proc))
     || contains "buffer" (lower (stdout proc))
  then buffering else pass.

(** The classification rule with the two words sought as written. *)
Definition status_as_written (proc : CompletedProcess) : probe_status :=
  if negb (returncode proc =? 0)
     || contains "error" (stdout proc)
     || contains "buffer" (stdout proc)
  then buffering else pass.

(** A world in which the process answers [proc] in time. *)
Definition answering (proc : CompletedProcess) (secs : Q) : world :=
  {| subprocess_run := fun _ => Completed proc;
     wait_for_event := fun _ => Awaited;
     elapsed := secs |}.

Definition shouting : CompletedProcess :=
  {| returncode := 0; stdout := "TAG:comment=ERROR"; stderr := "" |}.

(** What [asyncio.wait_for] does with [_check()]. The coroutine has no
    [await]: it blocks the event loop inside [subprocess.run] and ends
    in one step. With a timeout above zero the timer that [wait_for]
    sets cannot fire before that step is over, and a coroutine that is
    over is never cancelled: its value is returned, however long the
    step took. With a timeout of zero or below [wait_for] cancels the
    task before its first step and raises [TimeoutError]. *)
Definition loop_wait (timeout : Z) : wait_event :=
  if 0 <? timeout then Awaited else TimedOut.

(** The surroundings of a call on the event loop: [subprocess.run] ends
    as [ev], and [secs] seconds pass between the two clock readings of
    [_check]. *)
Definition on_event_loop (ev : run_event) (secs : Q) : world :=
  {| subprocess_run := fun _ => ev;
     wait_for_event := loop_wait;
     elapsed := secs |}.

(** The report of a healthy stream, from a process that exits with
    status zero. *)
Definition video_report : CompletedProcess :=
  {| returncode := 0; stdout := "codec_type=video"; stderr := "" |}.

(** [str] of the [subprocess.TimeoutExpired] that [subprocess.run]
    raises when the process is still running after its 15 seconds. *)
Definition run_timed_out (url : string) : string :=
  "Command '['ffprobe', '-v', 'error', '-show_streams', '-show_format', '-i', '"
  +:+ url +:+ "']' timed out after 15 seconds".

End Probe.

(** ** [worker.py]: the fetcher [fetch_text] *)

Module Fetch.
Import PyStr Exc.

(** [await r.text()] *)
Inductive text_event : Type :=
| TextOk (txt : string)
| TextRaised (msg : string).

(** [await r.read()] *)
Inductive read_event : Type :=
| ReadOk (raw : list Byte.byte)
| ReadRaised (msg : string).

(** A response [r]: [content_type] is [r.headers.get('Content-Type', '')]. *)
Record response : Type := {
  status : Z;
  content_type : string;
  text_event_of : text_event;
  read_event_of : read_event;
}.

(** What [session.get] does. *)
Inductive get_event : Type :=
| Responded (r : response)
| GetRaised (e : exn).

(** The session: its answer to the [n]-th request of a call, by URL. *)
Definition session : Type := nat → string → get_event.

(** What a call does to the world, in order. *)
Inductive effect : Type :=
| Request (url : string) (timeout : Z)
| Sleep (seconds : Z).

Definition hex_digit (n : nat) : ascii :=
  if (n <? 10)%nat then ascii_of_nat (48 + n) else ascii_of_nat (87 + n).

(** One byte inside [repr] of a [bytes] value quoted with [quote]. *)
Definition repr_byte (quote : ascii) (b : Byte.byte) : string :=
  let c := ascii_of_byte b in
  let n := nat_of_ascii c in
  if Ascii.eqb c quote || Ascii.eqb c "\" then String "\" (String c "")
  else if (n =? 9)%nat then "\t"
  else if (n =? 10)%nat then "\n"
  else if (n =? 13)%nat then "\r"
  else if ((n <? 32) || (127 <=? n))%nat
  then String "\" (String "x" (String (hex_digit (n / 16)) (String (hex_digit (n mod 16)) "")))
  else String c "".

(** [repr(raw)] of a [bytes] value, as an f-string prints it. *)
Definition bytes_repr (raw : list Byte.byte) : string :=
  let has c := existsb (fun b => Ascii.eqb (ascii_of_byte b) c) raw in
  let quote : ascii := if has "'"%char && negb (has (chr 34)) then chr 34 else "'"%char in
  String "b" (String quote
    (foldr (fun b acc => repr_byte quote b +:+ acc) (String quote "") raw)).

Definition str_int (n : Z) : string := pretty n.

Definition decode_error_message (e : string) (r : response) (first_bytes : list Byte.byte)
  : string :=
  "decode error: " +:+ e +:+ "; status=" +:+ str_int (status r)
  +:+ "; content-type=" +:+ content_type r
  +:+ "; first_bytes=" +:+ bytes_repr first_bytes.

Definition http_error_message (r : response) : string :=
  "HTTP " +:+ str_int (status r) +:+ " " +:+ content_type r.

(** The body of the [try] of one attempt. *)
Definition attempt_once (ev : get_event) : exc string :=
  match ev with
  | GetRaised e => Raise e
  | Responded r =>
      txt ←
        match text_event_of r with
        | TextOk txt => Ok txt
        | TextRaised e =>
            raw ← match read_event_of r with
                  | ReadOk raw => Ok raw
                  | ReadRaised msg => Raise (PyException msg)
                  end;
            let first_bytes := take 32 raw in
            Raise (PyException (decode_error_message e r first_bytes))
        end;
      if negb (status r =? 200) then Raise (PyException (http_error_message r))
      else Ok txt
  end.

Definition max_attempts : nat := 3.
Definition delay : Z := 2.

(** [str(last_exc)] *)
Definition str_last (last_exc : option exn) : string :=
  match last_exc with
  | None => "None"
  | Some e => str_exn e
  end.

(** The [for attempt in range(max_attempts)] loop over the attempts
    still to make; the result comes with the effects so far. *)
Fixpoint fetch_loop (s : session) (url : string) (timeout : Z)
    (attempts : list nat) (last_exc : option exn) (trace : list effect)
  : exc string * list effect :=
  match attempts with
  | [] =>
      (Raise (PyException ("fetch_text failed after " +:+ pretty max_attempts
                           +:+ " attempts: " +:+ str_last last_exc)),
       trace)
  | attempt :: rest =>
      let trace := trace ++ [Request url timeout] in
      match attempt_once (s attempt url) with
      | Ok txt => (Ok txt, trace)
      | Raise e =>
          fetch_loop s url timeout rest (Some e)
            (trace ++ [Sleep (delay * (Z.of_nat attempt + 1))])
      end
  end.

Definition fetch_text (s : session) (url : string) (timeout : Z)
  : exc string * list effect :=
  fetch_loop s url timeout (seq 0 max_attempts) None [].

(** The effects of the first [k] attempts when all of them fail. *)
Definition failed_attempts (url : string) (timeout : Z) (k : nat) : list effect :=
  flat_map (fun a => [Request url timeout; Sleep (2 * (Z.of_nat a + 1))]) (seq 0 k).

(** The number of requests among the effects. *)
Fixpoint requests (trace : list effect) : nat :=
  match trace with
  | [] => O
  | Request _ _ :: rest => S (requests rest)
  | Sleep _ :: rest => requests rest
  end.

End Fetch.

(** ** [worker.py]: the orchestrators *)

Module Monitor.
Import PyStr Exc Probe.

(** A channel row [(id, name, url)]. *)
Definition channel : Type := Z * string * string.

(** The arguments of one [insert_result] call. *)
Record result_row : Type := {
  row_channel : Z;
  row_result : probe_status;
  row_notes : string;
  row_throughput : option string;
  row_startup : option Q;
}.

(** The storage behind [db.py]: the channel table and the result rows
    inserted so far, oldest first. *)
Record db : Type := {
  channel_table : list channel;
  inserted : list result_row;
}.

(** Modelled from the spec: [list_channels] of [db.py], which is not
    among the sources; it gives the list of [(id, name, url)] rows and
    leaves the storage as it is. *)
Definition list_channels (d : db) : list channel := channel_table d.

(** Modelled from the spec: [insert_result] of [db.py], which is not
    among the sources; it records one result row and keeps the channel
    table. *)
Definition insert_result (d : db) (cid : Z) (r : probe_status) (notes : string)
    (throughput : option string) (startup : option Q) : db :=
  {| channel_table := channel_table d;
     inserted := inserted d ++
       [{| row_channel := cid; row_result := r; row_notes := notes;
           row_throughput := throughput; row_startup := startup |}] |}.

(** The dictionary appended to [results]. *)
Record result_dict : Type := {
  res_id : Z;
  res_name : string;
  res_url : string;
  res_result : probe_status;
  res_notes : string;
  res_throughput : option string;
  res_startup : option Q;
}.

(** The default [per_check_timeout] of [check_ts]. *)
Definition default_timeout : Z := 15.

(** The [for c in channels] loop of [run_once]; [env n] is the world of
    the [n]-th probe of the pass. *)
Fixpoint run_once_loop (env : nat → world) (n : nat) (channels : list channel)
    (d : db) (results : list result_dict) : exc (list result_dict * db) :=
  match channels with
  | [] => Ok (results, d)
  | (cid, name, url) :: rest =>
      o ← check_ts (env n) url default_timeout;
      let d := insert_result d cid (result o) (notes o) (resolution o) (test_duration o) in
      run_once_loop env (S n) rest d
        (results ++
         [{| res_id := cid; res_name := name; res_url := url;
             res_result := result o; res_notes := notes o;
             res_throughput := resolution o; res_startup := test_duration o |}])
  end.

Definition run_once (env : nat → world) (d : db) : exc (list result_dict * db) :=
  run_once_loop env 0 (list_channels d) d [].

Definition empty_db : db := {| channel_table := []; inserted := [] |}.

(** *** Sweeps as interleavings of tasks

    One task per channel. The event loop runs one task at a time up to
    its next suspension point, so a sweep is a sequence of events, each
    of which moves one task. *)

Inductive task_state : Type :=
| Created      (* not started yet *)
| Waiting      (* suspended in [sem.acquire()] *)
| Probing      (* inside the probe call *)
| Storing      (* inside [insert_result] *)
| Done.

Record sweep : Type := {
  sem_value : nat;
  tasks : list task_state;
}.

Inductive event : Type :=
| Start (i : nat)         (* the task runs for the first time *)
| Wake (i : nat)          (* a waiter gets the semaphore *)
| ProbeReturns (i : nat)  (* the probe call returns *)
| ProbeRaises (i : nat)   (* the probe call raises *)
| Stored (i : nat).       (* [insert_result] is over, the task ends *)

Definition set_task (s : sweep) (i : nat) (t : task_state) (v : nat) : sweep :=
  {| sem_value := v; tasks := <[i := t]> (tasks s) |}.

(** One event of a sweep of [run_checks_concurrent]: [_run_channel]
    enters [async with sem] before the probe and leaves it, giving the
    slot back, when the task ends or the probe raises. The probe it
    calls, [check_hls], is defined nowhere in the sources; the events
    leave open whether the call returns or raises. A probe is in flight
    from its call to its return. *)
Definition step_concurrent (s : sweep) (e : event) : option sweep :=
  match e with
  | Start i =>
      match tasks s !! i with
      | Some Created =>
          match sem_value s with
          | O => Some (set_task s i Waiting O)
          | S v => Some (set_task s i Probing v)
          end
      | _ => None
      end
  | Wake i =>
      match tasks s !! i, sem_value s with
      | Some Waiting, S v => Some (set_task s i Probing v)
      | _, _ => None
      end
  | ProbeReturns i =>
      match tasks s !! i with
      | Some Probing => Some (set_task s i Storing (sem_value s))
      | _ => None
      end
  | ProbeRaises i =>
      match tasks s !! i with
      | Some Probing => Some (set_task s i Done (S (sem_value s)))
      | _ => None
      end
  | Stored i =>
      match tasks s !! i with
      | Some Storing => Some (set_task s i Done (S (sem_value s)))
      | _ => None
      end
  end.

(** One event of a sweep of [Monitor._loop]: [_run_one] calls the probe
    at once; [asyncio.gather] starts every task; there is no semaphore. *)
Definition step_loop (s : sweep) (e : event) : option sweep :=
  match e with
  | Start i =>
      match tasks s !! i with
      | Some Created => Some (set_task s i Probing (sem_value s))
      | _ => None
      end
  | Wake _ => None
  | ProbeReturns i =>
      match tasks s !! i with
      | Some Probing => Some (set_task s i Storing (sem_value s))
      | _ => None
      end
  | ProbeRaises i =>
      match tasks s !! i with
      | Some Probing => Some (set_task s i Done (sem_value s))
      | _ => None
      end
  | Stored i =>
      match tasks s !! i with
      | Some Storing => Some (set_task s i Done (sem_value s))
      | _ => None
      end
  end.

Fixpoint run_events (step : sweep → event → option sweep) (s : sweep)
    (es : list event) : option sweep :=
  match es with
  | [] => Some s
  | e :: es' =>
      match step s e with
      | Some s' => run_events step s' es'
      | None => None
      end
  end.

(** [asyncio.Semaphore(concurrency)] and one fresh task per channel. *)
Definition start_concurrent (concurrency m : nat) : sweep :=
  {| sem_value := concurrency; tasks := replicate m Created |}.

Definition start_loop (m : nat) : sweep :=
  {| sem_value := 0; tasks := replicate m Created |}.

Definition count_state (p : task_state → bool) (ts : list task_state) : nat :=
  length (List.filter p ts).

Definition is_probing (t : task_state) : bool :=
  match t with Probing => true | _ => false end.

(** A task holds a slot of the semaphore from its entry into
    [async with sem] to its end. *)
Definition holds_slot (t : task_state) : bool :=
  match t with Probing | Storing => true | _ => false end.

(** The number of probes in flight. *)
Definition in_flight (s : sweep) : nat := count_state is_probing (tasks s).

Definition slots_held (s : sweep) : nat := count_state holds_slot (tasks s).

Definition b2n (b : bool) : nat := if b then 1%nat else 0%nat.

(** Three channels, limit two: the third task waits until a slot is free. *)
Definition gated_run : list event :=
  [Start 0; Start 1; Start 2; ProbeReturns 0; Stored 0; Wake 2]%nat.

End Monitor.

(** ** Python numbers used by [run_local_test.py] *)

Module PyNum.

(** [int(x)] of a float: truncation towards zero. *)
Definition py_int (q : Q) : Z := Z.quot (Qnum q) (Zpos (Qden q)).

(** The nearest integer, ties to the even one. *)
Definition round_half_even (q : Q) : Z :=
  let f := Qfloor q in
  match (q - inject_Z f ?= 1 # 2)%Q with
  | Lt => f
  | Gt => f + 1
  | Eq => if Z.even f then f else f + 1
  end.

(** [floor (log2 q)] for a positive [q]. *)
Definition Qlog2 (q : Q) : Z :=
  let k := Z.log2 (Qnum q) - Z.log2 (Zpos (Qden q)) in
  if Qle_bool (2 ^ k) q then k else k - 1.

(** The binary64 value nearest to [q], ties to the even significand:
    53 significant bits, exponents from -1074 on. A magnitude of
    [2 ^ 1024] or more, which gives an infinity, is outside the
    model. *)
Definition to_float (q : Q) : Q :=
  if Qeq_bool q 0 then 0%Q
  else
    let e := Z.max (Qlog2 (Qabs q) - 52) (-1074) in
    Qred (inject_Z (round_half_even (q / 2 ^ e)) * 2 ^ e)%Q.

(** [x + y] and [x - y] on floats. *)
Definition fadd (x y : Q) : Q := to_float (x + y).
Definition fsub (x y : Q) : Q := to_float (x - y).

(** [round(x, 2)]: the decimal with two places nearest to the exact
    value of [x], ties to the even digit, then the binary64 value
    nearest to that decimal. *)
Definition round2 (q : Q) : Q :=
  to_float (inject_Z (round_half_even (q * 100)) / 100)%Q.

Definition two_digits (n : Z) : string :=
  (if n <? 10 then "0" else "") +:+ pretty n.

(** [f"{x:.2f}"] *)
Definition format_2f (q : Q) : string :=
  let a := Z.abs (round_half_even (q * 100)) in
  (if Qle_bool 0 q then "" else "-")
  +:+ pretty (a / 100) +:+ "." +:+ two_digits (a mod 100).

(** The truth value of a float. *)
Definition truthy (q : Q) : bool := negb (Qeq_bool q 0).

Definition Qsum (l : list Q) : Q := foldr Qplus 0%Q l.

(** The length of a list, as a rational. *)
Definition count (l : list Q) : Q := inject_Z (Z.of_nat (length l)).

(** The totals that [x += d] goes through, for [d] in [raw] in turn. *)
Fixpoint running (x : Q) (raw : list Q) : list Q :=
  match raw with
  | [] => []
  | d :: rest => fadd x d :: running (fadd x d) rest
  end.

(** A magnitude of at most [2 ^ 20], twelve days in seconds. *)
Definition small (x : Q) : bool := Qle_bool (Qabs x) 1048576.

(** A start total and durations that are [small], with every total on
    the way. *)
Definition steady (x : Q) (raw : list Q) : bool :=
  small x && forallb small raw && forallb small (running x raw).

End PyNum.

(** ** [run_local_test.py]: channel records and the probe loop *)

Module Session.
Import PyStr PyNum Exc.

(** The values of the [status] field. *)
Inductive record_status : Type := Pending | Testing | Pass | Issue.

(** The identity of a list object: the list decoded from the [k]-th
    record of the previous [results.json], or the list literal
    evaluated for the [i]-th record being built. Two fields of the
    same kind alias when they hold the same identity; the lists of time
    stamps and the lists of durations are kept in two stores, since a
    [disconnects] field and a [buffering_events] field never hold the
    same object. *)
Inductive loc : Type :=
| FromFile (k : nat)
| Fresh (i : nat).

#[global] Instance loc_eq_dec : EqDecision loc.
Proof. solve_decision. Defined.

(** One entry of [channels_json]. In memory the two list fields are
    references ([TS = DS = loc]); in [results.json] they are the lists
    themselves. *)
Record channel_record (TS DS : Type) : Type := {
  name : string;
  status : record_status;
  details : string;
  url : string;
  resolution : string;
  test_duration : string;
  tested_seconds : Z;
  issues_buffering : Z;
  issues_errors : Z;
  disconnects_count : Z;
  disconnects : TS;
  buffering_total_seconds : Q;
  buffering_events : DS;
}.
Arguments name {TS DS} _.
Arguments status {TS DS} _.
Arguments details {TS DS} _.
Arguments url {TS DS} _.
Arguments resolution {TS DS} _.
Arguments test_duration {TS DS} _.
Arguments tested_seconds {TS DS} _.
Arguments issues_buffering {TS DS} _.
Arguments issues_errors {TS DS} _.
Arguments disconnects_count {TS DS} _.
Arguments disconnects {TS DS} _.
Arguments buffering_total_seconds {TS DS} _.
Arguments buffering_events {TS DS} _.

Definition mem_record : Type := channel_record loc loc.
Definition file_record : Type := channel_record (list Z) (list Q).

(** The object written to [results.json]. *)
Record snapshot : Type := {
  snap_channels : list file_record;
  snap_test_start : Z;
  snap_test_duration : Z;
  snap_loop_mode : string;
  snap_current_iteration : Z;
}.

(** The list objects, the records that refer to them, and the file. *)
Record session : Type := {
  channels_json : list mem_record;
  stamps : loc → list Z;
  durations : loc → list Q;
  results_file : option snapshot;
}.

(** What stays the same during one run of [run_checks_async]. *)
Record run_info : Type := {
  test_start : Z;
  duration_seconds : Z;
  loop_mode : string;
  current_iteration : Z;
}.

(** [l.append(x)] on the list object [at]. *)
Definition append_at {A} (h : loc → list A) (at_ : loc) (x : A) : loc → list A :=
  fun l => if decide (l = at_) then h l ++ [x] else h l.

Definition to_file (s : session) (r : mem_record) : file_record :=
  {| name := name r; status := status r; details := details r; url := url r;
     resolution := resolution r; test_duration := test_duration r;
     tested_seconds := tested_seconds r;
     issues_buffering := issues_buffering r; issues_errors := issues_errors r;
     disconnects_count := disconnects_count r;
     disconnects := stamps s (disconnects r);
     buffering_total_seconds := buffering_total_seconds r;
     buffering_events := durations s (buffering_events r) |}.

(** [json.dump({'channels': channels_json, ...}, f)] *)
Definition write_results (info : run_info) (s : session) : session :=
  {| channels_json := channels_json s;
     stamps := stamps s;
     durations := durations s;
     results_file := Some
       {| snap_channels := to_file s <$> channels_json s;
          snap_test_start := test_start info;
          snap_test_duration := duration_seconds info;
          snap_loop_mode := loop_mode info;
          snap_current_iteration := current_iteration info |} |}.

(** [channels_json[idx][...] = ...] for an index in range. *)
Definition update_record (idx : nat) (f : mem_record → mem_record) (s : session)
  : session :=
  {| channels_json := alter f idx (channels_json s);
     stamps := stamps s;
     durations := durations s;
     results_file := results_file s |}.

Definition set_heaps (st : loc → list Z) (du : loc → list Q) (s : session) : session :=
  {| channels_json := channels_json s;
     stamps := st;
     durations := du;
     results_file := results_file s |}.

Definition b2z (b : bool) : Z := if b then 1 else 0.

(** Two states of a record with the same identity and the same
    disconnect and buffering fields. *)
Definition same_accumulators (r r' : mem_record) : Prop :=
  name r' = name r ∧ url r' = url r
  ∧ disconnects r' = disconnects r
  ∧ buffering_events r' = buffering_events r
  ∧ disconnects_count r' = disconnects_count r
  ∧ buffering_total_seconds r' = buffering_total_seconds r.

(** The local variables of [probe_channel]. *)
Record locals : Type := {
  buffer_count : Z;
  error_count : Z;
  last_notes : string;
  last_resolution : string;
}.

Definition initial_locals : locals :=
  {| buffer_count := 0; error_count := 0; last_notes := ""; last_resolution := "" |}.

(** The dictionary that [probe_channel] returns. *)
Record probe_result : Type := {
  res_id : Z;
  res_name : string;
  res_url : string;
  res_result : record_status;
  res_notes : string;
  res_issues : Z * Z;
}.

(** The first statement of [probe_channel]: an index out of range
    raises. *)
Definition mark_testing (info : run_info) (idx : nat) (s : session) : exc session :=
  match channels_json s !! idx with
  | None => Raise (PyException "list index out of range")
  | Some _ =>
      Ok (write_results info
            (update_record idx (fun r =>
               {| name := name r; status := Testing; details := details r;
                  url := url r; resolution := resolution r;
                  test_duration := test_duration r;
                  tested_seconds := tested_seconds r;
                  issues_buffering := issues_buffering r;
                  issues_errors := issues_errors r;
                  disconnects_count := disconnects_count r;
                  disconnects := disconnects r;
                  buffering_total_seconds := buffering_total_seconds r;
                  buffering_events := buffering_events r |}) s))
  end.

(** The [finalize] block, the same in both paths but for
    [test_duration]: the continuous one clears it
    ([keep_test_duration = false]). *)
Definition finalize (info : run_info) (idx : nat) (keep_test_duration : bool)
    (lv : locals) (elapsed : Q) (s : session) : session :=
  let final_status :=
    if (buffer_count lv =? 0) && (error_count lv =? 0) then Pass else Issue in
  write_results info
    (update_record idx (fun r =>
       {| name := name r; status := final_status; details := last_notes lv;
          url := url r; resolution := last_resolution lv;
          test_duration := if keep_test_duration then test_duration r else "";
          tested_seconds := py_int elapsed;
          issues_buffering := buffer_count lv;
          issues_errors := error_count lv;
          disconnects_count := disconnects_count r;
          disconnects := disconnects r;
          buffering_total_seconds := round2 (buffering_total_seconds r);
          buffering_events := buffering_events r |}) s).

End Session.

(** *** The periodic path of [probe_channel] *)

Module Periodic.
Import PyStr PyNum Exc Session.

(** What the clock and the probe give in one turn of the loop. *)
Record tick : Type := {
  at_head : Q;               (* [time.time() - start] at the guard *)
  probe_world : Probe.world; (* the surroundings of the [check_ts] call *)
  stamp : Z;                 (* [int(time.time())] for a disconnect *)
  at_update : Q;             (* [time.time() - start] at the update *)
}.

(** The probe call of one turn, with its own [try]/[except]. *)
Definition probe (info : run_info) (url : string) (t : tick) : Probe.ProbeOutcome :=
  let remaining :=
    Z.max 1 (py_int (fsub (to_float (inject_Z (duration_seconds info))) (at_head t))) in
  match Probe.check_ts (probe_world t) url (Z.min 10 remaining) with
  | Ok o => o
  | Raise e =>
      {| Probe.result := Probe.error; Probe.notes := str_exn e;
         Probe.resolution := Some ""; Probe.test_duration := None |}
  end.

(** [float(single_probe_time) if single_probe_time else 0.0] *)
Definition buff_dur (o : Probe.ProbeOutcome) : Q :=
  match Probe.test_duration o with
  | Some q => if truthy q then q else 0%Q
  | None => 0%Q
  end.

(** [if r == 'buffering': ...] *)
Definition on_buffering (idx : nat) (o : Probe.ProbeOutcome) (s : session) : session :=
  match channels_json s !! idx with
  | None => s
  | Some r0 =>
      let s := set_heaps (stamps s)
                 (append_at (durations s) (buffering_events r0) (round2 (buff_dur o))) s in
      update_record idx (fun r =>
        {| name := name r; status := status r; details := details r;
           url := url r; resolution := resolution r;
           test_duration := test_duration r;
           tested_seconds := tested_seconds r;
           issues_buffering := issues_buffering r;
           issues_errors := issues_errors r;
           disconnects_count := disconnects_count r;
           disconnects := disconnects r;
           buffering_total_seconds := fadd (buffering_total_seconds r) (buff_dur o);
           buffering_events := buffering_events r |}) s
  end.

(** [if r == 'error': ...] *)
Definition on_error (idx : nat) (now : Z) (s : session) : session :=
  match channels_json s !! idx with
  | None => s
  | Some r0 =>
      let s := update_record idx (fun r =>
        {| name := name r; status := status r; details := details r;
           url := url r; resolution := resolution r;
           test_duration := test_duration r;
           tested_seconds := tested_seconds r;
           issues_buffering := issues_buffering r;
           issues_errors := issues_errors r;
           disconnects_count := disconnects_count r + 1;
           disconnects := disconnects r;
           buffering_total_seconds := buffering_total_seconds r;
           buffering_events := buffering_events r |}) s in
      set_heaps (append_at (stamps s) (disconnects r0) now) (durations s) s
  end.

(** The running fields, set on every turn. *)
Definition set_running (info : run_info) (idx : nat) (o : Probe.ProbeOutcome)
    (lv : locals) (elapsed : Q) (s : session) : session :=
  write_results info
    (update_record idx (fun r =>
       {| name := name r; status := Testing; details := last_notes lv;
          url := url r; resolution := last_resolution lv;
          test_duration :=
            match Probe.test_duration o with
            | Some q => if truthy q then format_2f q +:+ "s" else ""
            | None => ""
            end;
          tested_seconds := py_int elapsed;
          issues_buffering := buffer_count lv;
          issues_errors := error_count lv;
          disconnects_count := disconnects_count r;
          disconnects := disconnects r;
          buffering_total_seconds := buffering_total_seconds r;
          buffering_events := buffering_events r |}) s).

Definition is_buffering (o : Probe.ProbeOutcome) : bool :=
  match Probe.result o with Probe.buffering => true | _ => false end.

Definition is_error (o : Probe.ProbeOutcome) : bool :=
  match Probe.result o with Probe.error => true | _ => false end.

(** One turn of [while True], after the guard. *)
Definition turn (info : run_info) (idx : nat) (url : string) (t : tick)
    (st : locals * session) : locals * session :=
  let '(lv, s) := st in
  let o := probe info url t in
  let lv :=
    {| buffer_count := buffer_count lv; error_count := error_count lv;
       last_notes := Probe.notes o;
       last_resolution :=
         match Probe.resolution o with
         | Some res => if is_empty res then last_resolution lv else res
         | None => last_resolution lv
         end |} in
  let '(lv, s) :=
    if is_buffering o
    then ({| buffer_count := buffer_count lv + 1; error_count := error_count lv;
             last_notes := last_notes lv; last_resolution := last_resolution lv |},
          on_buffering idx o s)
    else (lv, s) in
  let '(lv, s) :=
    if is_error o
    then ({| buffer_count := buffer_count lv; error_count := error_count lv + 1;
             last_notes := last_notes lv; last_resolution := last_resolution lv |},
          on_error idx (stamp t) s)
    else (lv, s) in
  (lv, set_running info idx o lv (at_update t) s).

(** The loop: it leaves when the guard [elapsed >= duration_seconds]
    holds, or when the clock readings are used up. *)
Fixpoint loop (info : run_info) (idx : nat) (url : string) (ticks : list tick)
    (st : locals * session) : locals * session :=
  match ticks with
  | [] => st
  | t :: rest =>
      if Qle_bool (inject_Z (duration_seconds info)) (at_head t) then st
      else loop info idx url rest (turn info idx url t st)
  end.

(** The turns that are made: those before the guard first holds. *)
Fixpoint made (info : run_info) (ticks : list tick) : list tick :=
  match ticks with
  | [] => []
  | t :: rest =>
      if Qle_bool (inject_Z (duration_seconds info)) (at_head t) then []
      else t :: made info rest
  end.

(** The time stamps of the turns whose probe gives [error], and the
    durations of those whose probe gives [buffering]. *)
Definition error_stamps (info : run_info) (url : string) (ticks : list tick) : list Z :=
  omap (fun t => if is_error (probe info url t) then Some (stamp t) else None)
       (made info ticks).

Definition buffering_durations (info : run_info) (url : string) (ticks : list tick)
  : list Q :=
  omap (fun t => if is_buffering (probe info url t)
                 then Some (buff_dur (probe info url t)) else None)
       (made info ticks).

(** [probe_channel(idx, c)] with [continuous_mode] false;
    [final_elapsed] is [time.time() - start] in the finalize block. *)
Definition probe_channel (info : run_info) (idx : nat) (c : Monitor.channel)
    (ticks : list tick) (final_elapsed : Q) (s : session)
  : exc (probe_result * session) :=
  let '(cid, cname, curl) := c in
  s ← mark_testing info idx s;
  let '(lv, s) := loop info idx curl ticks (initial_locals, s) in
  let s := finalize info idx true lv final_elapsed s in
  Ok ({| res_id := cid; res_name := cname; res_url := curl;
         res_result :=
           if (buffer_count lv =? 0) && (error_count lv =? 0) then Pass else Issue;
         res_notes := last_notes lv;
         res_issues := (buffer_count lv, error_count lv) |}, s).

End Periodic.

(** *** The continuous path of [probe_channel] *)

Module Continuous.
Import PyStr PyNum Exc Session.

(** What happens while the inspection process runs, in the order in
    which the event loop serves it: a decoded line read by
    [read_stdout] or by [read_stderr], or a wake-up of
    [update_progress] with its reading of [time.time() - start]. *)
Inductive event : Type :=
| StdoutLine (line : string)
| StderrLine (line : string)
| Progress (elapsed_now : Q).

(** The local variables of [read_stdout]. *)
Record widths : Type := {
  last_width : option string;
  last_height : option string;
}.

Definition with_notes (lv : locals) (text : string) : string :=
  strip (last_notes lv +:+ " " +:+ text).

(** The body of the loop of [read_stderr] for one line. *)
Definition read_stderr (line : string) (lv : locals) : locals :=
  let text := strip line in
  let lv :=
    if contains "error" (lower text) || contains "failed" (lower text)
    then {| buffer_count := buffer_count lv; error_count := error_count lv + 1;
            last_notes := with_notes lv text;
            last_resolution := last_resolution lv |}
    else lv in
  if contains "buffer" (lower text)
  then {| buffer_count := buffer_count lv + 1; error_count := error_count lv;
          last_notes := with_notes lv text;
          last_resolution := last_resolution lv |}
  else lv.

(** The body of the loop of [read_stdout] for one line. *)
Definition read_stdout (line : string) (ws : widths) (lv : locals) : widths * locals :=
  let text := strip line in
  let ws :=
    if contains "width=" text
    then match re_search_run "width=" is_digit text with
         | Some m => {| last_width := Some m; last_height := last_height ws |}
         | None => ws
         end
    else ws in
  let ws :=
    if contains "height=" text
    then match re_search_run "height=" is_digit text with
         | Some n => {| last_width := last_width ws; last_height := Some n |}
         | None => ws
         end
    else ws in
  match last_width ws, last_height ws with
  | Some w, Some h =>
      (ws, {| buffer_count := buffer_count lv; error_count := error_count lv;
              last_notes := last_notes lv;
              last_resolution := w +:+ "x" +:+ h |})
  | _, _ => (ws, lv)
  end.

(** One wake-up of [update_progress]. *)
Definition update_progress (info : run_info) (idx : nat) (elapsed_now : Q)
    (lv : locals) (s : session) : session :=
  write_results info
    (update_record idx (fun r =>
       {| name := name r; status := status r; details := last_notes lv;
          url := url r; resolution := last_resolution lv;
          test_duration := test_duration r;
          tested_seconds := py_int elapsed_now;
          issues_buffering := issues_buffering r;
          issues_errors := issues_errors r;
          disconnects_count := disconnects_count r;
          disconnects := disconnects r;
          buffering_total_seconds := buffering_total_seconds r;
          buffering_events := buffering_events r |}) s).

Definition serve (info : run_info) (idx : nat) (e : event)
    (st : widths * locals * session) : widths * locals * session :=
  let '(ws, lv, s) := st in
  match e with
  | StdoutLine line => let '(ws, lv) := read_stdout line ws lv in (ws, lv, s)
  | StderrLine line => (ws, read_stderr line lv, s)
  | Progress elapsed_now => (ws, lv, update_progress info idx elapsed_now lv s)
  end.

(** The first, short probe that seeds the notes and the resolution. *)
Definition seed (info : run_info) (url : string) (w0 : Probe.world) : locals :=
  match Probe.check_ts w0 url (Z.min 10 (duration_seconds info)) with
  | Ok o =>
      {| buffer_count := 0; error_count := 0;
         last_notes := Probe.notes o;
         last_resolution :=
           match Probe.resolution o with
           | Some res => if is_empty res then "" else res
           | None => ""
           end |}
  | Raise _ => initial_locals
  end.

(** [probe_channel(idx, c)] with [continuous_mode] true. [spawn_error]
    is the message of the exception of [create_subprocess_exec], if it
    raises one. *)
Definition probe_channel (info : run_info) (idx : nat) (c : Monitor.channel)
    (w0 : Probe.world) (spawn_error : option string) (events : list event)
    (final_elapsed : Q) (s : session) : exc (probe_result * session) :=
  let '(cid, cname, curl) := c in
  s ← mark_testing info idx s;
  let lv := seed info curl w0 in
  match spawn_error with
  | Some msg => Raise (PyException msg)
  | None =>
      let '(_, lv, s) :=
        foldl (fun st e => serve info idx e st)
              ({| last_width := None; last_height := None |}, lv, s) events in
      let s := finalize info idx false lv final_elapsed s in
      Ok ({| res_id := cid; res_name := cname; res_url := curl;
             res_result :=
               if (buffer_count lv =? 0) && (error_count lv =? 0) then Pass else Issue;
             res_notes := last_notes lv;
             res_issues := (buffer_count lv, error_count lv) |}, s)
  end.

(** The lines that [read_stderr] counts as errors and as buffering. *)
Definition is_error_line (line : string) : bool :=
  contains "error" (lower (strip line)) || contains "failed" (lower (strip line)).

Definition is_buffer_line (line : string) : bool :=
  contains "buffer" (lower (strip line)).

Definition stderr_lines (events : list event) : list string :=
  omap (fun e => match e with StderrLine l => Some l | _ => None end) events.

(** The numbers of lines of the diagnostic channel counted as errors
    and as buffering. *)
Definition error_lines (events : list event) : nat :=
  length (List.filter is_error_line (stderr_lines events)).

Definition buffer_lines (events : list event) : nat :=
  length (List.filter is_buffer_line (stderr_lines events)).

End Continuous.

(** *** [run_checks_async] and the start of an iteration *)

Module Run.
Import PyStr PyNum Exc Session.

(** What one channel's window meets: the fields of the path in use are
    read. *)
Record window : Type := {
  ticks : list Periodic.tick;
  final_elapsed : Q;
  seed_world : Probe.world;
  spawn_error : option string;
  events : list Continuous.event;
}.

(** The record built when [channels_json] is [None]. *)
Definition fresh_record (i : nat) (c : Monitor.channel) : mem_record :=
  {| name := c.1.2; status := Pending; details := ""; url := c.2;
     resolution := ""; test_duration := ""; tested_seconds := 0;
     issues_buffering := 0; issues_errors := 0;
     disconnects_count := 0; disconnects := Fresh i;
     buffering_total_seconds := 0%Q; buffering_events := Fresh i |}.

Definition no_lists {A} : loc → list A := fun _ => [].

Definition fresh_session (channels : list Monitor.channel) : session :=
  {| channels_json := imap fresh_record channels;
     stamps := no_lists; durations := no_lists; results_file := None |}.

(** [for i, ch in enumerate(channels): ...], one channel after another. *)
Fixpoint probe_all (info : run_info) (continuous_mode : bool) (i : nat)
    (channels : list Monitor.channel) (windows : nat → window)
    (results : list probe_result) (s : session)
  : exc (list probe_result * session) :=
  match channels with
  | [] => Ok (results, s)
  | ch :: rest =>
      let w := windows i in
      '(res, s) ←
        (if continuous_mode
         then Continuous.probe_channel info i ch (seed_world w) (spawn_error w)
                (events w) (final_elapsed w) s
         else Periodic.probe_channel info i ch (ticks w) (final_elapsed w) s);
      probe_all info continuous_mode (S i) rest windows (results ++ [res]) s
  end.

(** [run_checks_async]; [given] is the [channels_json] argument with the
    list objects its records refer to, [now] is [int(time.time())]. *)
Definition run_checks_async (channels : list Monitor.channel)
    (duration_seconds : Z) (continuous_mode : bool) (loop_mode : string)
    (current_iteration : Z) (given : option session) (now : Z)
    (windows : nat → window) : exc (list probe_result * session) :=
  let s := match given with
           | None => fresh_session channels
           | Some s => s
           end in
  let info := {| test_start := now; duration_seconds := duration_seconds;
                 loop_mode := loop_mode; current_iteration := current_iteration |} in
  probe_all info continuous_mode 0 channels windows [] (write_results info s).

(** Every record has a [disconnects] list of its own, as long as its
    [disconnects_count]. *)
Definition counts_match (s : session) : Prop :=
  ∀ j r, channels_json s !! j = Some r →
    disconnects r = Fresh j
    ∧ disconnects_count r = Z.of_nat (length (stamps s (Fresh j))).

(** An entry of [previous_counts]. *)
Record prev_counts : Type := {
  prev_buffering_events : loc;
  prev_disconnects : loc;
  prev_disconnects_count : Z;
  prev_buffering_total_seconds : Q;
}.

(** [for ch in prev_data.get('channels', []): previous_counts[ch['name']] = ...];
    [k] is the position of the next record of the file. *)
Fixpoint collect_previous (k : nat) (prev : list file_record)
    (previous_counts : gmap string prev_counts) : gmap string prev_counts :=
  match prev with
  | [] => previous_counts
  | ch :: rest =>
      collect_previous (S k) rest
        (<[name ch :=
             {| prev_buffering_events := FromFile k;
                prev_disconnects := FromFile k;
                prev_disconnects_count := disconnects_count ch;
                prev_buffering_total_seconds := buffering_total_seconds ch |}]>
           previous_counts)
  end.

(** The list objects that [json.load] makes, and the empty lists of the
    literals evaluated later. *)
Definition loaded_stamps (prev : list file_record) : loc → list Z :=
  fun l => match l with
           | FromFile k => from_option disconnects [] (prev !! k)
           | Fresh _ => []
           end.

Definition loaded_durations (prev : list file_record) : loc → list Q :=
  fun l => match l with
           | FromFile k => from_option buffering_events [] (prev !! k)
           | Fresh _ => []
           end.

(** The dictionary appended to [channels_json] for the [i]-th channel. *)
Definition build_record (previous_counts : gmap string prev_counts) (i : nat)
    (c : Monitor.channel) : mem_record :=
  let prev := previous_counts !! c.1.2 in
  {| name := c.1.2; status := Pending; details := ""; url := c.2;
     resolution := ""; test_duration := ""; tested_seconds := 0;
     issues_buffering := 0; issues_errors := 0;
     disconnects_count := from_option prev_disconnects_count 0 prev;
     disconnects := from_option prev_disconnects (Fresh i) prev;
     buffering_total_seconds := from_option prev_buffering_total_seconds 0%Q prev;
     buffering_events := from_option prev_buffering_events (Fresh i) prev |}.

(** The previous records that are read: those of [results.json] when the
    iteration number is above 1 and the file exists. *)
Definition previous_records (current_iteration : Z) (file : option snapshot)
  : list file_record :=
  if 1 <? current_iteration
  then match file with
       | Some snap => snap_channels snap
       | None => []
       end
  else [].

(** The part of [prepare_and_run] from "Load previous results" to the
    first write of [results.json]: the session handed to
    [run_checks_async]. *)
Definition start_iteration (channels_to_check : list Monitor.channel)
    (duration_seconds : Z) (loop_mode : string) (current_iteration : Z)
    (file : option snapshot) (now : Z) : session :=
  let prev := previous_records current_iteration file in
  let previous_counts := collect_previous 0 prev ∅ in
  write_results
    {| test_start := now; duration_seconds := duration_seconds;
       loop_mode := loop_mode; current_iteration := current_iteration |}
    {| channels_json := imap (build_record previous_counts) channels_to_check;
       stamps := loaded_stamps prev;
       durations := loaded_durations prev;
       results_file := file |}.

(** The rest of [prepare_and_run]: the call of [run_checks_async], which
    runs the periodic path. *)
Definition run_iteration (channels_to_check : list Monitor.channel)
    (duration_seconds : Z) (loop_mode : string) (current_iteration : Z)
    (file : option snapshot) (now now' : Z) (windows : nat → window)
  : exc (list probe_result * session) :=
  run_checks_async channels_to_check duration_seconds false loop_mode
    current_iteration
    (Some (start_iteration channels_to_check duration_seconds loop_mode
             current_iteration file now))
    now' windows.

End Run.

(** ** Sample inputs *)

Module Samples.
Import PyStr PyNum Exc Session.

(** A probe that ends after 0.104 s with a non-zero exit status. *)
Definition stalling : Probe.world :=
  Probe.answering
    {| Probe.returncode := 1; Probe.stdout := ""; Probe.stderr := "Connection refused" |}
    (to_float (104 # 1000)).

(** A probe whose process cannot be launched. *)
Definition failing : Probe.world :=
  {| Probe.subprocess_run := fun _ => Probe.RunRaised "ffprobe not found";
     Probe.wait_for_event := fun _ => Probe.Awaited;
     Probe.elapsed := 1 |}.

(** A probe of a healthy stream. *)
Definition healthy : Probe.world :=
  Probe.answering
    {| Probe.returncode := 0; Probe.stdout := "codec_type=video"; Probe.stderr := "" |}
    (1 # 2).

(** The turn that starts [n] seconds into the window. *)
Definition tick_at (w : Probe.world) (n : Z) : Periodic.tick :=
  {| Periodic.at_head := inject_Z n; Periodic.probe_world := w;
     Periodic.stamp := 1700000000 + n; Periodic.at_update := inject_Z n + (1 # 2) |}.

Definition minute : run_info :=
  {| test_start := 1700000000; duration_seconds := 60;
     loop_mode := "single"; current_iteration := 1 |}.

Definition channel_a : Monitor.channel := (1, "News", "http://a/1.ts").
Definition channel_b : Monitor.channel := (2, "News", "http://b/1.ts").

(** Five probes that each stall for 0.104 s, then the end of the minute. *)
Definition five_stalls : list Periodic.tick :=
  [tick_at stalling 0; tick_at stalling 1; tick_at stalling 2;
   tick_at stalling 3; tick_at stalling 4; tick_at healthy 60].

(** One failed probe, then the end of the minute. *)
Definition one_failure : list Periodic.tick :=
  [tick_at failing 0; tick_at healthy 60].

(** One error line on the diagnostic channel of a continuous probe. *)
Definition one_error_line : list Continuous.event :=
  [Continuous.StdoutLine "width=1280"; Continuous.StdoutLine "height=720";
   Continuous.StderrLine "Connection error"; Continuous.Progress 5].

Definition solo : session := Run.fresh_session [channel_a].

Definition first_record : mem_record := Run.fresh_record 0 channel_a.

(** The final record of a first iteration that met two disconnects. *)
Definition after_first_iteration : file_record :=
  {| name := "News"; status := Issue; details := "ffprobe not found";
     url := "http://a/1.ts"; resolution := "1280x720"; test_duration := "";
     tested_seconds := 60; issues_buffering := 1; issues_errors := 2;
     disconnects_count := 2; disconnects := [1700000003; 1700000031];
     buffering_total_seconds := to_float (10 # 100);
     buffering_events := [to_float (10 # 100)] |}.

(** Every window of the run meets one failed probe. *)
Definition failures (i : nat) : Run.window :=
  {| Run.ticks := one_failure; Run.final_elapsed := 60%Q;
     Run.seed_world := healthy; Run.spawn_error := None; Run.events := [] |}.

Definition first_snapshot : snapshot :=
  {| snap_channels := [after_first_iteration];
     snap_test_start := 1700000000; snap_test_duration := 60;
     snap_loop_mode := "infinite"; snap_current_iteration := 1 |}.

End Samples.

(** ** [worker.py]: what a sweep collects *)

Module Collect.
Import PyStr Exc Probe Monitor.

#[global] Instance task_state_eq_dec : EqDecision task_state.
Proof. solve_decision. Defined.



(** A dictionary in the results of [run_checks_concurrent]: the one of
    a failed task has [None] for every field but [result] and
    [notes]. *)
Record sweep_result : Type := {
  sw_id : option Z;
  sw_name : option string;
  sw_url : option string;
  sw_result : probe_status;
  sw_notes : string;
  sw_throughput : option string;
  sw_startup : option Q;
}.

Definition failed_result (e : exn) : sweep_result :=
  {| sw_id := None; sw_name := None; sw_url := None; sw_result := error;
     sw_notes := str_exn e; sw_throughput := None; sw_startup := None |}.

(** What the global name [check_hls] is bound to when [_run_channel]
    looks it up: a probe, or nothing. *)
Definition binding : Type := option (string → Z → exc ProbeOutcome).

(** [worker.py] binds no such name. *)
Definition check_hls : binding := None.

Definition name_error : exn := PyException "name 'check_hls' is not defined".

(** The body of [_run_channel] inside [async with sem]. The awaited
    [insert_result] may raise: [store_error] is its exception, if it
    raises one. Modelled from the spec: an [insert_result] of [db.py]
    that raises records no row. *)
Definition _run_channel (b : binding) (store_error : option exn)
    (per_check_timeout : Z) (c : channel) (d : db)
  : exc sweep_result * db :=
  let '(cid, name, url) := c in
  match b with
  | None => (Raise name_error, d)
  | Some probe =>
      match probe url per_check_timeout with
      | Raise e => (Raise e, d)
      | Ok o =>
          match store_error with
          | Some e => (Raise e, d)
          | None =>
              (Ok {| sw_id := Some cid; sw_name := Some name; sw_url := Some url;
                     sw_result := result o; sw_notes := notes o;
                     sw_throughput := resolution o; sw_startup := test_duration o |},
               insert_result d cid (result o) (notes o) (resolution o)
                 (test_duration o))
          end
      end
  end.

(** [for t in asyncio.as_completed(tasks)]: the tasks are met in the
    order [order] in which they end; a task ends right after its
    [insert_result], so the rows are inserted in that order too.
    [store i] is what the [insert_result] of the task of the [i]-th
    channel raises, if it is reached and raises. *)
Fixpoint collect (b : binding) (store : nat → option exn) (per_check_timeout : Z)
    (channels : list channel) (order : list nat) (d : db)
    (results : list sweep_result) : list sweep_result * db :=
  match order with
  | [] => (results, d)
  | i :: rest =>
      match channels !! i with
      | None => collect b store per_check_timeout channels rest d results
      | Some c =>
          match _run_channel b (store i) per_check_timeout c d with
          | (Ok res, d) =>
              collect b store per_check_timeout channels rest d (results ++ [res])
          | (Raise e, d) =>
              collect b store per_check_timeout channels rest d
                (results ++ [failed_result e])
          end
      end
  end.

(** [run_checks_concurrent]. A negative [concurrency] makes
    [asyncio.Semaphore] raise; with [concurrency = 0] and a channel to
    probe no task ever passes the semaphore and the call does not
    return ([None]). *)
Definition run_checks_concurrent (b : binding) (store : nat → option exn)
    (channels : list channel) (concurrency per_check_timeout : Z)
    (order : list nat) (d : db)
  : option (exc (list sweep_result * db)) :=
  if concurrency <? 0
  then Some (Raise (PyException "Semaphore initial value must be >= 0"))
  else if (concurrency =? 0) && negb (length channels =? 0)%nat then None
  else Some (Ok (collect b store per_check_timeout channels order d [])).

(** The results that stand for a task that ended well. *)
Definition stored (results : list sweep_result) : nat :=
  length (List.filter (fun r => match sw_id r with Some _ => true | None => false end) results).

(** A probe that reports [buffering] for URLs that start with [rtmp]
    and fails for those that start with [x]. *)
Definition sample_probe : string → Z → exc ProbeOutcome :=
  fun url _ =>
    if startswith url "x" then Raise (PyException "unreachable")
    else Ok {| result := if startswith url "rtmp" then buffering else pass;
               notes := ""; resolution := Some ""; test_duration := Some 1%Q |}.

Definition three_channels : list channel :=
  [(1, "One", "http://one"); (2, "Two", "x://two"); (3, "Three", "rtmp://three")].

Definition three_db : db := {| channel_table := three_channels; inserted := [] |}.

(** The dictionary that stands for a task that ended with [e]. *)
Definition is_placeholder (e : exn) (res : sweep_result) : Prop :=
  sw_id res = None ∧ sw_name res = None ∧ sw_url res = None
  ∧ sw_result res = error ∧ sw_notes res = str_exn e
  ∧ sw_throughput res = None ∧ sw_startup res = None.

(** The row that a result with an id stands for. *)
Definition stored_row (res : sweep_result) : option result_row :=
  match sw_id res with
  | Some cid =>
      Some {| row_channel := cid; row_result := sw_result res;
              row_notes := sw_notes res; row_throughput := sw_throughput res;
              row_startup := sw_startup res |}
  | None => None
  end.

(** The result of the task of the [i]-th channel, case by case. *)
Definition task_result (b : binding) (store : nat → option exn) (t : Z) (i : nat)
    (c : channel) (res : sweep_result) : Prop :=
  (b = None → is_placeholder name_error res)
  ∧ (∀ probe e, b = Some probe → probe c.2 t = Raise e → is_placeholder e res)
  ∧ (∀ probe o e, b = Some probe → probe c.2 t = Ok o → store i = Some e →
       is_placeholder e res)
  ∧ (∀ probe o, b = Some probe → probe c.2 t = Ok o → store i = None →
       sw_id res = Some c.1.1 ∧ sw_name res = Some c.1.2 ∧ sw_url res = Some c.2
       ∧ sw_result res = result o ∧ sw_notes res = notes o
       ∧ sw_throughput res = resolution o ∧ sw_startup res = test_duration o).

(** The insert of the first task fails, the others succeed. *)
Definition sample_store (i : nat) : option exn :=
  match i with
  | O => Some (PyException "database is locked")
  | _ => None
  end.

End Collect.

(** ** Sweeps: how far a task is from its end *)

Module Progress.
Import Monitor.

(** The number of events a task can still take. *)
Definition rank (t : task_state) : nat :=
  match t with
  | Created => 4
  | Waiting => 3
  | Probing => 2
  | Storing => 1
  | Done => 0
  end%nat.

Fixpoint rank_sum (ts : list task_state) : nat :=
  match ts with
  | [] => 0
  | t :: ts' => rank t + rank_sum ts'
  end%nat.

Definition all_done (s : sweep) : Prop := Forall (fun t => t = Done) (tasks s).

(** A sweep of three channels with limit two, run to its end; the
    second probe raises. *)
Definition full_run : list event :=
  [Start 0; Start 1; Start 2; ProbeReturns 0; ProbeRaises 1; Wake 2;
   Stored 0; ProbeReturns 2; Stored 2]%nat.

(** The same sweep before the last task has stored its result. *)
Definition partial_run : list event :=
  [Start 0; Start 1; Start 2; ProbeReturns 0; ProbeRaises 1; Wake 2;
   Stored 0; ProbeReturns 2]%nat.

End Progress.

(** ** [worker.py]: [fetch_bytes] *)

Module FetchBytes.
Import PyStr Exc Fetch.

Definition max_attempts : nat := 2.

(** The body of the [try] of one attempt: the status is looked at
    before the body is read; [elapsed] is [time.time() - start] after
    the read. *)
Definition attempt_once (ev : get_event) (elapsed : Q) : exc (nat * Q) :=
  match ev with
  | GetRaised e => Raise e
  | Responded r =>
      if negb (status r =? 200) then Raise (PyException (http_error_message r))
      else
        data ← match read_event_of r with
               | ReadOk raw => Ok raw
               | ReadRaised msg => Raise (PyException msg)
               end;
        Ok (length data, elapsed)
  end.

(** The loop over the attempts still to make; [clock n] is the elapsed
    time read in attempt [n]. *)
Fixpoint fetch_loop (s : session) (clock : nat → Q) (url : string) (timeout : Z)
    (attempts : list nat) (last_exc : option exn) (trace : list effect)
  : exc (nat * Q) * list effect :=
  match attempts with
  | [] =>
      (Raise (PyException ("fetch_bytes failed after " +:+ pretty max_attempts
                           +:+ " attempts: " +:+ str_last last_exc)),
       trace)
  | attempt :: rest =>
      let trace := trace ++ [Request url timeout] in
      match attempt_once (s attempt url) (clock attempt) with
      | Ok r => (Ok r, trace)
      | Raise e =>
          fetch_loop s clock url timeout rest (Some e)
            (trace ++ [Sleep (delay * (Z.of_nat attempt + 1))])
      end
  end.

Definition fetch_bytes (s : session) (clock : nat → Q) (url : string) (timeout : Z)
  : exc (nat * Q) * list effect :=
  fetch_loop s clock url timeout (seq 0 max_attempts) None [].

End FetchBytes.

(** ** [run_local_test.py]: the runner thread *)

Module Runner.
Import PyStr Exc.

(** *** The playlist scan written out in [tests_runner] *)

(** [line.split(',', 1)[1] if ',' in line else 'Unknown Channel'] *)
Definition name_of (line : string) : string :=
  if contains "," line then after_first "," line else "Unknown Channel".

(** The guard of its inner loop: the emptiness test strips the line,
    the comment test does not. *)
Definition skipped (raw : string) : bool :=
  is_empty (strip raw) || startswith raw "#".

Fixpoint scan_url (fuel : nat) (lines : list string) (j : nat) : nat :=
  match fuel with
  | O => j
  | S fuel' =>
      match lines !! j with
      | Some l => if skipped l then scan_url fuel' lines (S j) else j
      | None => j
      end
  end.

(** The outer loop over the lines that [readlines] gave. *)
Fixpoint parse_loop (fuel : nat) (lines : list string) (i : nat)
    (items : list (string * string)) : list (string * string) :=
  match fuel with
  | O => items
  | S fuel' =>
      match lines !! i with
      | None => items
      | Some raw =>
          let line := strip raw in
          if Playlist.is_extinf line then
            let name := name_of line in
            let j := scan_url (length lines) lines (S i) in
            let items' :=
              match lines !! j with
              | Some u => if is_empty (strip u) then items
                          else items ++ [(name, strip u)]
              | None => items
              end in
            parse_loop fuel' lines (S j) items'
          else parse_loop fuel' lines (S i) items
      end
  end.

Definition parse_lines (lines : list string) : list (string * string) :=
  parse_loop (length lines) lines 0 [].

(** The two scans give the same URLs, and the same names but for the
    name given to a line without a comma. *)
Definition same_entry (a b : string * string) : Prop :=
  a.2 = b.2 ∧ (a.1 = b.1 ∨ (a.1 = "Unknown Channel" ∧ b.1 = "unknown")).

(** No line is a comment that starts with white space. *)
Definition comments_flush (lines : list string) : Prop :=
  Forall (fun l => startswith (strip l) "#" = startswith l "#") lines.

(** *** The loop over the iterations *)

(** [loop_iterations if loop_iterations and loop_iterations > 0 else 1] *)
Definition max_iterations (loop_iterations : option Z) : Z :=
  match loop_iterations with
  | Some n => if 0 <? n then n else 1
  | None => 1
  end.

(** How the loop is left: by [break], by an exception of an iteration,
    or not within the turns allowed. *)
Inductive loop_end (S : Type) : Type :=
| Finished (s : S) (iterations : list Z)
| Failed (e : exn) (iterations : list Z)
| StillLooping (s : S) (iterations : list Z).
Arguments Finished {S} s iterations.
Arguments Failed {S} e iterations.
Arguments StillLooping {S} s iterations.

(** [while True: current_iteration += 1; ...]: [run k s] is the call of
    [prepare_and_run] with [current_iteration = k] on the state [s] of
    the files; [iterations] lists the numbers it has been called
    with. *)
Fixpoint iterate {S : Type} (fuel : nat) (run : Z → S → exc S)
    (loop_mode : string) (max : Z) (current_iteration : Z) (s : S)
    (iterations : list Z) : loop_end S :=
  match fuel with
  | O => StillLooping s iterations
  | Datatypes.S fuel' =>
      let current_iteration := current_iteration + 1 in
      let iterations := iterations ++ [current_iteration] in
      match run current_iteration s with
      | Raise e => Failed e iterations
      | Ok s =>
          if String.eqb loop_mode "single" then Finished s iterations
          else if String.eqb loop_mode "loop-times" && (max <=? current_iteration)
          then Finished s iterations
          else iterate fuel' run loop_mode max current_iteration s iterations
      end
  end.

(** The state after the iterations [1 .. n], each of which succeeds
    with [f]. *)
Definition after_iterations {S : Type} (f : Z → S → S) (n : Z) (s : S) : S :=
  foldl (fun s k => f k s) s (seqZ 1 n).

(** *** [tests_runner] as a whole *)

(** The argument of the script as [tests_runner] sees it: the path of a
    file, with the lines that [readlines] gives, or anything else, a
    URL for one ([m3u_path] is [None]). *)
Inductive source : Type :=
| LocalFile (lines : list string)
| NotAFile.

(** What [show_channel_selector] returns. *)
Record selection : Type := {
  selected : option (list (string * string));
  gui_duration : option Z;
  sel_loop_mode : string;
  sel_loop_iterations : option Z;
}.

(** The [UnboundLocalError] for a local name read before any
    assignment to it has run, with the message of Python 3.11 and
    later. *)
Definition unbound_local (name : string) : exn :=
  PyException ("cannot access local variable '" +:+ name
               +:+ "' where it is not associated with a value").

(** How [tests_runner] ends: by its [return] when nothing is selected,
    by an exception of its own before any call of [prepare_and_run], or
    as its loop ends. *)
Inductive runner_end (S : Type) : Type :=
| NothingSelected
| Crashed (e : exn)
| Looped (r : loop_end S).
Arguments NothingSelected {S}.
Arguments Crashed {S} e.
Arguments Looped {S} r.

(** [tests_runner]. The names [loop_mode], [loop_iterations] and
    [duration_seconds] are assigned in its body, so they are locals of
    it: the first two are bound only under [if m3u_path:], the third
    only when the selector gives a duration. [remove_results] is the
    removal of an old [results.json]; [gui] is the selector;
    [write_selection] is the writing of [channel_selection.json];
    [run d m k] is the call of [prepare_and_run] with duration [d],
    loop mode [m] and iteration number [k]. *)
Definition tests_runner {S : Type} (fuel : nat) (src : source)
    (remove_results : S → S) (gui : list (string * string) → selection)
    (write_selection : list (string * string) → S → S)
    (run : Z → string → Z → S → exc S) (s : S) : runner_end S :=
  let s := remove_results s in
  match src with
  | NotAFile => Crashed (unbound_local "loop_iterations")
  | LocalFile lines =>
      let result := gui (parse_lines lines) in
      match selected result with
      | None => NothingSelected
      | Some [] => NothingSelected
      | Some (c :: chosen) =>
          let loop_mode := sel_loop_mode result in
          let s := write_selection (c :: chosen) s in
          let max := max_iterations (sel_loop_iterations result) in
          match gui_duration result with
          | None => Crashed (unbound_local "duration_seconds")
          | Some duration_seconds =>
              Looped (iterate fuel (run duration_seconds loop_mode) loop_mode max 0 s [])
          end
      end
  end.

End Runner.

(** ** Counting lines *)

Module Counting.

(** The number of elements of [l] that satisfy [p]. *)
Fixpoint count_if {A : Type} (p : A → bool) (l : list A) : nat :=
  match l with
  | [] => O
  | x :: l' => ((if p x then 1 else 0) + count_if p l')%nat
  end.

(** A line that can serve as a URL: not empty and not a comment. *)
Definition is_url_line (l : string) : bool := negb (Playlist.skipped l).

End Counting.

(** ** Sample lines and loops for the runner *)

Module RunnerSamples.
Import PyStr Exc Runner.

(** Lines as [readlines] gives them, with their line ends. *)
Definition raw_lines : list string :=
  ["#EXTM3U" +:+ Playlist.nl; "#EXTINF:-1 tvg-id=x" +:+ Playlist.nl;
   "   " +:+ Playlist.nl; "http://a/1.ts  " +:+ Playlist.nl;
   "#EXTINF:-1,Two" +:+ Playlist.nl; "# note" +:+ Playlist.nl; "http://b/2.ts"].

(** The numbers that an outcome of the loop lists. *)
Definition iterations_of {S : Type} (r : loop_end S) : list Z :=
  match r with
  | Finished _ it => it
  | Failed _ it => it
  | StillLooping _ it => it
  end.

End RunnerSamples.

(** ** [run_local_test.py]: the channel selector *)

Module Selector.
Import PyStr.

(** An entry [{'name': ..., 'url': ...}] of the playlist. *)
Record item : Type := {
  item_name : string;
  item_url : string;
}.

#[global] Instance item_eq_dec : EqDecision item.
Proof. solve_decision. Defined.

(** [s.split(sep)[0]]: the text before the first [sep], the whole of
    [s] when [sep] does not occur. *)
Fixpoint before_first (sep s : string) : string :=
  if startswith s sep then EmptyString
  else match s with
       | EmptyString => EmptyString
       | String c s' => String c (before_first sep s')
       end.

(** The group read off a channel name: ["Group | Channel"],
    ["[Group] Channel"] or ["Group - Channel"] with a group shorter than
    30 characters. *)
Definition group_of (name : string) : string :=
  if contains " | " name then strip (before_first " | " name)
  else if startswith name "[" && contains "]" name
  then strip (before_first "]" (PyStr.drop 1 name))
  else if contains " - " name
          && (String.length (before_first " - " name) <? 30)%nat
  then strip (before_first " - " name)
  else "Ungrouped".

(** The dictionary [groups], in the order in which its keys were
    inserted. *)
Definition groups : Type := list (string * list item).

(** [if group not in groups: groups[group] = []] and
    [groups[group].append(item)]. *)
Fixpoint add_to_group (g : string) (x : item) (gs : groups) : groups :=
  match gs with
  | [] => [(g, [x])]
  | (g', l) :: rest =>
      if String.eqb g g' then (g', l ++ [x]) :: rest
      else (g', l) :: add_to_group g x rest
  end.

Definition group_items (items : list item) : groups :=
  foldl (fun gs x => add_to_group (group_of (item_name x)) x gs) [] items.

(** [groups.get(g)] *)
Fixpoint find_group (g : string) (gs : groups) : option (list item) :=
  match gs with
  | [] => None
  | (g', l) :: rest => if String.eqb g g' then Some l else find_group g rest
  end.

(** [v = vars.get(k)] followed by [v and v.get()]: the box exists and is
    ticked. *)
Definition checked (vars : gmap string bool) (k : string) : bool :=
  match vars !! k with
  | Some true => true
  | _ => false
  end.

(** The selection made by [on_submit]: a whole group when its box is
    ticked, and otherwise the channels of the group whose own box, kept
    by URL, is ticked. *)
Definition on_submit (group_vars channel_vars : gmap string bool) (gs : groups)
  : list item :=
  foldl
    (fun selected '(group_name, channels) =>
       if checked group_vars group_name then selected ++ channels
       else foldl (fun selected ch =>
                     if checked channel_vars (item_url ch)
                     then selected ++ [ch] else selected)
                  selected channels)
    [] gs.

(** The test that [on_submit] applies to an entry. *)
Definition chosen (group_vars channel_vars : gmap string bool) (x : item) : bool :=
  checked group_vars (group_of (item_name x)) || checked channel_vars (item_url x).

(** The entries of [items] that belong to the group [g], in order. *)
Definition members (g : string) (items : list item) : list item :=
  filter (fun x => group_of (item_name x) = g) items.

End Selector.

(** ** [run_local_test.py]: what a run leaves in [results.json] *)

Module Ledger.
Import PyNum Exc Session Run.

(** The object that [json.dump] writes for the present records. *)
Definition snapshot_of (info : run_info) (s : session) : snapshot :=
  {| snap_channels := to_file s <$> channels_json s;
     snap_test_start := test_start info;
     snap_test_duration := duration_seconds info;
     snap_loop_mode := loop_mode info;
     snap_current_iteration := current_iteration info |}.

(** [results.json] shows the records as they are in memory. *)
Definition in_sync (info : run_info) (s : session) : Prop :=
  results_file s = Some (snapshot_of info s).

(** The channel that a result dictionary names. *)
Definition channel_of_result (res : probe_result) : Monitor.channel :=
  (res_id res, res_name res, res_url res).

(** A record of the file whose count is the length of its list. *)
Definition counted (r : file_record) : Prop :=
  disconnects_count r = Z.of_nat (length (disconnects r)).

(** The same for the records in memory, and: no two records share a
    list object. *)
Definition counts_ok (s : session) : Prop :=
  ∀ j r, channels_json s !! j = Some r →
    disconnects_count r = Z.of_nat (length (stamps s (disconnects r))).

Definition own_lists (s : session) : Prop :=
  ∀ j k r r', j ≠ k →
    channels_json s !! j = Some r → channels_json s !! k = Some r' →
    disconnects r ≠ disconnects r' ∧ buffering_events r ≠ buffering_events r'.

(** The session at the start of [run_checks_async]. *)
Definition initial_session (channels : list Monitor.channel) (given : option session)
  : session :=
  match given with
  | None => fresh_session channels
  | Some s => s
  end.

(** The name of a channel tuple. *)
Definition channel_name (c : Monitor.channel) : string := c.1.2.

(** The channel probed at position [j] by the loop that starts at
    position [i] over [chs], and what its window adds to the lists. *)
Definition window_of (chs : list Monitor.channel) (i j : nat) : option Monitor.channel :=
  if decide (i ≤ j)%nat then chs !! (j - i)%nat else None.

Definition new_stamps (info : run_info) (chs : list Monitor.channel)
    (windows : nat → window) (i j : nat) : list Z :=
  from_option (fun c => Periodic.error_stamps info c.2 (ticks (windows j))) []
    (window_of chs i j).

Definition new_events (info : run_info) (chs : list Monitor.channel)
    (windows : nat → window) (i j : nat) : list Q :=
  from_option
    (fun c => round2 <$> Periodic.buffering_durations info c.2 (ticks (windows j))) []
    (window_of chs i j).

Definition channel_c : Monitor.channel := (3, "Sport", "http://c/1.ts").

End Ledger.

(** ** [run_local_test.py]: what a window reports *)

Module Report.
Import PyStr PyNum Exc Session.

(** The lines that [read_stdout] reads. *)
Definition stdout_lines (events : list Continuous.event) : list string :=
  omap (fun e => match e with Continuous.StdoutLine l => Some l | _ => None end) events.

(** The digits that a line gives for the width and for the height. *)
Definition width_of (line : string) : option string :=
  if contains "width=" (strip line)
  then re_search_run "width=" is_digit (strip line) else None.

Definition height_of (line : string) : option string :=
  if contains "height=" (strip line)
  then re_search_run "height=" is_digit (strip line) else None.

(** The resolution made of the last width and the last height read, or
    the one given when one of the two was never read. *)
Definition continuous_resolution (seeded : string) (events : list Continuous.event)
  : string :=
  match last (omap width_of (stdout_lines events)),
        last (omap height_of (stdout_lines events)) with
  | Some w, Some h => w +:+ "x" +:+ h
  | _, _ => seeded
  end.

(** The resolution of a probe, when it is not empty. *)
Definition shown_resolution (o : Probe.ProbeOutcome) : option string :=
  match Probe.resolution o with
  | Some res => if is_empty res then None else Some res
  | None => None
  end.

(** The notes of the last probe made, and the last resolution shown. *)
Definition periodic_notes (info : run_info) (u : string) (ticks : list Periodic.tick)
  : string :=
  from_option (fun t => Probe.notes (Periodic.probe info u t)) ""
    (last (Periodic.made info ticks)).

Definition periodic_resolution (info : run_info) (u : string)
    (ticks : list Periodic.tick) : string :=
  default ""
    (last (omap (fun t => shown_resolution (Periodic.probe info u t))
                (Periodic.made info ticks))).

(** Two video streams reported one after the other. *)
Definition two_streams : list Continuous.event :=
  [Continuous.StdoutLine "width=1920"; Continuous.StdoutLine "height=1080";
   Continuous.StderrLine "Connection error";
   Continuous.StdoutLine "width=640"].

End Report.

(** * Theorems *)

(** ** Playlist parsing *)

Section PlaylistFacts.
Import PyStr Playlist.
Local Open Scope nat_scope.

Lemma chain_weaken lo lo' idx : lo' ≤ lo → chain lo idx → chain lo' idx.
Proof.
  destruct idx as [|[a b] idx]; [done|]. cbn [chain].
  intros Hlo (Ha & Hab & Hrest). repeat split; [lia|lia|done].
Qed.

Lemma is_extinf_skipped l : is_extinf l = true → skipped l = true.
Proof.
  destruct l as [|c l]; [done|].
  unfold is_extinf; cbn [startswith]. intros [Hc _]%andb_true_iff.
  unfold skipped; cbn [is_empty startswith]. by rewrite Hc.
Qed.

Lemma skipped_false_nonempty l : skipped l = false → is_empty l = false.
Proof. unfold skipped. by intros [? _]%orb_false_iff. Qed.

Lemma scan_url_spec fuel lines j0 :
  length lines - j0 ≤ fuel →
  j0 ≤ scan_url fuel lines j0 ∧
  (∀ k l, j0 ≤ k < scan_url fuel lines j0 → lines !! k = Some l → skipped l = true) ∧
  (∀ u, lines !! scan_url fuel lines j0 = Some u → skipped u = false).
Proof.
  revert j0. induction fuel as [|fuel IH]; intros j0 Hfuel; simpl.
  - split; [lia|]. split; [intros; lia|].
    intros u Hu. apply lookup_lt_Some in Hu. lia.
  - destruct (lines !! j0) as [l|] eqn:Hl.
    + destruct (skipped l) eqn:Hs.
      * destruct (IH (S j0)) as (Hle & Hall & Hend); [lia|].
        split; [lia|]. split; [|done].
        intros k l' Hk Hl'. destruct (decide (k = j0)) as [->|Hne].
        -- congruence.
        -- apply (Hall k); [lia|done].
      * split; [lia|]. split; [intros; lia|]. congruence.
    + split; [lia|]. split; [intros; lia|]. congruence.
Qed.

Lemma next_url_unique lines i j j' :
  next_url lines i j → next_url lines i j' → j = j'.
Proof.
  intros (Hij & (u & Hu & Hsu) & Hbet) (Hij' & (u' & Hu' & Hsu') & Hbet').
  destruct (lt_eq_lt_dec j j') as [[Hlt|Heq]|Hgt]; [|done|].
  - specialize (Hbet' j u). rewrite Hbet' in Hsu; [done|lia|done].
  - specialize (Hbet j' u'). rewrite Hbet in Hsu'; [done|lia|done].
Qed.

Lemma parse_loop_spec fuel lines i items :
  length lines - i ≤ fuel → settled lines i →
  ∃ idx, parse_loop fuel lines i items = items ++ (pair_at lines <$> idx)
    ∧ chain i idx
    ∧ ∀ a b, (a, b) ∈ idx ↔ i ≤ a ∧ reached lines a ∧ next_url lines a b.
Proof.
  revert i items. induction fuel as [|fuel IH]; intros i items Hfuel Hset.
  - exists []. simpl. rewrite app_nil_r. split; [done|]. split; [done|].
    intros a b. split; [by intros ?%elem_of_nil|].
    intros (Ha & ((l & Hl & _) & _) & _). apply lookup_lt_Some in Hl. lia.
  - simpl. destruct (lines !! i) as [line|] eqn:Hline.
    2:{ exists []. simpl. rewrite app_nil_r. split; [done|]. split; [done|].
        intros a b. split; [by intros ?%elem_of_nil|].
        intros (Ha & ((l & Hl & _) & _) & _).
        apply lookup_lt_Some in Hl. apply lookup_ge_None in Hline. lia. }
    assert (Hi : i < length lines) by (by eapply lookup_lt_Some).
    assert (Hprev : ∀ i' l', i' < i → lines !! i' = Some l' → is_extinf l' = true →
      ∃ k l, i' < k < i ∧ lines !! k = Some l ∧ skipped l = false).
    { destruct Hset as [?|?]; [lia|done]. }
    destruct (is_extinf line) eqn:Hext.
    + destruct (scan_url_spec (length lines) lines (S i)) as (Hle & Hall & Hend); [lia|].
      set (j := scan_url (length lines) lines (S i)) in *.
      assert (Hreach : reached lines i) by (split; eauto).
      assert (Hshadow : ∀ a, i < a → a ≤ j → ¬ reached lines a).
      { intros a Hia Haj [(la & Hla & Hea) Hsep].
        destruct (decide (a = j)) as [->|Hne].
        - apply Hend in Hla. apply is_extinf_skipped in Hea. congruence.
        - destruct (Hsep i line) as (k & l & Hk & Hkl & Hks); [lia|done|done|].
          rewrite (Hall k l) in Hks; [done|lia|done]. }
      destruct (lines !! j) as [url|] eqn:Hurl.
      * pose proof (Hend url eq_refl) as Hsk.
        rewrite (skipped_false_nonempty _ Hsk).
        destruct (IH (S j) (items ++ [(name_of line, url)])) as (idx & Heq & Hch & Hmem).
        { lia. }
        { right. intros i' l' Hi' Hl' He'.
          destruct (decide (i' = j)) as [->|Hne].
          - rewrite Hurl in Hl'. injection Hl' as <-.
            apply is_extinf_skipped in He'. congruence.
          - exists j, url. split; [lia|done]. }
        assert (Hnext : next_url lines i j).
        { split; [lia|]. split; [eauto|]. intros k l Hk. apply Hall. lia. }
        exists ((i, j) :: idx). split; [|split].
        -- rewrite Heq, <- app_assoc. simpl. unfold pair_at at 2. simpl.
           by rewrite Hline, Hurl.
        -- simpl. split; [lia|]. split; [lia|done].
        -- intros a b. rewrite elem_of_cons, Hmem. split.
           ++ intros [[= -> ->]|(Ha & Hr & Hn)]; [done|]. split; [lia|done].
           ++ intros (Ha & Hr & Hn).
              destruct (decide (a = i)) as [->|Hne].
              { left. f_equal. eapply next_url_unique; eauto. }
              destruct (decide (a ≤ j)) as [Haj|Haj].
              { exfalso. apply (Hshadow a); [lia|done|done]. }
              right. split; [lia|done].
      * apply lookup_ge_None in Hurl.
        destruct (IH (S j) items) as (idx & Heq & Hch & Hmem); [lia|left; lia|].
        exists idx. split; [done|]. split.
        { apply (chain_weaken (S j)); [lia|done]. }
        intros a b. rewrite Hmem. split.
        -- intros (Ha & Hr & Hn). split; [lia|done].
        -- intros (Ha & Hr & Hn). exfalso.
           destruct Hr as [(la & Hla & Hea) Hsep].
           apply lookup_lt_Some in Hla as Hlt.
           destruct (decide (a = i)) as [->|Hne].
           ++ destruct Hn as (Hib & (u & Hu & Hsu) & Hbet).
              apply lookup_lt_Some in Hu as Hblt.
              rewrite (Hall b u) in Hsu; [done|lia|done].
           ++ apply (Hshadow a); [lia|lia|]. split; eauto.
    + destruct (IH (S i) items) as (idx & Heq & Hch & Hmem); [lia| |].
      { right. intros i' l' Hi' Hl' He'.
        destruct (decide (i' = i)) as [->|Hne]; [congruence|].
        destruct (Hprev i' l') as (k & l & Hk & Hkl & Hks); [lia|done|done|].
        exists k, l. split; [lia|done]. }
      exists idx. split; [done|]. split.
      { apply (chain_weaken (S i)); [lia|done]. }
      intros a b. rewrite Hmem. split.
      * intros (Ha & Hr & Hn). split; [lia|done].
      * intros (Ha & Hr & Hn). split; [|done].
        destruct (decide (a = i)) as [->|Hne]; [|lia].
        destruct Hr as [(la & Hla & Hea) _]. congruence.
Qed.

(** The outer loop leaves through its guard, not for lack of fuel: any
    fuel that covers the lines still ahead gives the same items. *)
Lemma parse_loop_fuel f1 f2 lines i items :
  length lines - i ≤ f1 → length lines - i ≤ f2 →
  parse_loop f1 lines i items = parse_loop f2 lines i items.
Proof.
  revert f2 i items. induction f1 as [|f1 IH]; intros f2 i items H1 H2.
  - destruct f2 as [|f2]; [done|]. simpl.
    rewrite (proj2 (lookup_ge_None lines i)); [done|lia].
  - destruct f2 as [|f2]; simpl.
    + rewrite (proj2 (lookup_ge_None lines i)); [done|lia].
    + destruct (lines !! i) as [line|] eqn:Hline; [|done].
      destruct (is_extinf line).
      * pose proof (scan_url_spec (length lines) lines (S i)) as (Hle & _); [lia|].
        apply IH; lia.
      * apply IH; lia.
Qed.

(** C10 (amended). The parser walks the stripped lines in order. An
    [#EXTINF] line that is separated from every earlier [#EXTINF] line by
    a non-empty, non-comment line is paired with the first non-empty,
    non-comment line after it; the name is the text after the first
    comma of the [#EXTINF] line, or [unknown]. Such a line with no URL
    line after it gives no pair, and neither does an [#EXTINF] line that
    lies between another [#EXTINF] line and its URL. The pairs come in
    source order. *)
Theorem parse_m3u_pairs (text : string) :
  ∃ idx : list (nat * nat),
    parse_m3u text = pair_at (stripped_lines text) <$> idx
    ∧ chain 0 idx
    ∧ ∀ i j, (i, j) ∈ idx ↔
        reached (stripped_lines text) i ∧ next_url (stripped_lines text) i j.
Proof.
  unfold parse_m3u.
  destruct (parse_loop_spec (length (stripped_lines text)) (stripped_lines text) 0 [])
    as (idx & Heq & Hch & Hmem); [lia|right; intros; lia|].
  exists idx. split; [done|]. split; [done|].
  intros i j. rewrite Hmem. split; [by intros (_ & ? & ?)|].
  intros [? ?]. split; [lia|done].
Qed.

(** C10 as stated fails: of two [#EXTINF] lines in a row only the first
    one is paired with the URL that follows them. *)
Lemma parse_m3u_consecutive_extinf :
  parse_m3u two_extinf_one_url = [("A", "http://x")]
  ∧ ¬ pairs_every_extinf two_extinf_one_url.
Proof.
  split; [by vm_compute|].
  intros H. specialize (H 1 2 "#EXTINF:-1,B" "http://x").
  assert (Hin : ("B", "http://x") ∈ parse_m3u two_extinf_one_url).
  { apply H; [by vm_compute|by vm_compute| |by vm_compute].
    split; [lia|]. split; [exists "http://x"; by vm_compute|].
    intros k l Hk. lia. }
  vm_compute in Hin. apply list_elem_of_singleton in Hin. discriminate.
Qed.

End PlaylistFacts.
(** ** The probe *)

Section ProbeFacts.
Import PyStr Exc Probe.

Lemma check_ts_awaited w url t :
  wait_for_event w t = Awaited → check_ts w url t = Ok (_check w url).
Proof. intros Hw. unfold check_ts, wait_for. by rewrite Hw. Qed.

(** What [_check] returns once the process has completed. *)
Lemma _check_completed w url proc :
  subprocess_run w (ffprobe_cmd url) = Completed proc →
  (returncode proc = 0 → duration_ok (stdout proc) = true) →
  result (_check w url) = status_as_written proc.
Proof.
  intros Hrun Hdur. unfold _check, run, status_as_written. rewrite Hrun.
  cbn [mbind exc_bind bind].
  destruct (returncode proc =? 0) eqn:Hrc; cbn [negb orb]; [|done].
  apply Z.eqb_eq in Hrc. specialize (Hdur Hrc). unfold duration_ok in Hdur.
  destruct (re_search_run "width=" is_digit (stdout proc));
    destruct (re_search_run "height=" is_digit (stdout proc));
    destruct (re_search_run "duration=" is_digit_or_dot (stdout proc)) as [g|];
    cbn [mbind exc_bind bind]; unfold py_float; rewrite ?Hdur;
    cbn [mbind exc_bind bind];
    by destruct (contains "error" (stdout proc) || contains "buffer" (stdout proc)).
Qed.

(** C1 (amended). When the inspection process completes in time and the
    duration field of its report, if any, is a well-formed number, the
    status is [buffering] if the exit status is not zero or if the
    report contains [error] or [buffer] exactly as written, in lower
    case; otherwise it is [pass]. *)
Theorem check_ts_status_as_written w url t proc :
  wait_for_event w t = Awaited →
  subprocess_run w (ffprobe_cmd url) = Completed proc →
  (returncode proc = 0 → duration_ok (stdout proc) = true) →
  ∃ o, check_ts w url t = Ok o ∧ result o = status_as_written proc.
Proof.
  intros Hw Hrun Hdur. exists (_check w url).
  split; [by apply check_ts_awaited|by apply _check_completed].
Qed.

Lemma check_ts_status_as_written_witness :
  ∃ o, check_ts (answering shouting 1) "http://x" 10 = Ok o
       ∧ result o = status_as_written shouting.
Proof.
  apply (check_ts_status_as_written (answering shouting 1) "http://x" 10 shouting);
    [reflexivity|reflexivity|intros _; vm_compute; reflexivity].
Defined.

(** C1 as stated fails: a report that holds the word in upper case,
    from a process that exits with status zero, is classified [pass],
    where a comparison in any case gives [buffering]. *)
Lemma check_ts_upper_case_passes :
  ∃ o, check_ts (answering shouting 1) "http://x" 10 = Ok o
       ∧ result o = pass
       ∧ status_any_case shouting = buffering.
Proof. eexists. split; [reflexivity|]. split; by vm_compute. Qed.

(** On the event loop a probe with a timeout above zero returns what
    [_check] returns, whatever time it took; with a timeout of zero or
    below the process is not run and the outcome is the one of a
    timeout. *)
Lemma check_ts_on_event_loop ev secs url t :
  check_ts (on_event_loop ev secs) url t
  = if 0 <? t then Ok (_check (on_event_loop ev secs) url)
    else Ok {| result := error; notes := "timeout";
               resolution := None; test_duration := None |}.
Proof.
  unfold check_ts, wait_for. cbn [on_event_loop wait_for_event]. unfold loop_wait.
  by destruct (0 <? t).
Qed.

(** C3 fails on the code. A probe called with a timeout of 10 seconds
    whose process takes 12 seconds and exits with status zero is not
    given up: its outcome is [pass], with the notes of the report and
    the 12 seconds as duration. A probe whose process is still running
    after the 15 seconds that [subprocess.run] allows has the message
    of that expiry as notes, not [timeout]. *)
Lemma check_ts_overrun_is_not_a_timeout :
  (inject_Z 10 < elapsed (on_event_loop (Completed video_report) 12))%Q
  ∧ check_ts (on_event_loop (Completed video_report) 12) "http://a/1.ts" 10
    = Ok {| result := pass; notes := "[video detected]";
            resolution := Some ""; test_duration := Some 12%Q |}
  ∧ check_ts (on_event_loop (RunRaised (run_timed_out "http://a/1.ts")) 15)
      "http://a/1.ts" 10
    = Ok {| result := error;
            notes := "Command '['ffprobe', '-v', 'error', '-show_streams', '-show_format', '-i', 'http://a/1.ts']' timed out after 15 seconds";
            resolution := None; test_duration := None |}.
Proof. split; [done|]. split; by vm_compute. Qed.

End ProbeFacts.

(** ** Python strings *)

Section PyStrFacts.
Import PyStr.

Lemma append_cons c a s : String c a +:+ s = String c (a +:+ s).
Proof. reflexivity. Qed.

Lemma contains_unfold p s :
  contains p s =
  startswith s p || match s with EmptyString => false | String _ s' => contains p s' end.
Proof. by destruct s. Qed.

Lemma startswith_append p s : startswith (p +:+ s) p = true.
Proof.
  induction p as [|c p IH]; [done|].
  rewrite append_cons. cbn [startswith]. by rewrite Ascii.eqb_refl, IH.
Qed.

Lemma contains_append_r p a s : contains p s = true → contains p (a +:+ s) = true.
Proof.
  intros H. induction a as [|c a IH]; [done|].
  rewrite append_cons, contains_unfold, IH. apply orb_true_r.
Qed.

Lemma contains_prefix p s : contains p (p +:+ s) = true.
Proof. by rewrite contains_unfold, startswith_append. Qed.

Lemma contains_refl p : contains p p = true.
Proof.
  rewrite contains_unfold. replace (startswith p p) with true; [done|].
  induction p as [|c p IH]; [done|]. cbn [startswith].
  by rewrite Ascii.eqb_refl, <- IH.
Qed.

End PyStrFacts.

(** ** The fetcher *)

Section FetchFacts.
Import PyStr Exc Fetch.

Lemma fetch_loop_requests s url timeout attempts last trace :
  (requests (fetch_loop s url timeout attempts last trace).2
   ≤ requests trace + length attempts)%nat.
Proof.
  assert (Happ : ∀ t1 t2, requests (t1 ++ t2) = (requests t1 + requests t2)%nat).
  { intros t1 t2. induction t1 as [|[]]; simpl; lia. }
  revert last trace. induction attempts as [|a rest IH]; intros last trace; simpl.
  - lia.
  - destruct (attempt_once (s a url)) as [txt|e]; simpl.
    + rewrite Happ. simpl. lia.
    + etrans; [apply IH|]. rewrite !Happ. simpl. lia.
Qed.

(** An attempt whose response does not have status 200 fails. *)
Lemma attempt_once_not_200 r :
  status r ≠ 200 → ∃ e, attempt_once (Responded r) = Raise e.
Proof.
  intros Hs. unfold attempt_once.
  destruct (text_event_of r) as [txt|m]; cbn [mbind exc_bind bind].
  - apply Z.eqb_neq in Hs. rewrite Hs. cbn [negb]. eauto.
  - destruct (read_event_of r); cbn [mbind exc_bind bind]; eauto.
Qed.

(** C8. [fetch_text] makes at most three requests. After the failed
    attempt number [k] (counted from 1) it sleeps [2 * k] seconds. It
    returns the text of the first attempt that succeeds. When all three
    attempts fail it raises an exception whose message ends with the
    cause of the last failure. An attempt succeeds, with the text of
    the response, exactly when the request is answered, the body can be
    decoded and the status is 200. It fails with the exception of the
    request when [session.get] raises; with the HTTP message when the
    body can be decoded and the status is not 200; with the decoding
    message, whatever the status, when the body cannot be decoded but
    can be read; and with the exception of the read otherwise. The
    message of a decoding failure holds the status, the content type
    and the first (at most 32) bytes of the body. *)
Theorem fetch_text_retries s url timeout :
  (requests (fetch_text s url timeout).2 ≤ 3)%nat
  ∧ (∀ k txt, (k < 3)%nat →
       (∀ a, (a < k)%nat → ∃ e, attempt_once (s a url) = Raise e) →
       attempt_once (s k url) = Ok txt →
       fetch_text s url timeout
       = (Ok txt, failed_attempts url timeout k ++ [Request url timeout]))
  ∧ (∀ e0 e1 e2,
       attempt_once (s 0%nat url) = Raise e0 →
       attempt_once (s 1%nat url) = Raise e1 →
       attempt_once (s 2%nat url) = Raise e2 →
       fetch_text s url timeout
       = (Raise (PyException ("fetch_text failed after 3 attempts: " +:+ str_exn e2)),
          failed_attempts url timeout 3))
  ∧ (∀ r, status r ≠ 200 → ∃ e, attempt_once (Responded r) = Raise e)
  ∧ (∀ r m, text_event_of r = TextRaised m → ∃ e, attempt_once (Responded r) = Raise e)
  ∧ (∀ r txt, text_event_of r = TextOk txt → status r ≠ 200 →
       attempt_once (Responded r) = Raise (PyException (http_error_message r)))
  ∧ (∀ r e raw, text_event_of r = TextRaised e → read_event_of r = ReadOk raw →
       let msg := decode_error_message e r (take 32 raw) in
       attempt_once (Responded r) = Raise (PyException msg)
       ∧ contains (str_int (status r)) msg = true
       ∧ contains (content_type r) msg = true
       ∧ contains (bytes_repr (take 32 raw)) msg = true
       ∧ (length (take 32 raw) ≤ 32)%nat)
  ∧ (∀ e, attempt_once (GetRaised e) = Raise e)
  ∧ (∀ r txt, text_event_of r = TextOk txt → status r = 200 →
       attempt_once (Responded r) = Ok txt)
  ∧ (∀ r e msg, text_event_of r = TextRaised e → read_event_of r = ReadRaised msg →
       attempt_once (Responded r) = Raise (PyException msg))
  ∧ (∀ ev txt, attempt_once ev = Ok txt →
       ∃ r, ev = Responded r ∧ text_event_of r = TextOk txt ∧ status r = 200).
Proof.
  split; [|split; [|split; [|split; [|split; [|split; [|split; [|split; [|split; [|split]]]]]]]]];
    [| | | | | | |done| | |].
  - etrans; [apply fetch_loop_requests|]. simpl. lia.
  - intros k txt Hk Hfail Hok. unfold fetch_text, failed_attempts. simpl.
    destruct k as [|[|[|k]]]; [| | |lia].
    + by rewrite Hok.
    + destruct (Hfail 0%nat) as [e0 H0]; [lia|]. by rewrite H0, Hok.
    + destruct (Hfail 0%nat) as [e0 H0]; [lia|].
      destruct (Hfail 1%nat) as [e1 H1]; [lia|]. by rewrite H0, H1, Hok.
  - intros e0 e1 e2 H0 H1 H2. unfold fetch_text. simpl.
    by rewrite H0, H1, H2.
  - apply attempt_once_not_200.
  - intros r m Htxt. unfold attempt_once. rewrite Htxt.
    destruct (read_event_of r); cbn [mbind exc_bind bind]; eauto.
  - intros r txt Htxt Hs. unfold attempt_once. rewrite Htxt.
    cbn [mbind exc_bind bind]. apply Z.eqb_neq in Hs. by rewrite Hs.
  - intros r e raw Htxt Hraw msg. split; [|split; [|split; [|split]]].
    + unfold attempt_once. by rewrite Htxt, Hraw.
    + unfold msg, decode_error_message.
      do 3 apply contains_append_r. apply contains_prefix.
    + unfold msg, decode_error_message.
      do 5 apply contains_append_r. apply contains_prefix.
    + unfold msg, decode_error_message.
      do 7 apply contains_append_r. apply contains_refl.
    + rewrite length_take. lia.
  - intros r txt Htxt Hs. unfold attempt_once. rewrite Htxt.
    cbn [mbind exc_bind bind]. by rewrite Hs.
  - intros r e msg Htxt Hraw. unfold attempt_once. by rewrite Htxt, Hraw.
  - intros [r|e] txt; [|done]. unfold attempt_once.
    destruct (text_event_of r) as [t|m] eqn:Htxt; cbn [mbind exc_bind bind].
    + destruct (Z.eqb_spec (status r) 200) as [Hs|Hs]; cbn [negb]; [|done].
      intros [= <-]. by exists r.
    + by destruct (read_event_of r).
Qed.

End FetchFacts.

(** ** The orchestrators *)

Section MonitorFacts.
Import PyStr Exc Probe Monitor.
Local Open Scope nat_scope.

(** C9. On an empty channel list [run_once] returns an empty result list
    and leaves the storage as it was, so no result row is inserted; a
    second call from there does the same. *)
Theorem run_once_empty (env1 env2 : nat → world) (d : db) :
  list_channels d = [] →
  run_once env1 d = Ok ([], d)
  ∧ ∀ r1 d1, run_once env1 d = Ok (r1, d1) →
      run_once env2 d1 = Ok ([], d1) ∧ inserted d1 = inserted d.
Proof.
  intros Hempty. unfold run_once. rewrite Hempty. cbn [run_once_loop].
  split; [done|]. intros r1 d1 [= <- <-]. by rewrite Hempty.
Qed.

Lemma run_once_empty_witness :
  run_once (fun _ => answering shouting 1) empty_db = Ok ([], empty_db)
  ∧ ∀ r1 d1, run_once (fun _ => answering shouting 1) empty_db = Ok (r1, d1) →
      run_once (fun _ => answering shouting 2) d1 = Ok ([], d1)
      ∧ inserted d1 = inserted empty_db.
Proof.
  apply (run_once_empty (fun _ => answering shouting 1)
           (fun _ => answering shouting 2) empty_db).
  reflexivity.
Defined.

Lemma count_state_insert p ts i t0 t :
  ts !! i = Some t0 →
  count_state p (<[i := t]> ts) + b2n (p t0) = count_state p ts + b2n (p t).
Proof.
  unfold count_state. revert i. induction ts as [|x ts IH]; intros i Hi; [done|].
  destruct i as [|i]; simpl in *.
  - injection Hi as ->. destruct (p t0), (p t); simpl; lia.
  - specialize (IH i Hi). destruct (p x); simpl; lia.
Qed.

Lemma count_state_replicate p m t : p t = false → count_state p (replicate m t) = 0.
Proof.
  intros Hp. unfold count_state. induction m as [|m IH]; [done|].
  simpl. by rewrite Hp.
Qed.

Lemma in_flight_le_held s : in_flight s ≤ slots_held s.
Proof.
  unfold in_flight, slots_held, count_state.
  induction (tasks s) as [|t ts IH]; [done|]. destruct t; simpl; lia.
Qed.

(** Slots held plus slots free stay constant along a gated sweep. *)
Lemma step_concurrent_slots s e s' :
  step_concurrent s e = Some s' →
  slots_held s' + sem_value s' = slots_held s + sem_value s.
Proof.
  unfold slots_held.
  destruct e as [i|i|i|i|i]; cbn [step_concurrent];
    destruct (tasks s !! i) as [[]|] eqn:Hi; try discriminate;
    try (destruct (sem_value s) as [|v] eqn:Hv; try discriminate);
    intros [= <-]; cbn [set_task tasks sem_value];
    match goal with
    | |- context [count_state holds_slot (<[i := ?t]> _)] =>
        pose proof (count_state_insert holds_slot _ i _ t Hi) as Hc
    end; cbn [holds_slot b2n] in Hc; lia.
Qed.

Lemma run_concurrent_slots s es s' :
  run_events step_concurrent s es = Some s' →
  slots_held s' + sem_value s' = slots_held s + sem_value s.
Proof.
  revert s. induction es as [|e es IH]; intros s; cbn [run_events].
  - by intros [= ->].
  - destruct (step_concurrent s e) as [s1|] eqn:Hstep; [|done].
    intros Hrun. rewrite (IH _ Hrun). by eapply step_concurrent_slots.
Qed.

(** C7 (amended). In a sweep of [run_checks_concurrent] with admission
    limit [n] over [m] channels, whatever the order in which the tasks
    run, at no point are more than [n] probes in flight. The sweeps of
    [Monitor._loop] pass no admission limit. *)
Theorem concurrent_sweep_bound (n m : nat) (es : list event) (s : sweep) :
  run_events step_concurrent (start_concurrent n m) es = Some s →
  in_flight s ≤ n.
Proof.
  intros Hrun. apply run_concurrent_slots in Hrun.
  unfold start_concurrent, slots_held at 2 in Hrun. cbn [tasks sem_value] in Hrun.
  rewrite count_state_replicate in Hrun by done.
  pose proof (in_flight_le_held s). lia.
Qed.

Lemma concurrent_sweep_bound_witness :
  ∃ s, run_events step_concurrent (start_concurrent 2 3) gated_run = Some s
       ∧ in_flight s ≤ 2.
Proof.
  eexists. split; [reflexivity|].
  apply (concurrent_sweep_bound 2 3 gated_run). reflexivity.
Defined.

(** C7 as stated fails for the sweeps of [Monitor._loop]: over two
    channels both probes are in flight at once, above any limit below
    the number of channels. *)
Lemma loop_sweep_unbounded :
  ∃ s, run_events step_loop (start_loop 2) [Start 0; Start 1] = Some s
       ∧ in_flight s = 2 ∧ ¬ in_flight s ≤ 1.
Proof. eexists. split; [reflexivity|]. split; [reflexivity|]. vm_compute. lia. Qed.

End MonitorFacts.


Section LoopSweepFacts.
Import Monitor.
Local Open Scope nat_scope.

(** In a sweep of [Monitor._loop] every task can start its probe before
    any probe ends: all [m] probes are then in flight. *)
Lemma loop_sweep_all_in_flight (m : nat) :
  ∃ s, run_events step_loop (start_loop m) (Start <$> seq 0 m) = Some s
       ∧ in_flight s = m.
Proof.
  assert (Hgen : ∀ j k,
    run_events step_loop
      {| sem_value := 0; tasks := replicate k Probing ++ replicate j Created |}
      (Start <$> seq k j)
    = Some {| sem_value := 0; tasks := replicate (k + j) Probing |}).
  { induction j as [|j IH]; intros k.
    - simpl. by rewrite app_nil_r, Nat.add_0_r.
    - cbn [seq fmap list_fmap run_events step_loop tasks].
      rewrite lookup_app_r by (rewrite length_replicate; lia).
      rewrite length_replicate, Nat.sub_diag. cbn [replicate lookup list_lookup].
      unfold set_task. cbn [tasks sem_value].
      rewrite insert_app_r_alt by (rewrite length_replicate; lia).
      rewrite length_replicate, Nat.sub_diag. cbn [insert list_insert].
      replace (replicate k Probing ++ Probing :: replicate j Created)
        with (replicate (S k) Probing ++ replicate j Created).
      + rewrite (IH (S k)). do 3 f_equal. lia.
      + rewrite (replicate_S_end k). by rewrite <- app_assoc. }
  exists {| sem_value := 0; tasks := replicate m Probing |}. split.
  - apply (Hgen m 0).
  - unfold in_flight, count_state. cbn [tasks].
    induction m as [|m IH]; [done|]. simpl. by rewrite IH.
Qed.

End LoopSweepFacts.

(** ** Channel records and the probe loop *)

Section SessionFacts.
Import PyStr PyNum Exc Session.

Lemma lookup_update_record idx f s r :
  channels_json s !! idx = Some r →
  channels_json (update_record idx f s) !! idx = Some (f r).
Proof.
  intros Hr. unfold update_record; cbn [channels_json].
  by rewrite list_lookup_alter_eq, Hr.
Qed.

Lemma lookup_update_record_ne idx j f s :
  idx ≠ j →
  channels_json (update_record idx f s) !! j = channels_json s !! j.
Proof.
  intros Hne. unfold update_record; cbn [channels_json].
  by rewrite list_lookup_alter_ne.
Qed.

Lemma channels_json_write_results info s :
  channels_json (write_results info s) = channels_json s.
Proof. reflexivity. Qed.

Lemma mark_testing_ok info idx s s' :
  mark_testing info idx s = Ok s' →
  ∃ r, channels_json s !! idx = Some r
    ∧ stamps s' = stamps s ∧ durations s' = durations s
    ∧ (∀ j, j ≠ idx → channels_json s' !! j = channels_json s !! j)
    ∧ ∃ r', channels_json s' !! idx = Some r'
        ∧ name r' = name r ∧ url r' = url r
        ∧ disconnects r' = disconnects r
        ∧ buffering_events r' = buffering_events r
        ∧ disconnects_count r' = disconnects_count r
        ∧ buffering_total_seconds r' = buffering_total_seconds r.
Proof.
  unfold mark_testing. destruct (channels_json s !! idx) as [r|] eqn:Hr; [|done].
  intros [= <-]. exists r. split; [done|]. split; [done|]. split; [done|].
  split.
  - intros j Hj. rewrite channels_json_write_results.
    by apply lookup_update_record_ne.
  - eexists. split.
    + rewrite channels_json_write_results. by apply lookup_update_record.
    + done.
Qed.

(** What one turn of the periodic loop does to the record it probes,
    to the list objects, and to the other records. *)
Lemma turn_effect info idx curl t lv s r :
  channels_json s !! idx = Some r →
  let o := Periodic.probe info curl t in
  let st := Periodic.turn info idx curl t (lv, s) in
  buffer_count st.1 = buffer_count lv + b2z (Periodic.is_buffering o)
  ∧ error_count st.1 = error_count lv + b2z (Periodic.is_error o)
  ∧ stamps st.2
    = (if Periodic.is_error o
       then append_at (stamps s) (disconnects r) (Periodic.stamp t) else stamps s)
  ∧ durations st.2
    = (if Periodic.is_buffering o
       then append_at (durations s) (buffering_events r) (round2 (Periodic.buff_dur o))
       else durations s)
  ∧ (∀ j, j ≠ idx → channels_json st.2 !! j = channels_json s !! j)
  ∧ ∃ r', channels_json st.2 !! idx = Some r'
      ∧ name r' = name r ∧ url r' = url r
      ∧ disconnects r' = disconnects r
      ∧ buffering_events r' = buffering_events r
      ∧ disconnects_count r' = disconnects_count r + b2z (Periodic.is_error o)
      ∧ buffering_total_seconds r'
        = (if Periodic.is_buffering o
           then fadd (buffering_total_seconds r) (Periodic.buff_dur o)
           else buffering_total_seconds r).
Proof.
  intros Hr o st. subst st. unfold Periodic.turn. fold o.
  unfold Periodic.is_buffering, Periodic.is_error.
  destruct (Probe.result o) eqn:Hres; cbn [fst snd b2z].
  - (* pass *)
    split; [cbn; lia|]. split; [cbn; lia|]. split; [done|]. split; [done|]. split.
    { intros j Hj. unfold Periodic.set_running.
      rewrite channels_json_write_results. by apply lookup_update_record_ne. }
    eexists. split.
    { unfold Periodic.set_running. rewrite channels_json_write_results.
      by apply lookup_update_record. }
    cbn. repeat split; try done; try lia.
  - (* buffering *)
    unfold Periodic.on_buffering. rewrite Hr.
    split; [cbn; lia|]. split; [cbn; lia|]. split; [done|]. split; [done|]. split.
    { intros j Hj. unfold Periodic.set_running.
      rewrite channels_json_write_results.
      rewrite lookup_update_record_ne by done.
      by rewrite lookup_update_record_ne by done. }
    eexists. split.
    { unfold Periodic.set_running. rewrite channels_json_write_results.
      apply lookup_update_record. by apply lookup_update_record. }
    cbn. repeat split; try done; try lia.
  - (* error *)
    unfold Periodic.on_error. rewrite Hr.
    split; [cbn; lia|]. split; [cbn; lia|]. split; [done|]. split; [done|]. split.
    { intros j Hj. unfold Periodic.set_running.
      rewrite channels_json_write_results.
      rewrite lookup_update_record_ne by done.
      unfold set_heaps; cbn [channels_json].
      by rewrite lookup_update_record_ne by done. }
    eexists. split.
    { unfold Periodic.set_running. rewrite channels_json_write_results.
      apply lookup_update_record. unfold set_heaps; cbn [channels_json].
      by apply lookup_update_record. }
    cbn. repeat split; try done; try lia.
Qed.

Lemma Qsum_cons x l : Qsum (x :: l) = (x + Qsum l)%Q.
Proof. reflexivity. Qed.

Lemma Qsum_app l1 l2 : (Qsum (l1 ++ l2) == Qsum l1 + Qsum l2)%Q.
Proof.
  induction l1 as [|x l1 IH].
  - cbn [app]. change (Qsum []) with 0%Q. ring.
  - cbn [app]. rewrite !Qsum_cons, IH. ring.
Qed.

Lemma append_at_same {A} (h : loc → list A) l x : append_at h l x l = h l ++ [x].
Proof. unfold append_at. by rewrite decide_True. Qed.

Lemma append_at_other {A} (h : loc → list A) l l' x :
  l' ≠ l → append_at h l x l' = h l'.
Proof. intros Hne. unfold append_at. by rewrite decide_False. Qed.

(** What the periodic loop does, as a whole. *)
Lemma loop_effect info idx curl ticks lv s r :
  channels_json s !! idx = Some r →
  let st := Periodic.loop info idx curl ticks (lv, s) in
  let stamped := Periodic.error_stamps info curl ticks in
  let raw := Periodic.buffering_durations info curl ticks in
  buffer_count st.1 = buffer_count lv + Z.of_nat (length raw)
  ∧ error_count st.1 = error_count lv + Z.of_nat (length stamped)
  ∧ stamps st.2 (disconnects r) = stamps s (disconnects r) ++ stamped
  ∧ (∀ l, l ≠ disconnects r → stamps st.2 l = stamps s l)
  ∧ durations st.2 (buffering_events r)
    = durations s (buffering_events r) ++ (round2 <$> raw)
  ∧ (∀ l, l ≠ buffering_events r → durations st.2 l = durations s l)
  ∧ (∀ j, j ≠ idx → channels_json st.2 !! j = channels_json s !! j)
  ∧ ∃ r', channels_json st.2 !! idx = Some r'
      ∧ name r' = name r ∧ url r' = url r
      ∧ disconnects r' = disconnects r
      ∧ buffering_events r' = buffering_events r
      ∧ disconnects_count r' = disconnects_count r + Z.of_nat (length stamped)
      ∧ buffering_total_seconds r' = foldl fadd (buffering_total_seconds r) raw.
Proof.
  revert lv s r. induction ticks as [|t rest IH]; intros lv s r Hr.
  - cbn. rewrite !app_nil_r. repeat split; try done; try lia.
    exists r. repeat split; try done; try lia.
  - unfold Periodic.error_stamps, Periodic.buffering_durations.
    cbn [Periodic.loop Periodic.made].
    destruct (Qle_bool (inject_Z (duration_seconds info)) (Periodic.at_head t)).
    { cbn. rewrite !app_nil_r. repeat split; try done; try lia.
      exists r. repeat split; try done; try lia. }
    pose proof (turn_effect info idx curl t lv s r Hr) as Hturn.
    cbv zeta in Hturn.
    destruct (Periodic.turn info idx curl t (lv, s)) as [lv1 s1].
    cbn [fst snd] in Hturn.
    destruct Hturn as (Hb & He & Hst & Hdu & Hoth & r1 & Hr1 & Hn1 & Hu1 & Hd1 & Hbe1 & Hc1 & Ht1).
    specialize (IH lv1 s1 r1 Hr1). cbv zeta in IH.
    fold (Periodic.error_stamps info curl rest) in *.
    fold (Periodic.buffering_durations info curl rest) in *.
    destruct IH as (Hb' & He' & Hst' & Hsto' & Hdu' & Hduo' & Hoth' & r2 & Hr2 & Hn2 & Hu2 & Hd2 & Hbe2 & Hc2 & Ht2).
    rewrite Hd1 in Hst', Hsto'. rewrite Hbe1 in Hdu', Hduo'.
    cbn [omap list_omap].
    set (o := Periodic.probe info curl t) in *.
    fold (Periodic.error_stamps info curl rest).
    fold (Periodic.buffering_durations info curl rest).
    split; [|split; [|split; [|split; [|split; [|split; [|split]]]]]].
    + rewrite Hb', Hb. destruct (Periodic.is_buffering o); cbn; lia.
    + rewrite He', He. destruct (Periodic.is_error o); cbn; lia.
    + rewrite Hst', Hst. destruct (Periodic.is_error o); [|done].
      by rewrite append_at_same, <- app_assoc.
    + intros l Hl. rewrite Hsto', Hst by done.
      destruct (Periodic.is_error o); [|done]. by apply append_at_other.
    + rewrite Hdu', Hdu. destruct (Periodic.is_buffering o); [|done].
      by rewrite append_at_same, <- app_assoc.
    + intros l Hl. rewrite Hduo', Hdu by done.
      destruct (Periodic.is_buffering o); [|done]. by apply append_at_other.
    + intros j Hj. by rewrite Hoth', Hoth.
    + exists r2. split; [done|]. split; [congruence|]. split; [congruence|].
      split; [congruence|]. split; [congruence|]. split.
      * rewrite Hc2, Hc1. destruct (Periodic.is_error o); cbn; lia.
      * rewrite Ht2, Ht1. by destruct (Periodic.is_buffering o).
Qed.

Lemma finalize_effect info idx keep lv fe s r :
  channels_json s !! idx = Some r →
  let s' := finalize info idx keep lv fe s in
  stamps s' = stamps s ∧ durations s' = durations s
  ∧ (∀ j, j ≠ idx → channels_json s' !! j = channels_json s !! j)
  ∧ ∃ r', channels_json s' !! idx = Some r'
      ∧ status r' = (if (buffer_count lv =? 0) && (error_count lv =? 0) then Pass else Issue)
      ∧ issues_buffering r' = buffer_count lv
      ∧ issues_errors r' = error_count lv
      ∧ name r' = name r ∧ url r' = url r
      ∧ disconnects r' = disconnects r
      ∧ buffering_events r' = buffering_events r
      ∧ disconnects_count r' = disconnects_count r
      ∧ buffering_total_seconds r' = round2 (buffering_total_seconds r).
Proof.
  intros Hr. cbv zeta. unfold finalize. split; [done|]. split; [done|]. split.
  - intros j Hj. rewrite channels_json_write_results.
    by apply lookup_update_record_ne.
  - eexists. split.
    + rewrite channels_json_write_results. by apply lookup_update_record.
    + done.
Qed.

(** The effect of one periodic window on the record it probes, on the
    list objects and on the other records. *)
Lemma periodic_window info idx c ticks fe s res s' :
  Periodic.probe_channel info idx c ticks fe s = Ok (res, s') →
  let stamped := Periodic.error_stamps info c.2 ticks in
  let raw := Periodic.buffering_durations info c.2 ticks in
  ∃ r r', channels_json s !! idx = Some r ∧ channels_json s' !! idx = Some r'
    ∧ status r' = (if (Z.of_nat (length raw) =? 0) && (Z.of_nat (length stamped) =? 0)
                   then Pass else Issue)
    ∧ res_result res = status r'
    ∧ issues_buffering r' = Z.of_nat (length raw)
    ∧ issues_errors r' = Z.of_nat (length stamped)
    ∧ name r' = name r ∧ url r' = url r
    ∧ disconnects r' = disconnects r
    ∧ buffering_events r' = buffering_events r
    ∧ disconnects_count r' = disconnects_count r + Z.of_nat (length stamped)
    ∧ stamps s' (disconnects r) = stamps s (disconnects r) ++ stamped
    ∧ (∀ l, l ≠ disconnects r → stamps s' l = stamps s l)
    ∧ durations s' (buffering_events r)
      = durations s (buffering_events r) ++ (round2 <$> raw)
    ∧ (∀ l, l ≠ buffering_events r → durations s' l = durations s l)
    ∧ buffering_total_seconds r'
      = round2 (foldl fadd (buffering_total_seconds r) raw)
    ∧ (∀ j, j ≠ idx → channels_json s' !! j = channels_json s !! j).
Proof.
  destruct c as [[cid cname] curl]. unfold Periodic.probe_channel.
  destruct (mark_testing info idx s) as [s1|e] eqn:Hmark; [|done].
  cbn [mbind exc_bind bind snd].
  apply mark_testing_ok in Hmark
    as (r & Hr & Hst1 & Hdu1 & Hoth1 & r1 & Hr1 & Hn1 & Hu1 & Hd1 & Hbe1 & Hc1 & Ht1).
  pose proof (loop_effect info idx curl ticks initial_locals s1 r1 Hr1) as Hloop.
  cbv zeta in Hloop.
  destruct (Periodic.loop info idx curl ticks (initial_locals, s1)) as [lv s2].
  cbn [fst snd] in Hloop.
  destruct Hloop as (Hb & He & Hst2 & Hsto2 & Hdu2 & Hduo2 & Hoth2 & r2 & Hr2 & Hn2 & Hu2 & Hd2 & Hbe2 & Hc2 & Ht2).
  pose proof (finalize_effect info idx true lv fe s2 r2 Hr2) as Hfin.
  cbv zeta in Hfin.
  destruct Hfin as (Hst3 & Hdu3 & Hoth3 & r3 & Hr3 & Hs3 & Hib3 & Hie3 & Hn3 & Hu3 & Hd3 & Hbe3 & Hc3 & Ht3).
  intros [= <- <-]. cbn [initial_locals buffer_count error_count] in Hb, He.
  rewrite Z.add_0_l in Hb, He.
  exists r, r3. split; [done|]. split; [done|].
  split; [by rewrite Hs3, Hb, He|].
  split; [cbn [res_result]; by rewrite Hs3|].
  split; [congruence|]. split; [congruence|].
  split; [congruence|]. split; [congruence|].
  split; [congruence|]. split; [congruence|].
  split; [rewrite Hc3, Hc2, Hc1; done|].
  split; [by rewrite Hst3, <- Hd1, Hst2, Hst1|].
  split; [intros l Hl; rewrite Hst3, Hsto2, Hst1; congruence|].
  split; [by rewrite Hdu3, <- Hbe1, Hdu2, Hdu1|].
  split; [intros l Hl; rewrite Hdu3, Hduo2, Hdu1; congruence|].
  split.
  - by rewrite Ht3, Ht2, Ht1.
  - intros j Hj. by rewrite Hoth3, Hoth2, Hoth1.
Qed.

Lemma same_accumulators_trans r1 r2 r3 :
  same_accumulators r1 r2 → same_accumulators r2 r3 → same_accumulators r1 r3.
Proof. unfold same_accumulators. intuition congruence. Qed.

Lemma read_stderr_counts line lv :
  buffer_count (Continuous.read_stderr line lv)
  = buffer_count lv + b2z (Continuous.is_buffer_line line)
  ∧ error_count (Continuous.read_stderr line lv)
    = error_count lv + b2z (Continuous.is_error_line line).
Proof.
  unfold Continuous.read_stderr, Continuous.is_buffer_line, Continuous.is_error_line.
  destruct (contains "error" (lower (strip line)) || contains "failed" (lower (strip line)));
    destruct (contains "buffer" (lower (strip line))); cbn; lia.
Qed.

Lemma read_stdout_counts line ws lv :
  buffer_count (Continuous.read_stdout line ws lv).2 = buffer_count lv
  ∧ error_count (Continuous.read_stdout line ws lv).2 = error_count lv.
Proof.
  unfold Continuous.read_stdout.
  repeat match goal with
         | |- context [match ?x with _ => _ end] => destruct x; cbn
         end; done.
Qed.

(** What the events of a continuous window do. *)
Lemma serve_all_effect info idx events ws lv s r :
  channels_json s !! idx = Some r →
  let st := foldl (fun st e => Continuous.serve info idx e st) (ws, lv, s) events in
  buffer_count st.1.2 = buffer_count lv + Z.of_nat (Continuous.buffer_lines events)
  ∧ error_count st.1.2 = error_count lv + Z.of_nat (Continuous.error_lines events)
  ∧ stamps st.2 = stamps s ∧ durations st.2 = durations s
  ∧ (∀ j, j ≠ idx → channels_json st.2 !! j = channels_json s !! j)
  ∧ ∃ r', channels_json st.2 !! idx = Some r' ∧ same_accumulators r r'.
Proof.
  revert ws lv s r. induction events as [|e events IH]; intros ws lv s r Hr.
  - cbn. repeat split; try lia. exists r. by repeat split.
  - cbn [foldl]. unfold Continuous.buffer_lines, Continuous.error_lines,
      Continuous.stderr_lines. cbn [omap list_omap].
    fold (Continuous.stderr_lines events).
    destruct e as [line|line|now]; cbn [Continuous.serve].
    + pose proof (read_stdout_counts line ws lv) as [Hb He].
      destruct (Continuous.read_stdout line ws lv) as [ws1 lv1]. cbn [snd] in Hb, He.
      destruct (IH ws1 lv1 s r Hr) as (Hb' & He' & Hrest). cbv zeta.
      split; [rewrite Hb', Hb; done|]. split; [rewrite He', He; done|]. done.
    + pose proof (read_stderr_counts line lv) as [Hb He].
      destruct (IH ws (Continuous.read_stderr line lv) s r Hr) as (Hb' & He' & Hrest).
      cbv zeta. cbn [List.filter].
      split; [rewrite Hb', Hb; unfold Continuous.buffer_lines;
              destruct (Continuous.is_buffer_line line); cbn; lia|].
      split; [rewrite He', He; unfold Continuous.error_lines;
              destruct (Continuous.is_error_line line); cbn; lia|].
      done.
    + assert (Hr1 : ∃ r1, channels_json (Continuous.update_progress info idx now lv s) !! idx
                          = Some r1 ∧ same_accumulators r r1).
      { eexists. split.
        - unfold Continuous.update_progress. rewrite channels_json_write_results.
          by apply lookup_update_record.
        - by repeat split. }
      destruct Hr1 as (r1 & Hr1 & Hsame1).
      destruct (IH ws lv _ r1 Hr1) as (Hb' & He' & Hst & Hdu & Hoth & r2 & Hr2 & Hsame2).
      cbv zeta. split; [done|]. split; [done|]. split; [done|]. split; [done|].
      split.
      * intros j Hj. rewrite Hoth by done.
        unfold Continuous.update_progress. rewrite channels_json_write_results.
        by apply lookup_update_record_ne.
      * exists r2. split; [done|]. by eapply same_accumulators_trans.
Qed.

Lemma seed_counts info curl w0 :
  buffer_count (Continuous.seed info curl w0) = 0
  ∧ error_count (Continuous.seed info curl w0) = 0.
Proof. unfold Continuous.seed. by destruct (Probe.check_ts _ _ _). Qed.

(** The effect of one continuous window. *)
Lemma continuous_window info idx c w0 sp events fe s res s' :
  Continuous.probe_channel info idx c w0 sp events fe s = Ok (res, s') →
  ∃ r r', channels_json s !! idx = Some r ∧ channels_json s' !! idx = Some r'
    ∧ status r' = (if (Z.of_nat (Continuous.buffer_lines events) =? 0)
                      && (Z.of_nat (Continuous.error_lines events) =? 0)
                   then Pass else Issue)
    ∧ res_result res = status r'
    ∧ issues_buffering r' = Z.of_nat (Continuous.buffer_lines events)
    ∧ issues_errors r' = Z.of_nat (Continuous.error_lines events)
    ∧ name r' = name r ∧ url r' = url r
    ∧ disconnects r' = disconnects r
    ∧ buffering_events r' = buffering_events r
    ∧ disconnects_count r' = disconnects_count r
    ∧ stamps s' = stamps s ∧ durations s' = durations s
    ∧ buffering_total_seconds r' = round2 (buffering_total_seconds r)
    ∧ (∀ j, j ≠ idx → channels_json s' !! j = channels_json s !! j).
Proof.
  destruct c as [[cid cname] curl]. unfold Continuous.probe_channel.
  destruct (mark_testing info idx s) as [s1|e] eqn:Hmark; [|done].
  cbn [mbind exc_bind bind]. destruct sp as [msg|]; [done|].
  apply mark_testing_ok in Hmark
    as (r & Hr & Hst1 & Hdu1 & Hoth1 & r1 & Hr1 & Hn1 & Hu1 & Hd1 & Hbe1 & Hc1 & Ht1).
  pose proof (seed_counts info curl w0) as [Hsb Hse].
  pose proof (serve_all_effect info idx events
                {| Continuous.last_width := None; Continuous.last_height := None |}
                (Continuous.seed info curl w0) s1 r1 Hr1) as Hev.
  cbv zeta in Hev.
  destruct (foldl _ _ events) as [[ws lv] s2]. cbn [fst snd] in Hev.
  destruct Hev as (Hb & He & Hst2 & Hdu2 & Hoth2 & r2 & Hr2 & Hn2 & Hu2 & Hd2 & Hbe2 & Hc2 & Ht2).
  rewrite Hsb, Z.add_0_l in Hb. rewrite Hse, Z.add_0_l in He.
  pose proof (finalize_effect info idx false lv fe s2 r2 Hr2) as Hfin.
  cbv zeta in Hfin.
  destruct Hfin as (Hst3 & Hdu3 & Hoth3 & r3 & Hr3 & Hs3 & Hib3 & Hie3 & Hn3 & Hu3 & Hd3 & Hbe3 & Hc3 & Ht3).
  intros [= <- <-].
  exists r, r3. split; [done|]. split; [done|].
  split; [by rewrite Hs3, Hb, He|].
  split; [cbn [res_result]; by rewrite Hs3|].
  split; [congruence|]. split; [congruence|].
  split; [congruence|]. split; [congruence|].
  split; [congruence|]. split; [congruence|].
  split; [congruence|].
  split; [congruence|]. split; [congruence|].
  split; [congruence|].
  intros j Hj. by rewrite Hoth3, Hoth2, Hoth1.
Qed.

Lemma mark_testing_returns info idx s r :
  channels_json s !! idx = Some r → ∃ s1, mark_testing info idx s = Ok s1.
Proof. intros Hr. unfold mark_testing. rewrite Hr. eauto. Qed.

Lemma periodic_returns info idx c ticks fe s r :
  channels_json s !! idx = Some r →
  ∃ res s', Periodic.probe_channel info idx c ticks fe s = Ok (res, s').
Proof.
  intros Hr. destruct c as [[cid cname] curl]. unfold Periodic.probe_channel.
  destruct (mark_testing_returns info idx s r Hr) as [s1 ->].
  cbn [mbind exc_bind bind].
  destruct (Periodic.loop info idx curl ticks (initial_locals, s1)). eauto.
Qed.

Lemma continuous_returns info idx c w0 events fe s r :
  channels_json s !! idx = Some r →
  ∃ res s', Continuous.probe_channel info idx c w0 None events fe s = Ok (res, s').
Proof.
  intros Hr. destruct c as [[cid cname] curl]. unfold Continuous.probe_channel.
  destruct (mark_testing_returns info idx s r Hr) as [s1 ->].
  cbn [mbind exc_bind bind].
  destruct (foldl _ _ events) as [[ws lv] s2]. eauto.
Qed.

Lemma pass_iff_zero (b e : Z) (st : record_status) :
  st = (if (b =? 0) && (e =? 0) then Pass else Issue) →
  (st = Pass ↔ b = 0 ∧ e = 0) ∧ (st ≠ Pass → st = Issue).
Proof.
  intros ->. destruct (Z.eqb_spec b 0), (Z.eqb_spec e 0); cbn;
    split; try done; try (split; [done|intros []; done]).
Qed.

(** C2. For a record in range, a window of either path ends with a
    finalized record whose two counters are the numbers of buffering
    and of error occurrences observed in the window (periodic: probes
    that gave [buffering] and [error]; continuous: lines of the
    diagnostic channel counted as buffering and as errors), and whose
    status is [pass] if and only if both counters are zero, and
    [issue] otherwise. *)
Theorem finalized_status info idx c ticks w0 events fe s r :
  channels_json s !! idx = Some r →
  (∃ res s' r',
      Periodic.probe_channel info idx c ticks fe s = Ok (res, s')
      ∧ channels_json s' !! idx = Some r'
      ∧ issues_buffering r'
        = Z.of_nat (length (Periodic.buffering_durations info c.2 ticks))
      ∧ issues_errors r' = Z.of_nat (length (Periodic.error_stamps info c.2 ticks))
      ∧ (status r' = Pass ↔ issues_buffering r' = 0 ∧ issues_errors r' = 0)
      ∧ (status r' ≠ Pass → status r' = Issue)
      ∧ res_result res = status r')
  ∧ (∃ res s' r',
      Continuous.probe_channel info idx c w0 None events fe s = Ok (res, s')
      ∧ channels_json s' !! idx = Some r'
      ∧ issues_buffering r' = Z.of_nat (Continuous.buffer_lines events)
      ∧ issues_errors r' = Z.of_nat (Continuous.error_lines events)
      ∧ (status r' = Pass ↔ issues_buffering r' = 0 ∧ issues_errors r' = 0)
      ∧ (status r' ≠ Pass → status r' = Issue)
      ∧ res_result res = status r').
Proof.
  intros Hr. split.
  - destruct (periodic_returns info idx c ticks fe s r Hr) as (res & s' & Hrun).
    pose proof (periodic_window _ _ _ _ _ _ _ _ Hrun) as Hw. cbv zeta in Hw.
    destruct Hw as (r0 & r' & _ & Hr' & Hst & Hres & Hib & Hie & _).
    exists res, s', r'. split; [done|]. split; [done|]. split; [done|].
    split; [done|]. rewrite <- Hib, <- Hie in Hst.
    destruct (pass_iff_zero _ _ _ Hst). done.
  - destruct (continuous_returns info idx c w0 events fe s r Hr) as (res & s' & Hrun).
    pose proof (continuous_window _ _ _ _ _ _ _ _ _ _ Hrun) as Hw.
    destruct Hw as (r0 & r' & _ & Hr' & Hst & Hres & Hib & Hie & _).
    exists res, s', r'. split; [done|]. split; [done|]. split; [done|].
    split; [done|]. rewrite <- Hib, <- Hie in Hst.
    destruct (pass_iff_zero _ _ _ Hst). done.
Qed.

Lemma round_half_even_close q :
  (- (1 # 2) <= inject_Z (round_half_even q) - q <= 1 # 2)%Q.
Proof.
  unfold round_half_even.
  pose proof (Qfloor_le q) as Hlo. pose proof (Qlt_floor q) as Hhi.
  rewrite inject_Z_plus in Hhi. change (inject_Z 1) with 1%Q in Hhi.
  destruct (q - inject_Z (Qfloor q) ?= 1 # 2)%Q eqn:Hcmp.
  - apply Qeq_alt in Hcmp.
    destruct (Z.even (Qfloor q)); rewrite ?inject_Z_plus;
      change (inject_Z 1) with 1%Q; lra.
  - apply Qlt_alt in Hcmp. lra.
  - apply Qgt_alt in Hcmp. rewrite inject_Z_plus. change (inject_Z 1) with 1%Q. lra.
Qed.

Lemma Qnum_den q : (q * inject_Z (Zpos (Qden q)) == inject_Z (Qnum q))%Q.
Proof. destruct q as [n d]. unfold Qeq, inject_Z, Qmult. cbn. lia. Qed.

Lemma Qlog2_le q : (0 < q)%Q → (2 ^ Qlog2 q <= q)%Q.
Proof.
  intros Hq. unfold Qlog2.
  set (a := Z.log2 (Qnum q)). set (b := Z.log2 (Zpos (Qden q))).
  destruct (Qle_bool (2 ^ (a - b)) q) eqn:Hle; [by apply Qle_bool_iff|].
  assert (Hn : (0 < Qnum q)%Z).
  { destruct q as [n d]. unfold Qlt in Hq. cbn in *. lia. }
  assert (Ha : (2 ^ a <= Qnum q)%Z) by (apply Z.log2_spec; lia).
  assert (Hb : (Zpos (Qden q) < 2 ^ (b + 1))%Z).
  { unfold b. replace (Z.log2 (Z.pos (Qden q)) + 1)%Z
      with (Z.succ (Z.log2 (Z.pos (Qden q)))) by lia. apply Z.log2_spec. lia. }
  assert (Ha0 : (0 <= a)%Z) by apply Z.log2_nonneg.
  assert (Hb0 : (0 <= b)%Z) by apply Z.log2_nonneg.
  replace (a - b - 1)%Z with (a - (b + 1))%Z by lia.
  rewrite Qpower_minus by discriminate.
  assert (Hpos : (0 < 2 ^ (b + 1))%Q) by (by apply Qpower_0_lt).
  apply Qle_shift_div_r; [done|].
  rewrite <- (Zpower_Qpower 2 a) by lia.
  rewrite <- (Zpower_Qpower 2 (b + 1)) by lia.
  apply Qle_trans with (inject_Z (Qnum q)).
  { rewrite <- Zle_Qle. done. }
  rewrite <- Qnum_den.
  apply Qmult_le_l; [done|]. rewrite <- Zle_Qle. lia.
Qed.

Lemma Qabs_bound x b : (Qabs x <= b)%Q ↔ (- b <= x <= b)%Q.
Proof. apply Qabs_Qle_condition. Qed.

(** A number of magnitude up to [2 ^ 21] is moved by at most
    [2 ^ -32] when it is rounded to binary64. *)
Lemma to_float_close q :
  (Qabs q <= 2097152)%Q → (Qabs (to_float q - q) <= 1 # 4294967296)%Q.
Proof.
  intros Hq. unfold to_float.
  destruct (Qeq_bool q 0) eqn:Hz.
  { apply Qeq_bool_iff in Hz. apply Qabs_bound. lra. }
  assert (Hnz : ¬ (q == 0)%Q) by (by intros ?%Qeq_bool_iff; congruence).
  set (e := Z.max (Qlog2 (Qabs q) - 52) (-1074)).
  rewrite Qred_correct.
  assert (Habs : (0 < Qabs q)%Q).
  { destruct (Qlt_le_dec 0 (Qabs q)) as [|Hle]; [done|].
    exfalso. apply Hnz. pose proof (Qabs_nonneg q).
    apply Qabs_bound in Hle. lra. }
  assert (He : e ≤ -31).
  { assert (Qlog2 (Qabs q) ≤ 21); [|lia].
    apply (Qpower_le_compat_l_inv 2); [|done].
    apply Qle_trans with (Qabs q); [by apply Qlog2_le|done]. }
  assert (Hp : (0 < 2 ^ e)%Q) by (by apply Qpower_0_lt).
  assert (Hpe : (2 ^ e <= 1 # 2147483648)%Q).
  { change (1 # 2147483648)%Q with (2 ^ (-31))%Q. by apply Qpower_le_compat_l. }
  pose proof (round_half_even_close (q / 2 ^ e)) as Hr.
  set (m := inject_Z (round_half_even (q / 2 ^ e))) in *.
  assert (Hq' : (q == (q / 2 ^ e) * 2 ^ e)%Q).
  { field. lra. }
  set (y := (q / 2 ^ e)%Q) in *. set (P := (2 ^ e)%Q) in *.
  apply Qabs_bound.
  assert (Hgoal : (- (1 # 4294967296) <= m * P - y * P <= 1 # 4294967296)%Q)
    by (split; nra).
  lra.
Qed.

Lemma small_bound x : small x = true → (Qabs x <= 1048576)%Q.
Proof. unfold small. apply Qle_bool_iff. Qed.

Lemma fadd_close x y :
  small x = true → small y = true →
  (Qabs (fadd x y - (x + y)) <= 1 # 4294967296)%Q.
Proof.
  intros Hx%small_bound%Qabs_bound Hy%small_bound%Qabs_bound.
  apply to_float_close. apply Qabs_bound. lra.
Qed.

(** [round(x, 2)] moves a small [x] by at most half a hundredth and
    [2 ^ -32]. *)
Lemma round2_close q :
  small q = true →
  (Qabs (round2 q - q) <= (1 # 200) + (1 # 4294967296))%Q.
Proof.
  intros Hq%small_bound%Qabs_bound. unfold round2.
  pose proof (round_half_even_close (q * 100)) as H.
  set (n := inject_Z (round_half_even (q * 100))) in *.
  assert (Hdiv : (n / 100 == n * (1 # 100))%Q) by (unfold Qdiv; reflexivity).
  assert (Hc : (Qabs (to_float (n / 100) - n / 100) <= 1 # 4294967296)%Q).
  { apply to_float_close. apply Qabs_bound. lra. }
  apply Qabs_bound in Hc. apply Qabs_bound. lra.
Qed.

Lemma count_cons x l : (count (x :: l) == count l + 1)%Q.
Proof.
  unfold count. cbn [length]. rewrite Nat2Z.inj_succ. unfold Z.succ.
  rewrite inject_Z_plus. reflexivity.
Qed.

Lemma Qsum_round2_close (raw : list Q) :
  forallb small raw = true →
  (Qabs (Qsum (round2 <$> raw) - Qsum raw)
   <= count raw * ((1 # 200) + (1 # 4294967296)))%Q.
Proof.
  induction raw as [|x raw IH]; intros Hs.
  - apply Qabs_bound. change (Qsum (round2 <$> [])) with 0%Q.
    change (Qsum []) with 0%Q. change (count []) with 0%Q. lra.
  - cbn [forallb] in Hs. apply andb_prop in Hs as [Hx Hs].
    specialize (IH Hs). apply Qabs_bound in IH.
    pose proof (round2_close x Hx) as H1. apply Qabs_bound in H1.
    cbn [fmap list_fmap]. fold (fmap round2 raw). rewrite !Qsum_cons.
    apply Qabs_bound. rewrite count_cons. lra.
Qed.

(** The total after the additions, against the exact sum. *)
Lemma float_sum_close (x : Q) (raw : list Q) :
  small x = true → forallb small raw = true →
  forallb small (running x raw) = true →
  (Qabs (foldl fadd x raw - (x + Qsum raw)) <= count raw * (1 # 4294967296))%Q
  ∧ small (foldl fadd x raw) = true.
Proof.
  revert x. induction raw as [|d raw IH]; intros x Hx Hs Hr.
  - split; [|done]. apply Qabs_bound. cbn [foldl].
    change (Qsum []) with 0%Q. change (count []) with 0%Q. lra.
  - cbn [forallb running] in Hs, Hr.
    apply andb_prop in Hs as [Hd Hs]. apply andb_prop in Hr as [Hxd Hr].
    destruct (IH (fadd x d) Hxd Hs Hr) as [IH1 IH2]. apply Qabs_bound in IH1.
    pose proof (fadd_close x d Hx Hd) as H1. apply Qabs_bound in H1.
    cbn [foldl]. split; [|done].
    apply Qabs_bound. rewrite Qsum_cons, count_cons. lra.
Qed.

(** The drift between the rounded total and the sum of the rounded
    events after a window with the raw durations [raw]. *)
Lemma drift_bound (t0 : Q) (e0 raw : list Q) :
  steady t0 raw = true →
  (Qabs (round2 (foldl fadd t0 raw) - Qsum (e0 ++ (round2 <$> raw)))
   <= Qabs (t0 - Qsum e0)
      + (count raw + 1) * ((1 # 200) + (1 # 2147483648)))%Q.
Proof.
  unfold steady. intros [[Ht Hs]%andb_prop Hr]%andb_prop.
  destruct (float_sum_close t0 raw Ht Hs Hr) as [H1 Hsm]. apply Qabs_bound in H1.
  pose proof (round2_close _ Hsm) as H2. apply Qabs_bound in H2.
  pose proof (Qsum_round2_close raw Hs) as H3. apply Qabs_bound in H3.
  pose proof (Qsum_app e0 (round2 <$> raw)) as H4.
  assert (H0 : (- Qabs (t0 - Qsum e0) <= t0 - Qsum e0 <= Qabs (t0 - Qsum e0))%Q).
  { apply Qabs_bound. apply Qle_refl. }
  assert (Hc : (0 <= count raw)%Q).
  { unfold count. change 0%Q with (inject_Z 0). rewrite <- Zle_Qle. lia. }
  apply Qabs_bound. rewrite H4. split; nra.
Qed.

(** C4 (amended). After the finalize step of a window on a record in
    range: [disconnects_count] equals the length of [disconnects] if
    it did when the window started. In a periodic window
    [buffering_events] gains, for each buffering probe in turn, the
    duration of the probe rounded to two places. As long as the start
    total, the durations and the totals on the way stay within
    [2 ^ 20] seconds, [buffering_total_seconds] is the total at the
    start with these durations added to it one after the other in
    floating point, rounded to two places at the end, and it is away
    from the exact sum of the events by at most what it was at the
    start plus [0.005 + 2 ^ -31] for each buffering probe and as much
    for the final rounding. A continuous window appends nothing: the
    count and the lists stay and the total is rounded. *)
Theorem finalize_accumulators info idx c ticks w0 events fe s r :
  channels_json s !! idx = Some r →
  (∃ res s' r',
      Periodic.probe_channel info idx c ticks fe s = Ok (res, s')
      ∧ channels_json s' !! idx = Some r'
      ∧ (disconnects_count r = Z.of_nat (length (stamps s (disconnects r))) →
         disconnects_count r' = Z.of_nat (length (stamps s' (disconnects r'))))
      ∧ durations s' (buffering_events r')
        = durations s (buffering_events r)
          ++ (round2 <$> Periodic.buffering_durations info c.2 ticks)
      ∧ (steady (buffering_total_seconds r)
           (Periodic.buffering_durations info c.2 ticks) = true →
         buffering_total_seconds r'
         = round2 (foldl fadd (buffering_total_seconds r)
                     (Periodic.buffering_durations info c.2 ticks))
         ∧ (Qabs (buffering_total_seconds r' - Qsum (durations s' (buffering_events r')))
            <= Qabs (buffering_total_seconds r - Qsum (durations s (buffering_events r)))
               + (count (Periodic.buffering_durations info c.2 ticks) + 1)
                 * ((1 # 200) + (1 # 2147483648)))%Q))
  ∧ (∃ res s' r',
      Continuous.probe_channel info idx c w0 None events fe s = Ok (res, s')
      ∧ channels_json s' !! idx = Some r'
      ∧ disconnects_count r' = disconnects_count r
      ∧ stamps s' (disconnects r') = stamps s (disconnects r)
      ∧ buffering_total_seconds r' = round2 (buffering_total_seconds r)
      ∧ durations s' (buffering_events r') = durations s (buffering_events r)).
Proof.
  intros Hr. split.
  - destruct (periodic_returns info idx c ticks fe s r Hr) as (res & s' & Hrun).
    pose proof (periodic_window _ _ _ _ _ _ _ _ Hrun) as Hw. cbv zeta in Hw.
    destruct Hw as (r0 & r' & Hr0 & Hr' & _ & _ & _ & _ & _ & _ & Hd & Hbe & Hc
                    & Hst & _ & Hdu & _ & HT & _).
    assert (r0 = r) as -> by congruence.
    exists res, s', r'. split; [done|]. split; [done|]. split.
    { intros Hinv. rewrite Hc, Hd, Hst, length_app, Hinv. lia. }
    split; [by rewrite Hbe|].
    intros Hsteady. split; [done|]. rewrite Hbe, Hdu, HT. by apply drift_bound.
  - destruct (continuous_returns info idx c w0 events fe s r Hr) as (res & s' & Hrun).
    pose proof (continuous_window _ _ _ _ _ _ _ _ _ _ Hrun) as Hw.
    destruct Hw as (r0 & r' & Hr0 & Hr' & _ & _ & _ & _ & _ & _ & Hd & Hbe & Hc
                    & Hst & Hdu & Ht & _).
    assert (r0 = r) as -> by congruence.
    exists res, s', r'. split; [done|]. split; [done|]. split; [done|].
    split; [by rewrite Hd, Hst|]. split; [done|]. by rewrite Hbe, Hdu.
Qed.

(** In a periodic window one time stamp is appended to [disconnects]
    for each probe that gives [error], and nothing else is. *)
Lemma periodic_disconnects_appended info idx c ticks fe s res s' :
  Periodic.probe_channel info idx c ticks fe s = Ok (res, s') →
  ∃ r r', channels_json s !! idx = Some r ∧ channels_json s' !! idx = Some r'
    ∧ disconnects r' = disconnects r
    ∧ stamps s' (disconnects r')
      = stamps s (disconnects r) ++ Periodic.error_stamps info c.2 ticks
    ∧ issues_errors r' = Z.of_nat (length (Periodic.error_stamps info c.2 ticks))
    ∧ Z.of_nat (length (stamps s' (disconnects r')))
      = Z.of_nat (length (stamps s (disconnects r))) + issues_errors r'.
Proof.
  intros Hrun. pose proof (periodic_window _ _ _ _ _ _ _ _ Hrun) as Hw.
  cbv zeta in Hw.
  destruct Hw as (r & r' & Hr & Hr' & _ & _ & _ & Hie & _ & _ & Hd & _ & _ & Hst & _).
  exists r, r'. split; [done|]. split; [done|]. split; [done|].
  split; [by rewrite Hd|]. split; [done|].
  rewrite Hd, Hst, length_app, Hie. lia.
Qed.

End SessionFacts.

(** ** The start of an iteration *)

Section CarryOverFacts.
Import PyStr PyNum Exc Session Run Samples.

Lemma collect_previous_absent k prev (m : gmap string prev_counts) n :
  (∀ p, p ∈ prev → name p ≠ n) →
  collect_previous k prev m !! n = m !! n.
Proof.
  revert k m. induction prev as [|ch rest IH]; intros k m Hno; [done|].
  cbn [collect_previous]. rewrite IH.
  - apply lookup_insert_ne. apply Hno. by left.
  - intros p Hp. apply Hno. by right.
Qed.

(** The entry of a name is that of the last record that bears it. *)
Lemma collect_previous_last k prev (m : gmap string prev_counts) n j p :
  prev !! j = Some p → name p = n →
  (∀ j' p', (j < j')%nat → prev !! j' = Some p' → name p' ≠ n) →
  collect_previous k prev m !! n
  = Some {| prev_buffering_events := FromFile (k + j);
            prev_disconnects := FromFile (k + j);
            prev_disconnects_count := disconnects_count p;
            prev_buffering_total_seconds := buffering_total_seconds p |}.
Proof.
  revert k m j. induction prev as [|ch rest IH]; intros k m j Hj Hn Hlast; [done|].
  cbn [collect_previous]. destruct j as [|j].
  - injection Hj as ->. rewrite collect_previous_absent.
    + rewrite Hn, lookup_insert_eq. by rewrite Nat.add_0_r.
    + intros p' [i Hi]%list_elem_of_lookup. apply (Hlast (S i)); [lia|done].
  - rewrite (IH (S k) _ j); [|done|done|].
    + by replace (S k + j)%nat with (k + S j)%nat by lia.
    + intros j' p' Hlt Hp'. apply (Hlast (S j')); [lia|done].
Qed.

(** C6. At the start of an iteration whose number is above 1, the record
    built for a channel whose name is borne by a record of the previous
    [results.json] (the last one, if several bear it) takes the
    [disconnects_count], the [disconnects], the
    [buffering_total_seconds] and the [buffering_events] of that
    record; every other field has its initial value: [pending] status,
    zero counters, empty texts. *)
Theorem carry_over (chs : list Monitor.channel) dur lm it snap now i
    (c : Monitor.channel) k p :
  1 < it →
  chs !! i = Some c →
  snap_channels snap !! k = Some p →
  name p = c.1.2 →
  (∀ k' p', (k < k')%nat → snap_channels snap !! k' = Some p' → name p' ≠ c.1.2) →
  ∃ r, channels_json (start_iteration chs dur lm it (Some snap) now) !! i = Some r
    ∧ disconnects_count r = disconnects_count p
    ∧ stamps (start_iteration chs dur lm it (Some snap) now) (disconnects r)
      = disconnects p
    ∧ buffering_total_seconds r = buffering_total_seconds p
    ∧ durations (start_iteration chs dur lm it (Some snap) now) (buffering_events r)
      = buffering_events p
    ∧ name r = c.1.2 ∧ url r = c.2
    ∧ status r = Pending ∧ details r = "" ∧ resolution r = ""
    ∧ test_duration r = "" ∧ tested_seconds r = 0
    ∧ issues_buffering r = 0 ∧ issues_errors r = 0.
Proof.
  intros Hit Hc Hp Hname Hlast.
  unfold start_iteration, previous_records.
  rewrite (proj2 (Z.ltb_lt 1 it) Hit).
  pose proof (collect_previous_last 0 (snap_channels snap) ∅ (c.1.2) k p Hp Hname Hlast)
    as Hentry.
  eexists. split.
  { rewrite channels_json_write_results. cbn [channels_json].
    rewrite list_lookup_imap, Hc. reflexivity. }
  unfold build_record. rewrite Hentry.
  cbn [from_option prev_disconnects_count prev_disconnects
       prev_buffering_total_seconds prev_buffering_events
       disconnects_count disconnects buffering_total_seconds buffering_events
       name url status details resolution test_duration tested_seconds
       issues_buffering issues_errors Nat.add].
  unfold write_results; cbn [stamps durations].
  unfold loaded_stamps, loaded_durations. rewrite Hp. by cbn.
Qed.

Lemma carry_over_witness :
  ∃ r, channels_json
         (start_iteration [channel_a] 60 "infinite" 2 (Some first_snapshot) 1700000100)
       !! 0%nat = Some r
    ∧ disconnects_count r = disconnects_count after_first_iteration
    ∧ stamps (start_iteration [channel_a] 60 "infinite" 2 (Some first_snapshot) 1700000100)
        (disconnects r)
      = disconnects after_first_iteration
    ∧ buffering_total_seconds r = buffering_total_seconds after_first_iteration
    ∧ durations (start_iteration [channel_a] 60 "infinite" 2 (Some first_snapshot) 1700000100)
        (buffering_events r)
      = buffering_events after_first_iteration
    ∧ name r = channel_a.1.2 ∧ url r = channel_a.2
    ∧ status r = Pending ∧ details r = "" ∧ resolution r = ""
    ∧ test_duration r = "" ∧ tested_seconds r = 0
    ∧ issues_buffering r = 0 ∧ issues_errors r = 0.
Proof.
  apply (carry_over [channel_a] 60 "infinite" 2 first_snapshot 1700000100
           0%nat channel_a 0%nat after_first_iteration).
  - reflexivity.
  - reflexivity.
  - reflexivity.
  - reflexivity.
  - intros k' p' Hk Hp'. destruct k' as [|k']; [lia|]. simpl in Hp'. discriminate.
Defined.

(** A channel whose name no record of the previous file bears, or any
    channel of a first iteration, starts from zero with lists of its
    own. *)
Lemma no_carry_over (chs : list Monitor.channel) dur lm it file now i
    (c : Monitor.channel) :
  chs !! i = Some c →
  (∀ p, p ∈ previous_records it file → name p ≠ c.1.2) →
  channels_json (start_iteration chs dur lm it file now) !! i
  = Some (fresh_record i c)
  ∧ stamps (start_iteration chs dur lm it file now) (Fresh i) = []
  ∧ durations (start_iteration chs dur lm it file now) (Fresh i) = [].
Proof.
  intros Hc Hno. unfold start_iteration. split; [|done].
  rewrite channels_json_write_results. cbn [channels_json].
  rewrite list_lookup_imap, Hc. cbn [fmap option_fmap option_map].
  unfold build_record, fresh_record.
  rewrite (collect_previous_absent 0 _ ∅ (c.1.2) Hno), lookup_empty. done.
Qed.

(** Two channels of the same name take the same list objects from the
    previous file: the time stamps of both windows land in one list,
    which ends longer than either count. *)
Lemma same_name_shares_lists :
  ∃ out s' r0 r1,
    run_iteration [channel_a; channel_b] 60 "infinite" 2 (Some first_snapshot)
      1700000100 1700000100 failures = Ok (out, s')
    ∧ channels_json s' !! 0%nat = Some r0
    ∧ channels_json s' !! 1%nat = Some r1
    ∧ disconnects r0 = disconnects r1
    ∧ disconnects_count r1 = 3
    ∧ length (stamps s' (disconnects r1)) = 4%nat.
Proof.
  eexists _, _, _, _. split; [vm_compute; reflexivity|].
  split; [vm_compute; reflexivity|]. split; [vm_compute; reflexivity|].
  by vm_compute.
Qed.

End CarryOverFacts.

(** ** Runs that create their own records *)

Section FreshRunFacts.
Import PyStr PyNum Exc Session Run.

Lemma counts_match_window (s s' : session) i (n : nat) r r' :
  counts_match s →
  channels_json s !! i = Some r → channels_json s' !! i = Some r' →
  disconnects r' = disconnects r →
  disconnects_count r' = disconnects_count r + Z.of_nat n →
  length (stamps s' (disconnects r)) = (length (stamps s (disconnects r)) + n)%nat →
  (∀ l, l ≠ disconnects r → stamps s' l = stamps s l) →
  (∀ j, j ≠ i → channels_json s' !! j = channels_json s !! j) →
  counts_match s'.
Proof.
  intros Hinv Hr Hr' Hd Hc Hlen Hoth Hrec j rj Hj.
  destruct (Hinv i r Hr) as [Hloc Hcount].
  destruct (decide (j = i)) as [->|Hne].
  - assert (rj = r') as -> by congruence.
    split; [congruence|]. rewrite Hc, Hcount, <- Hloc, Hlen. lia.
  - rewrite Hrec in Hj by done. destruct (Hinv j rj Hj) as [Hlocj Hcountj].
    split; [done|]. rewrite Hoth; [done|]. rewrite Hloc. congruence.
Qed.

(** Probing the channels one after another keeps every count equal to
    the length of its list, after each finalize step. *)
Lemma probe_all_counts_match info mode i chs windows results s out s' :
  counts_match s →
  probe_all info mode i chs windows results s = Ok (out, s') →
  counts_match s'.
Proof.
  revert i results s. induction chs as [|ch chs IH]; intros i results s Hinv.
  - cbn. by intros [= <- <-].
  - cbn [probe_all]. destruct mode.
    + destruct (Continuous.probe_channel _ _ _ _ _ _ _ _) as [[res s1]|e] eqn:Hrun;
        [|done].
      cbn [mbind exc_bind bind]. apply IH.
      apply continuous_window in Hrun
        as (r & r' & Hr & Hr' & _ & _ & _ & _ & _ & _ & Hd & _ & Hc & Hst & _ & _ & Hoth).
      apply (counts_match_window s s1 i 0 r r'); try done.
      * rewrite Hc. lia.
      * rewrite Hst. lia.
      * intros l _. by rewrite Hst.
    + destruct (Periodic.probe_channel _ _ _ _ _ _) as [[res s1]|e] eqn:Hrun; [|done].
      cbn [mbind exc_bind bind]. apply IH.
      apply periodic_window in Hrun. cbv zeta in Hrun.
      destruct Hrun
        as (r & r' & Hr & Hr' & _ & _ & _ & _ & _ & _ & Hd & _ & Hc & Hst & Hsto & _ & _ & _ & Hoth).
      apply (counts_match_window s s1 i _ r r' Hinv Hr Hr' Hd Hc); try done.
      by rewrite Hst, length_app.
Qed.

(** In a run of [run_checks_async] that builds its own records, every
    record ends with [disconnects_count] equal to the length of its
    [disconnects] list. *)
Lemma fresh_run_counts_match chs dur mode lm it now windows out s' :
  run_checks_async chs dur mode lm it None now windows = Ok (out, s') →
  counts_match s'.
Proof.
  unfold run_checks_async. apply probe_all_counts_match.
  intros j r. rewrite channels_json_write_results.
  unfold fresh_session; cbn [channels_json]. rewrite list_lookup_imap.
  destruct (chs !! j) as [c|]; [|done]. by intros [= <-].
Qed.

End FreshRunFacts.

(** ** The windows on sample inputs *)

Section SessionExamples.
Import PyStr PyNum Exc Session Samples.

(** On a fresh record: a periodic window of five stalled probes, and a
    continuous window with one error line. *)
Lemma finalized_status_witness :
  (∃ res s' r',
      Periodic.probe_channel minute 0%nat channel_a five_stalls 60%Q solo = Ok (res, s')
      ∧ channels_json s' !! 0%nat = Some r'
      ∧ issues_buffering r'
        = Z.of_nat (length (Periodic.buffering_durations minute channel_a.2 five_stalls))
      ∧ issues_errors r' = Z.of_nat (length (Periodic.error_stamps minute channel_a.2 five_stalls))
      ∧ (status r' = Pass ↔ issues_buffering r' = 0 ∧ issues_errors r' = 0)
      ∧ (status r' ≠ Pass → status r' = Issue)
      ∧ res_result res = status r')
  ∧ (∃ res s' r',
      Continuous.probe_channel minute 0%nat channel_a healthy None one_error_line 60%Q solo = Ok (res, s')
      ∧ channels_json s' !! 0%nat = Some r'
      ∧ issues_buffering r' = Z.of_nat (Continuous.buffer_lines one_error_line)
      ∧ issues_errors r' = Z.of_nat (Continuous.error_lines one_error_line)
      ∧ (status r' = Pass ↔ issues_buffering r' = 0 ∧ issues_errors r' = 0)
      ∧ (status r' ≠ Pass → status r' = Issue)
      ∧ res_result res = status r').
Proof.
  apply (finalized_status minute 0%nat channel_a five_stalls healthy one_error_line 60%Q solo first_record).
  reflexivity.
Defined.
(** The accumulators of a fresh record after the same two windows. *)
Lemma finalize_accumulators_witness :
  (∃ res s' r',
      Periodic.probe_channel minute 0%nat channel_a five_stalls 60%Q solo = Ok (res, s')
      ∧ channels_json s' !! 0%nat = Some r'
      ∧ (disconnects_count first_record = Z.of_nat (length (stamps solo (disconnects first_record))) →
         disconnects_count r' = Z.of_nat (length (stamps s' (disconnects r'))))
      ∧ durations s' (buffering_events r')
        = durations solo (buffering_events first_record)
          ++ (round2 <$> Periodic.buffering_durations minute channel_a.2 five_stalls)
      ∧ (steady (buffering_total_seconds first_record)
           (Periodic.buffering_durations minute channel_a.2 five_stalls) = true →
         buffering_total_seconds r'
         = round2 (foldl fadd (buffering_total_seconds first_record)
                     (Periodic.buffering_durations minute channel_a.2 five_stalls))
         ∧ (Qabs (buffering_total_seconds r' - Qsum (durations s' (buffering_events r')))
            <= Qabs (buffering_total_seconds first_record
                     - Qsum (durations solo (buffering_events first_record)))
               + (count (Periodic.buffering_durations minute channel_a.2 five_stalls) + 1)
                 * ((1 # 200) + (1 # 2147483648)))%Q))
  ∧ (∃ res s' r',
      Continuous.probe_channel minute 0%nat channel_a healthy None one_error_line 60%Q solo = Ok (res, s')
      ∧ channels_json s' !! 0%nat = Some r'
      ∧ disconnects_count r' = disconnects_count first_record
      ∧ stamps s' (disconnects r') = stamps solo (disconnects first_record)
      ∧ buffering_total_seconds r' = round2 (buffering_total_seconds first_record)
      ∧ durations s' (buffering_events r') = durations solo (buffering_events first_record)).
Proof.
  apply (finalize_accumulators minute 0%nat channel_a five_stalls healthy one_error_line 60%Q solo first_record).
  reflexivity.
Defined.

(** The five stalled probes are [steady]. *)
Lemma five_stalls_steady :
  steady (buffering_total_seconds first_record)
    (Periodic.buffering_durations minute channel_a.2 five_stalls) = true.
Proof. by vm_compute. Qed.

(** C4 as stated fails: after five probes that each stall for 0.104 s
    the total is 0.52 while the events, 0.1 each, add up to 0.5. *)
Lemma five_short_stalls_drift :
  ∃ res s' r',
    Periodic.probe_channel minute 0 channel_a five_stalls 60 solo = Ok (res, s')
    ∧ channels_json s' !! 0%nat = Some r'
    ∧ buffering_total_seconds r' = to_float (52 # 100)
    ∧ durations s' (buffering_events r') = replicate 5 (to_float (10 # 100))
    ∧ ¬ (Qabs (buffering_total_seconds r' - Qsum (durations s' (buffering_events r')))
         <= 1 # 100)%Q.
Proof.
  eexists _, _, _. split; [vm_compute; reflexivity|].
  split; [vm_compute; reflexivity|]. split; [vm_compute; reflexivity|].
  split; [vm_compute; reflexivity|]. vm_compute. intros H. apply H. reflexivity.
Qed.

(** Sums and roundings are those of binary64: 0.0625 and the next
    number but one above it add up to 0.125 and not more, which rounds
    to 0.12; three probes of 0.125 s leave 0.38 against three events of
    0.12. *)
Lemma sums_are_binary64 :
  round2 (fadd (1 # 16) ((1 # 16) + (1 # 72057594037927936))) = to_float (12 # 100)
  ∧ round2 (foldl fadd 0%Q [1 # 8; 1 # 8; 1 # 8]%Q) = to_float (38 # 100)
  ∧ round2 (1 # 8) = to_float (12 # 100)
  ∧ round2 (fadd (to_float (52 # 100)) (1 # 8)) = to_float (65 # 100).
Proof. repeat split; by vm_compute. Qed.

(** C5 on the continuous path: an error line on the diagnostic channel
    is counted in [issues.errors], and nothing is appended to
    [disconnects], whose count stays zero. *)
Lemma continuous_error_not_recorded :
  ∃ res s' r',
    Continuous.probe_channel minute 0 channel_a healthy None one_error_line 60 solo
    = Ok (res, s')
    ∧ channels_json s' !! 0%nat = Some r'
    ∧ issues_errors r' = 1
    ∧ status r' = Issue
    ∧ stamps s' (disconnects r') = []
    ∧ disconnects_count r' = 0.
Proof.
  eexists _, _, _. split; [vm_compute; reflexivity|].
  split; [vm_compute; reflexivity|]. by vm_compute.
Qed.

(** The same error met by a periodic probe is recorded. *)
Lemma periodic_error_recorded :
  ∃ res s' r',
    Periodic.probe_channel minute 0 channel_a one_failure 60 solo = Ok (res, s')
    ∧ channels_json s' !! 0%nat = Some r'
    ∧ issues_errors r' = 1
    ∧ stamps s' (disconnects r') = [1700000000]
    ∧ disconnects_count r' = 1.
Proof.
  eexists _, _, _. split; [vm_compute; reflexivity|].
  split; [vm_compute; reflexivity|]. by vm_compute.
Qed.

End SessionExamples.

(** * Further properties *)

(** ** Sweeps and single passes *)

Section CollectFacts.
Import PyStr Exc Probe Monitor Collect.
Local Open Scope nat_scope.




Lemma stored_app r1 r2 : stored (r1 ++ r2) = stored r1 + stored r2.
Proof. unfold stored. by rewrite List.filter_app, length_app. Qed.

Lemma length_stored_rows results : length (omap stored_row results) = stored results.
Proof.
  unfold stored. induction results as [|r results IH]; [done|].
  cbn [omap list_omap List.filter]. unfold stored_row at 1.
  destruct (sw_id r); cbn [length]; by rewrite IH.
Qed.

Lemma _run_channel_result b store t i (c : channel) d :
  ∃ res d',
    (match _run_channel b (store i) t c d with
     | (Ok res, d') => (res, d')
     | (Raise e, d') => (failed_result e, d')
     end) = (res, d')
    ∧ task_result b store t i c res
    ∧ channel_table d' = channel_table d
    ∧ inserted d' = inserted d ++ omap stored_row [res].
Proof.
  destruct c as [[cid cname] curl]. unfold _run_channel, task_result.
  cbn [fst snd].
  destruct b as [probe|].
  - destruct (probe curl t) as [o|e] eqn:Hp.
    + destruct (store i) as [e|] eqn:Hs.
      * eexists _, d. split; [done|]. split; [|by rewrite app_nil_r].
        split; [done|]. split; [by intros p e' [= <-]; rewrite Hp|].
        split; [|by intros p o' [= <-]; rewrite Hp].
        intros p o' e' [= <-]. rewrite Hp. by intros [= <-] [= <-].
      * eexists _, _. split; [done|]. split; [|done].
        split; [done|]. split; [by intros p e' [= <-]; rewrite Hp|].
        split; [by intros p o' e' [= <-]; rewrite Hp|].
        intros p o' [= <-]. rewrite Hp. by intros [= <-] _.
    + eexists _, d. split; [done|]. split; [|by rewrite app_nil_r].
      split; [done|]. split.
      * intros p e' [= <-]. rewrite Hp. by intros [= <-].
      * split; [by intros p o e' [= <-]; rewrite Hp|].
        by intros p o [= <-]; rewrite Hp.
  - eexists _, d. split; [done|]. split; [|by rewrite app_nil_r].
    split; [done|]. by repeat split.
Qed.

Lemma collect_spec b store t channels order d acc :
  Forall (fun i => i < length channels) order →
  ∃ results d',
    collect b store t channels order d acc = (acc ++ results, d')
    ∧ length results = length order
    ∧ channel_table d' = channel_table d
    ∧ inserted d' = inserted d ++ omap stored_row results
    ∧ ∀ k i c, order !! k = Some i → channels !! i = Some c →
        ∃ res, results !! k = Some res ∧ task_result b store t i c res.
Proof.
  revert d acc. induction order as [|i order IH]; intros d acc Hin.
  - exists [], d. cbn. rewrite !app_nil_r. by repeat split.
  - apply Forall_cons in Hin as [Hi Hin]. cbn [collect].
    destruct (lookup_lt_is_Some_2 channels i Hi) as [c Hc]. rewrite Hc.
    destruct (_run_channel_result b store t i c d)
      as (res & d1 & Hrun & Hres & Htab1 & Hins1).
    assert (Hstep :
      (let (r, d0) := _run_channel b (store i) t c d in
       match r with
       | Ok res0 => collect b store t channels order d0 (acc ++ [res0])
       | Raise e => collect b store t channels order d0 (acc ++ [failed_result e])
       end) = collect b store t channels order d1 (acc ++ [res])).
    { destruct (_run_channel b (store i) t c d) as [[r0|e0] d0];
        by injection Hrun as <- <-. }
    rewrite Hstep.
    destruct (IH d1 (acc ++ [res]) Hin) as (results & d' & Hcol & Hlen & Htab & Hins & Hall).
    exists (res :: results), d'. split; [by rewrite Hcol, <- app_assoc|].
    split; [cbn; by rewrite Hlen|]. split; [congruence|]. split.
    + rewrite Hins, Hins1. cbn [omap list_omap].
      destruct (stored_row res); by rewrite <- app_assoc.
    + intros [|k] j c' Hk Hc'.
      * injection Hk as <-. exists res. split; [done|]. congruence.
      * by apply (Hall k j c').
Qed.

Lemma order_in_range (channels : list channel) order :
  order ≡ₚ seq 0 (length channels) →
  Forall (fun i => i < length channels) order ∧ length order = length channels.
Proof.
  intros Hperm. split.
  - apply Forall_forall. intros i Hi. rewrite Hperm in Hi.
    apply list_elem_of_In, in_seq in Hi. lia.
  - by rewrite Hperm, length_seq.
Qed.

(** X2. With a positive [concurrency], whatever [check_hls] is bound to
    and in whatever order the tasks end, [run_checks_concurrent]
    returns one result per channel, in the order in which the tasks
    end, and a task that fails does not stop the sweep. The result of a
    task whose lookup of [check_hls], probe or [insert_result] raises
    is the placeholder: no id, name or URL, status [error], the message
    of the exception as notes. The result of a task that ends well has
    the id, name and URL of its channel and the status and notes of its
    probe. The rows inserted are those of the results that have an id,
    with their fields and in their order, and the channel table
    stays. *)
Theorem sweep_one_result_per_channel b store (channels : list channel)
    (concurrency t : Z) (order : list nat) (d : db) :
  (0 < concurrency)%Z →
  order ≡ₚ seq 0 (length channels) →
  ∃ results d',
    run_checks_concurrent b store channels concurrency t order d
    = Some (Ok (results, d'))
    ∧ length results = length channels
    ∧ length (inserted d') = length (inserted d) + stored results
    ∧ channel_table d' = channel_table d
    ∧ inserted d' = inserted d ++ omap stored_row results
    ∧ ∀ k i c, order !! k = Some i → channels !! i = Some c →
        ∃ res, results !! k = Some res ∧ task_result b store t i c res.
Proof.
  intros Hpos [Hin Hlen]%order_in_range. unfold run_checks_concurrent.
  rewrite (proj2 (Z.ltb_ge concurrency 0)) by lia.
  rewrite (proj2 (Z.eqb_neq concurrency 0)) by lia. cbn [andb].
  destruct (collect_spec b store t channels order d [] Hin)
    as (results & d' & Hcol & Hl & Htab & Hins & Hall).
  exists results, d'. split; [by rewrite Hcol|]. split; [lia|].
  split; [by rewrite Hins, length_app, length_stored_rows|].
  split; [done|]. split; done.
Qed.

Lemma sweep_one_result_per_channel_witness :
  ∃ results d',
    run_checks_concurrent (Some sample_probe) sample_store three_channels 2 20
      [2; 0; 1] three_db
    = Some (Ok (results, d'))
    ∧ length results = length three_channels
    ∧ length (inserted d') = length (inserted three_db) + stored results
    ∧ channel_table d' = channel_table three_db
    ∧ inserted d' = inserted three_db ++ omap stored_row results
    ∧ ∀ k i c, [2; 0; 1] !! k = Some i → three_channels !! i = Some c →
        ∃ res, results !! k = Some res
          ∧ task_result (Some sample_probe) sample_store 20 i c res.
Proof.
  apply (sweep_one_result_per_channel (Some sample_probe) sample_store
           three_channels 2 20 [2; 0; 1] three_db).
  - lia.
  - vm_compute. apply (Permutation_cons_append [0; 1] 2).
Defined.

Lemma collect_unbound store t channels order d acc :
  Forall (fun i => i < length channels) order →
  collect check_hls store t channels order d acc
  = (acc ++ replicate (length order) (failed_result name_error), d).
Proof.
  revert acc. induction order as [|i order IH]; intros acc Hin.
  - cbn. by rewrite app_nil_r.
  - apply Forall_cons in Hin as [Hi Hin]. cbn [collect].
    destruct (lookup_lt_is_Some_2 channels i Hi) as [[[cid cname] curl] Hc].
    rewrite Hc. cbn [_run_channel check_hls]. rewrite IH by done.
    by rewrite <- app_assoc.
Qed.

(** X3. [worker.py] as it stands binds no name [check_hls]: with a
    positive [concurrency] every result of [run_checks_concurrent] is
    the placeholder of a failed task, whose notes are the message of
    the name error, and no row is inserted. *)
Theorem sweep_as_shipped_stores_nothing (store : nat → option exn)
    (channels : list channel) (concurrency t : Z) (order : list nat) (d : db) :
  (0 < concurrency)%Z →
  order ≡ₚ seq 0 (length channels) →
  run_checks_concurrent check_hls store channels concurrency t order d
  = Some (Ok (replicate (length channels) (failed_result name_error), d)).
Proof.
  intros Hpos [Hin Hlen]%order_in_range. unfold run_checks_concurrent.
  rewrite (proj2 (Z.ltb_ge concurrency 0)) by lia.
  rewrite (proj2 (Z.eqb_neq concurrency 0)) by lia. cbn [andb].
  rewrite collect_unbound by done. by rewrite Hlen.
Qed.

Lemma sweep_as_shipped_stores_nothing_witness :
  run_checks_concurrent check_hls sample_store three_channels 6 20 [1; 2; 0] three_db
  = Some (Ok (replicate (length three_channels) (failed_result name_error), three_db)).
Proof.
  apply (sweep_as_shipped_stores_nothing sample_store three_channels 6 20 [1; 2; 0]
           three_db).
  - lia.
  - vm_compute. symmetry. apply (Permutation_cons_append [1; 2] 0).
Defined.

End CollectFacts.

(** ** Sweeps gated by the semaphore *)

Section ProgressFacts.
Import Monitor Collect Progress.
Local Open Scope nat_scope.

Lemma sweep_slots n m es s :
  run_events step_concurrent (start_concurrent n m) es = Some s →
  slots_held s + sem_value s = n.
Proof.
  intros Hrun. apply run_concurrent_slots in Hrun. rewrite Hrun.
  unfold start_concurrent, slots_held. cbn [tasks sem_value].
  by rewrite count_state_replicate.
Qed.

Lemma all_done_no_slot s : all_done s → slots_held s = 0.
Proof.
  unfold all_done, slots_held, count_state.
  induction 1 as [|t ts Ht _ IH]; [done|]. subst t. by cbn.
Qed.

(** X4. When every task of a gated sweep has ended, whether its probe
    returned or raised, the semaphore is back at its initial value: no
    permit is lost. *)
Theorem sweep_returns_permits (n m : nat) (es : list event) (s : sweep) :
  run_events step_concurrent (start_concurrent n m) es = Some s →
  all_done s →
  sem_value s = n.
Proof.
  intros Hrun Hdone. apply sweep_slots in Hrun.
  rewrite (all_done_no_slot s Hdone) in Hrun. lia.
Qed.

Lemma sweep_returns_permits_witness :
  ∃ s, run_events step_concurrent (start_concurrent 2 3) full_run = Some s
       ∧ sem_value s = 2.
Proof.
  eexists. split; [reflexivity|].
  apply (sweep_returns_permits 2 3 full_run).
  - reflexivity.
  - unfold all_done. cbn. repeat constructor.
Defined.

Lemma holder_or_none ts :
  count_state holds_slot ts = 0
  ∨ ∃ i t, ts !! i = Some t ∧ holds_slot t = true.
Proof.
  unfold count_state. induction ts as [|t ts IH]; [by left|].
  destruct (holds_slot t) eqn:Ht.
  - right. by exists 0, t.
  - cbn. rewrite Ht. destruct IH as [?|(i & t' & Hi & Ht')]; [by left|].
    right. by exists (S i), t'.
Qed.

Lemma holder_can_move s i t :
  tasks s !! i = Some t → holds_slot t = true →
  ∃ e s', step_concurrent s e = Some s'.
Proof.
  intros Hi Ht. destruct t; try discriminate.
  - exists (ProbeReturns i). cbn. rewrite Hi. eauto.
  - exists (Stored i). cbn. rewrite Hi. eauto.
Qed.

Lemma rank_sum_insert ts i t0 t :
  ts !! i = Some t0 →
  rank_sum (<[i := t]> ts) + rank t0 = rank_sum ts + rank t.
Proof.
  revert i. induction ts as [|x ts IH]; intros i Hi; [done|].
  destruct i as [|i]; simpl in *.
  - injection Hi as ->. lia.
  - specialize (IH i Hi). lia.
Qed.

Lemma step_concurrent_rank s e s' :
  step_concurrent s e = Some s' → rank_sum (tasks s') < rank_sum (tasks s).
Proof.
  destruct e as [i|i|i|i|i]; cbn [step_concurrent];
    destruct (tasks s !! i) as [[]|] eqn:Hi; try discriminate;
    try (destruct (sem_value s) as [|v]; try discriminate);
    intros [= <-]; cbn [set_task tasks];
    match goal with
    | |- context [rank_sum (<[i := ?t]> _)] =>
        pose proof (rank_sum_insert _ i _ t Hi) as Hr
    end; cbn [rank] in Hr; lia.
Qed.

Lemma run_concurrent_rank s es s' :
  run_events step_concurrent s es = Some s' →
  rank_sum (tasks s') + length es ≤ rank_sum (tasks s).
Proof.
  revert s. induction es as [|e es IH]; intros s; cbn [run_events length].
  - intros [= ->]. lia.
  - destruct (step_concurrent s e) as [s1|] eqn:Hstep; [|done].
    intros Hrun. apply IH in Hrun. apply step_concurrent_rank in Hstep. lia.
Qed.

Lemma rank_sum_created m : rank_sum (replicate m Created) = 4 * m.
Proof. induction m as [|m IH]; [done|]. cbn [replicate rank_sum rank]. lia. Qed.

Lemma run_length_bound (n m : nat) (es : list event) (s : sweep) :
  run_events step_concurrent (start_concurrent n m) es = Some s →
  length es ≤ 4 * m.
Proof.
  intros Hrun. apply run_concurrent_rank in Hrun.
  unfold start_concurrent in Hrun. cbn [tasks] in Hrun.
  rewrite rank_sum_created in Hrun. lia.
Qed.

(** X5. A gated sweep with a positive limit always comes to its end:
    every event brings one task a stage further, so that a sweep over
    [m] channels has at most [4 * m] events, and in every state it
    reaches in which some task has not ended, some task can move. *)
Theorem sweep_never_stuck (n m : nat) (es : list event) (s : sweep) :
  0 < n →
  run_events step_concurrent (start_concurrent n m) es = Some s →
  length es ≤ 4 * m
  ∧ (¬ all_done s → ∃ e s', step_concurrent s e = Some s').
Proof.
  intros Hn Hrun. split; [by eapply run_length_bound|].
  intros Hnot. apply sweep_slots in Hrun.
  destruct (holder_or_none (tasks s)) as [Hnone|(i & t & Hi & Ht)];
    [|by eapply holder_can_move].
  unfold slots_held in Hrun. rewrite Hnone in Hrun.
  apply not_Forall_Exists in Hnot; [|intros t; apply _].
  apply Exists_exists in Hnot as (t & [i Hi]%list_elem_of_lookup & Ht).
  destruct (sem_value s) as [|v] eqn:Hv; [lia|].
  destruct t; try done.
  - exists (Start i). cbn. rewrite Hi, Hv. eauto.
  - exists (Wake i). cbn. rewrite Hi, Hv. eauto.
  - by eapply (holder_can_move s i Probing).
  - by eapply (holder_can_move s i Storing).
  - by destruct Ht.
Qed.

Lemma sweep_never_stuck_witness :
  ∃ s, run_events step_concurrent (start_concurrent 2 3) partial_run = Some s
       ∧ length partial_run ≤ 4 * 3
       ∧ (¬ all_done s → ∃ e s', step_concurrent s e = Some s').
Proof.
  eexists. split; [reflexivity|].
  apply (sweep_never_stuck 2 3 partial_run); [lia|reflexivity].
Defined.

Lemma step_closed_gate s e s' :
  sem_value s = 0 →
  Forall (fun t => t = Created ∨ t = Waiting) (tasks s) →
  step_concurrent s e = Some s' →
  sem_value s' = 0 ∧ Forall (fun t => t = Created ∨ t = Waiting) (tasks s').
Proof.
  intros Hv Hall Hstep.
  assert (Hat : ∀ i t, tasks s !! i = Some t → t = Created ∨ t = Waiting).
  { intros i t Hi. by eapply (proj1 (Forall_lookup _ _) Hall). }
  destruct e as [i|i|i|i|i]; cbn [step_concurrent] in Hstep;
    destruct (tasks s !! i) as [t|] eqn:Hi; try discriminate;
    destruct (Hat i t Hi) as [-> | ->]; try discriminate;
    rewrite Hv in Hstep; try discriminate.
  injection Hstep as <-. cbn [set_task sem_value tasks]. split; [done|].
  apply Forall_insert; [done|by right].
Qed.

(** X6. With [concurrency = 0] no task of a sweep ever starts its probe
    or ends: each one is still unstarted or waiting for the semaphore,
    whatever events have taken place. *)
Theorem closed_gate_blocks_every_task (m : nat) (es : list event) (s : sweep) :
  run_events step_concurrent (start_concurrent 0 m) es = Some s →
  sem_value s = 0 ∧ Forall (fun t => t = Created ∨ t = Waiting) (tasks s).
Proof.
  assert (Hgen : ∀ es s0 s1,
    sem_value s0 = 0 → Forall (fun t => t = Created ∨ t = Waiting) (tasks s0) →
    run_events step_concurrent s0 es = Some s1 →
    sem_value s1 = 0 ∧ Forall (fun t => t = Created ∨ t = Waiting) (tasks s1)).
  { clear. induction es as [|e es IH]; intros s0 s1 Hv Hall; cbn [run_events].
    - by intros [= <-].
    - destruct (step_concurrent s0 e) as [s'|] eqn:Hstep; [|done].
      destruct (step_closed_gate _ _ _ Hv Hall Hstep) as [Hv' Hall'].
      by apply IH. }
  apply Hgen; [done|]. unfold start_concurrent. cbn [tasks].
  apply Forall_replicate. by left.
Qed.

Lemma closed_gate_blocks_every_task_witness :
  ∃ s, run_events step_concurrent (start_concurrent 0 2) [Start 0; Start 1] = Some s
       ∧ sem_value s = 0
       ∧ Forall (fun t => t = Created ∨ t = Waiting) (tasks s).
Proof.
  eexists. split; [reflexivity|].
  apply (closed_gate_blocks_every_task 2 [Start 0; Start 1]). reflexivity.
Defined.

End ProgressFacts.

(** ** The probe and the fetchers *)

Section ProbeShapeFacts.
Import PyStr Exc Probe.

Lemma _check_shape w u :
  (result (_check w u) = error
   ∧ resolution (_check w u) = None ∧ test_duration (_check w u) = None)
  ∨ (result (_check w u) ≠ error
     ∧ (∃ res, resolution (_check w u) = Some res)
     ∧ test_duration (_check w u) = Some (elapsed w)).
Proof.
  unfold _check, run.
  destruct (subprocess_run w (ffprobe_cmd u)) as [proc|msg];
    cbn [mbind exc_bind bind]; [|by left].
  destruct (returncode proc =? 0); cbn [negb]; [|right; cbn; eauto].
  destruct (re_search_run "width=" is_digit (stdout proc));
    destruct (re_search_run "height=" is_digit (stdout proc));
    destruct (re_search_run "duration=" is_digit_or_dot (stdout proc)) as [g|];
    cbn [mbind exc_bind bind]; unfold py_float;
    try destruct (float_ok g); cbn [mbind exc_bind bind];
    try (by left);
    destruct (contains "error" (stdout proc) || contains "buffer" (stdout proc));
    right; cbn; eauto.
Qed.

(** X7. An outcome of [check_ts] has one of two shapes: status [error]
    with neither a resolution nor a duration, or status [pass] or
    [buffering] with a resolution text (possibly empty) and, as
    duration, the time that the probe took. *)
Theorem check_ts_outcome_shape w u t :
  ∃ o, check_ts w u t = Ok o
    ∧ ((result o = error ∧ resolution o = None ∧ test_duration o = None)
       ∨ (result o ≠ error
          ∧ (∃ res, resolution o = Some res)
          ∧ test_duration o = Some (elapsed w))).
Proof.
  unfold check_ts, wait_for.
  destruct (wait_for_event w t); cbn [try_except].
  - exists (_check w u). split; [done|]. apply _check_shape.
  - eexists. split; [done|]. by left.
  - eexists. split; [done|]. by left.
Qed.

End ProbeShapeFacts.

Section FetchBytesFacts.
Import PyStr Exc Fetch FetchBytes.

Lemma requests_app t1 t2 : requests (t1 ++ t2) = (requests t1 + requests t2)%nat.
Proof. induction t1 as [|[]]; simpl; lia. Qed.

Lemma fetch_bytes_loop_requests s clock u timeout attempts last trace :
  (requests (fetch_loop s clock u timeout attempts last trace).2
   ≤ requests trace + length attempts)%nat.
Proof.
  revert last trace. induction attempts as [|a rest IH]; intros last trace;
    cbn [fetch_loop]; [cbn; lia|].
  destruct (attempt_once (s a u) (clock a)) as [r|e]; cbn [snd length].
  - rewrite requests_app. cbn. lia.
  - etrans; [apply IH|]. rewrite !requests_app. cbn. lia.
Qed.

(** X8. [fetch_bytes] makes at most two requests and sleeps [2 * k]
    seconds after the failed attempt number [k]. It returns the result
    of the first attempt that succeeds, and after two failed attempts
    it raises with the cause of the second one in its message. An
    attempt succeeds exactly when the request is answered with status
    200 and the body can be read: its result is the length of the body
    with the time elapsed. It fails with the exception of the request
    when [session.get] raises, with the HTTP message, the body not
    being read, when the status is not 200, and with the exception of
    the read when the body of a response with status 200 cannot be
    read. *)
Theorem fetch_bytes_retries s clock u timeout :
  (requests (fetch_bytes s clock u timeout).2 ≤ 2)%nat
  ∧ (∀ k n, (k < 2)%nat →
       (∀ a, (a < k)%nat → ∃ e, attempt_once (s a u) (clock a) = Raise e) →
       attempt_once (s k u) (clock k) = Ok n →
       fetch_bytes s clock u timeout
       = (Ok n, failed_attempts u timeout k ++ [Request u timeout]))
  ∧ (∀ e0 e1,
       attempt_once (s 0%nat u) (clock 0%nat) = Raise e0 →
       attempt_once (s 1%nat u) (clock 1%nat) = Raise e1 →
       fetch_bytes s clock u timeout
       = (Raise (PyException ("fetch_bytes failed after 2 attempts: " +:+ str_exn e1)),
          failed_attempts u timeout 2))
  ∧ (∀ r q, status r ≠ 200 →
       attempt_once (Responded r) q = Raise (PyException (http_error_message r)))
  ∧ (∀ r q raw, status r = 200 → read_event_of r = ReadOk raw →
       attempt_once (Responded r) q = Ok (length raw, q))
  ∧ (∀ e q, attempt_once (GetRaised e) q = Raise e)
  ∧ (∀ r q msg, status r = 200 → read_event_of r = ReadRaised msg →
       attempt_once (Responded r) q = Raise (PyException msg))
  ∧ (∀ ev q n q', attempt_once ev q = Ok (n, q') →
       ∃ r raw, ev = Responded r ∧ status r = 200 ∧ read_event_of r = ReadOk raw
         ∧ n = length raw ∧ q' = q).
Proof.
  split; [|split; [|split; [|split; [|split; [|split; [|split]]]]]]; [| | | | |done| |].
  - etrans; [apply fetch_bytes_loop_requests|]. cbn. lia.
  - intros k n Hk Hfail Hok. unfold fetch_bytes, failed_attempts. simpl.
    destruct k as [|[|k]]; [| |lia].
    + by rewrite Hok.
    + destruct (Hfail 0%nat) as [e0 H0]; [lia|]. by rewrite H0, Hok.
  - intros e0 e1 H0 H1. unfold fetch_bytes. simpl. by rewrite H0, H1.
  - intros r q Hs. unfold attempt_once. apply Z.eqb_neq in Hs. by rewrite Hs.
  - intros r q raw Hs Hraw. unfold attempt_once. rewrite Hs, Hraw. done.
  - intros r q msg Hs Hraw. unfold attempt_once. rewrite Hs, Hraw. done.
  - intros [r|e] q n q'; [|done]. unfold attempt_once.
    destruct (Z.eqb_spec (status r) 200) as [Hs|Hs]; cbn [negb]; [|done].
    destruct (read_event_of r) as [raw|msg] eqn:Hraw; cbn [mbind exc_bind bind]; [|done].
    intros [= <- <-]. by exists r, raw.
Qed.

End FetchBytesFacts.

(** ** More on playlists *)

Section PlaylistCountFacts.
Import Playlist Counting.
Local Open Scope nat_scope.

Lemma count_if_drop_le {A} (p : A → bool) (l : list A) k :
  count_if p (drop k l) ≤ count_if p l.
Proof.
  revert k. induction l as [|x l IH]; intros [|k]; cbn [drop count_if]; try lia.
  specialize (IH k). lia.
Qed.

Lemma count_if_drop_mono {A} (p : A → bool) (l : list A) i j :
  i ≤ j → count_if p (drop j l) ≤ count_if p (drop i l).
Proof.
  intros Hij. replace j with (i + (j - i)) by lia.
  rewrite <- drop_drop. apply count_if_drop_le.
Qed.

Lemma count_if_drop_lookup {A} (p : A → bool) (l : list A) i x :
  l !! i = Some x →
  count_if p (drop i l) = (if p x then 1 else 0) + count_if p (drop (S i) l).
Proof. intros Hi. by rewrite (drop_S l x i Hi). Qed.

Lemma parse_loop_length fuel lines i items :
  length (parse_loop fuel lines i items)
  ≤ length items + count_if is_extinf (drop i lines)
  ∧ length (parse_loop fuel lines i items)
    ≤ length items + count_if is_url_line (drop i lines).
Proof.
  revert i items. induction fuel as [|fuel IH]; intros i items; cbn [parse_loop].
  { lia. }
  destruct (lines !! i) as [line|] eqn:Hline; [|lia].
  destruct (is_extinf line) eqn:Hext.
  - pose proof (scan_url_spec (length lines) lines (S i)) as (Hle & _ & Hend);
      [lia|].
    set (j := scan_url (length lines) lines (S i)) in *.
    rewrite (count_if_drop_lookup is_extinf lines i line Hline), Hext.
    pose proof (count_if_drop_mono is_extinf lines (S i) (S j)) as Hm1.
    pose proof (count_if_drop_mono is_url_line lines i j) as Hm2.
    destruct (lines !! j) as [u|] eqn:Hu.
    + rewrite (count_if_drop_lookup is_url_line lines j u Hu) in Hm2.
      unfold is_url_line in Hm2 at 1. rewrite (Hend u eq_refl) in Hm2.
      cbn [negb] in Hm2.
      destruct (PyStr.is_empty u);
        [destruct (IH (S j) items) as [H1 H2]
        |destruct (IH (S j) (items ++ [(name_of line, u)])) as [H1 H2];
         rewrite length_app in H1, H2; cbn [length] in H1, H2]; lia.
    + destruct (IH (S j) items) as [H1 H2].
      pose proof (count_if_drop_mono is_url_line lines i (S j)). lia.
  - destruct (IH (S i) items) as [H1 H2].
    rewrite (count_if_drop_lookup is_extinf lines i line Hline), Hext.
    pose proof (count_if_drop_mono is_url_line lines i (S i)). lia.
Qed.

(** X9. [parse_m3u] returns at most one pair per [#EXTINF] line and
    at most one pair per non-empty, non-comment line of the text; a
    text with no [#EXTINF] line, and a text with nothing but comments
    and empty lines, give no pair. *)
Theorem parse_m3u_count (text : string) :
  length (parse_m3u text) ≤ count_if is_extinf (stripped_lines text)
  ∧ length (parse_m3u text) ≤ count_if is_url_line (stripped_lines text)
  ∧ (count_if is_extinf (stripped_lines text) = 0 → parse_m3u text = [])
  ∧ (count_if is_url_line (stripped_lines text) = 0 → parse_m3u text = []).
Proof.
  unfold parse_m3u.
  destruct (parse_loop_length (length (stripped_lines text)) (stripped_lines text) 0 [])
    as [H1 H2].
  rewrite drop_0 in H1, H2. cbn [length] in H1, H2.
  split; [lia|]. split; [lia|].
  split; intros H0; apply nil_length_inv; lia.
Qed.

End PlaylistCountFacts.

(** ** The runner thread *)

Section RunnerFacts.
Import PyStr Exc Runner RunnerSamples.
Local Open Scope nat_scope.

Lemma skipped_agree raw l i :
  comments_flush raw → raw !! i = Some l →
  Runner.skipped l = Playlist.skipped (strip l).
Proof.
  intros Hflush Hl. unfold Runner.skipped, Playlist.skipped.
  by rewrite (proj1 (Forall_lookup _ _) Hflush i l Hl).
Qed.

Lemma scan_url_agree fuel raw j :
  comments_flush raw →
  Runner.scan_url fuel raw j = Playlist.scan_url fuel (strip <$> raw) j.
Proof.
  intros Hflush. revert j. induction fuel as [|fuel IH]; intros j; [done|].
  cbn [Runner.scan_url Playlist.scan_url]. rewrite list_lookup_fmap.
  destruct (raw !! j) as [l|] eqn:Hl; [|done]. cbn [fmap option_fmap option_map].
  rewrite (skipped_agree raw l j Hflush Hl), IH. done.
Qed.

Lemma name_of_agree line u :
  same_entry (Runner.name_of line, u) (Playlist.name_of line, u).
Proof.
  unfold same_entry, Runner.name_of, Playlist.name_of. cbn [fst snd].
  split; [done|]. destruct (contains "," line); [by left|by right].
Qed.

Lemma parse_loop_agree fuel raw i items1 items2 :
  comments_flush raw →
  Forall2 same_entry items1 items2 →
  Forall2 same_entry (Runner.parse_loop fuel raw i items1)
    (Playlist.parse_loop fuel (strip <$> raw) i items2).
Proof.
  intros Hflush. revert i items1 items2.
  induction fuel as [|fuel IH]; intros i items1 items2 Hitems; [done|].
  cbn [Runner.parse_loop Playlist.parse_loop]. rewrite list_lookup_fmap.
  destruct (raw !! i) as [l|] eqn:Hl; [|done]. cbn [fmap option_fmap option_map].
  destruct (Playlist.is_extinf (strip l)); [|by apply IH].
  rewrite length_fmap, <- scan_url_agree by done.
  rewrite list_lookup_fmap.
  destruct (raw !! Runner.scan_url (length raw) raw (S i)) as [u|];
    cbn [fmap option_fmap option_map]; [|by apply IH].
  destruct (is_empty (strip u)); [by apply IH|].
  apply IH. apply Forall2_app; [done|].
  constructor; [apply name_of_agree|constructor].
Qed.

(** X10. On a list of lines none of which is a comment that starts with
    white space, the playlist scan written out in [tests_runner] and
    the loop of [parse_m3u] on the stripped lines find the same URLs,
    in the same order, with the same names, but that an [#EXTINF] line
    without a comma is named [Unknown Channel] by the first and
    [unknown] by the second. *)
Theorem runner_scan_agrees (raw : list string) :
  comments_flush raw →
  Forall2 same_entry (Runner.parse_lines raw)
    (Playlist.parse_loop (length (strip <$> raw)) (strip <$> raw) 0 []).
Proof.
  intros Hflush. unfold Runner.parse_lines. rewrite length_fmap.
  by apply parse_loop_agree.
Qed.

Lemma runner_scan_agrees_witness :
  Forall2 same_entry (Runner.parse_lines raw_lines)
    (Playlist.parse_loop (length (strip <$> raw_lines)) (strip <$> raw_lines) 0 []).
Proof.
  apply (runner_scan_agrees raw_lines).
  unfold comments_flush, raw_lines. repeat constructor.
Defined.

Lemma iterate_numbers {St : Type} fuel (run : Z → St → exc St) mode max cur s acc :
  iterations_of (iterate fuel run mode max cur s acc)
  = acc ++ seqZ (cur + 1)
             (Z.of_nat (length (iterations_of (iterate fuel run mode max cur s acc))
                        - length acc)).
Proof.
  revert cur s acc. induction fuel as [|fuel IH]; intros cur s acc.
  - cbn. rewrite Nat.sub_diag. cbn. by rewrite app_nil_r.
  - cbn [iterate].
    assert (Hone : (acc ++ [(cur + 1)%Z]) = acc ++ seqZ (cur + 1) 1) by done.
    destruct (run (cur + 1)%Z s) as [s1|e]; cbn [iterations_of].
    2:{ rewrite length_app. cbn [length].
        replace (length acc + 1 - length acc) with 1 by lia. done. }
    destruct (String.eqb mode "single").
    { cbn [iterations_of]. rewrite length_app. cbn [length].
      replace (length acc + 1 - length acc) with 1 by lia. done. }
    destruct (String.eqb mode "loop-times" && (max <=? cur + 1)%Z).
    { cbn [iterations_of]. rewrite length_app. cbn [length].
      replace (length acc + 1 - length acc) with 1 by lia. done. }
    rewrite IH at 1. rewrite <- app_assoc. f_equal.
    set (n := length (iterations_of _)).
    assert (Hn : length acc + 1 ≤ n).
    { unfold n. rewrite IH, !length_app. cbn [length]. lia. }
    rewrite length_app. cbn [length app].
    replace (Z.of_nat (n - length acc)) with (Z.of_nat (S (n - (length acc + 1)))) by lia.
    rewrite Nat2Z.inj_succ.
    rewrite (seqZ_cons (cur + 1)) by lia.
    by rewrite Z.pred_succ.
Qed.

Lemma iterate_loop_times {St : Type} fuel (f : Z → St → St) max cur s acc :
  (cur < max)%Z → (Z.to_nat (max - cur) ≤ fuel) →
  iterate fuel (fun k s => Ok (f k s)) "loop-times" max cur s acc
  = Finished (foldl (fun s k => f k s) s (seqZ (cur + 1) (max - cur)))
      (acc ++ seqZ (cur + 1) (max - cur)).
Proof.
  revert cur s acc. induction fuel as [|fuel IH]; intros cur s acc Hlt Hfuel.
  { lia. }
  cbn [iterate]. change (String.eqb "loop-times" "single") with false.
  change (String.eqb "loop-times" "loop-times") with true. cbn [andb].
  rewrite (seqZ_cons (cur + 1) (max - cur)) by lia. cbn [foldl].
  destruct (Z.leb_spec max (cur + 1)) as [Hend|Hmore].
  - replace (Z.pred (max - cur)) with 0%Z by lia. done.
  - rewrite IH by lia. rewrite <- app_assoc.
    by replace (Z.pred (max - cur)) with (max - (cur + 1))%Z by lia.
Qed.

Lemma iterate_forever {St : Type} fuel (f : Z → St → St) mode max cur s acc :
  mode ≠ "single" → mode ≠ "loop-times" →
  iterate fuel (fun k s => Ok (f k s)) mode max cur s acc
  = StillLooping (foldl (fun s k => f k s) s (seqZ (cur + 1) (Z.of_nat fuel)))
      (acc ++ seqZ (cur + 1) (Z.of_nat fuel)).
Proof.
  intros H1%String.eqb_neq H2%String.eqb_neq.
  revert cur s acc. induction fuel as [|fuel IH]; intros cur s acc.
  { cbn. by rewrite app_nil_r. }
  cbn [iterate]. rewrite H1, H2. cbn [andb].
  rewrite IH, <- app_assoc.
  rewrite (seqZ_cons (cur + 1) (Z.of_nat (S fuel))) by lia. cbn [foldl app].
  by replace (Z.pred (Z.of_nat (S fuel))) with (Z.of_nat fuel) by lia.
Qed.

Lemma iterate_ext {St : Type} fuel (run1 run2 : Z → St → exc St) mode max cur s acc :
  (∀ k s', run1 k s' = run2 k s') →
  iterate fuel run1 mode max cur s acc = iterate fuel run2 mode max cur s acc.
Proof.
  intros Hext. revert cur s acc. induction fuel as [|fuel IH]; intros cur s acc; [done|].
  cbn [iterate]. rewrite Hext. destruct (run2 (cur + 1)%Z s) as [s1|e]; [|done].
  destruct (String.eqb mode "single"); [done|].
  destruct (String.eqb mode "loop-times" && (max <=? cur + 1)%Z); [done|]. apply IH.
Qed.

(** X11. Started on anything that is not a file, a URL for one,
    [tests_runner] reads its local [loop_iterations] before any
    assignment to it has run: it ends with that error and
    [prepare_and_run] is never called. Started on a file, it returns
    without an iteration when the selector gives no channel. Otherwise
    its iterations are numbered 1, 2, 3, ... with no gap, whatever
    happens in them, and when each one succeeds: in [single] mode there
    is one iteration; in [loop-times] mode there are exactly [n] of
    them for a positive count [n], and one for a count that is missing,
    zero or negative; in any other mode, [infinite] among them, the
    loop does not end. *)
Theorem runner_iterations {St : Type} (remove_results : St → St)
    (gui : list (string * string) → selection)
    (write_selection : list (string * string) → St → St)
    (run : Z → string → Z → St → exc St) (f : Z → St → St)
    (lines : list string) (s : St) (fuel : nat) :
  let result := gui (Runner.parse_lines lines) in
  let mode := sel_loop_mode result in
  let count := sel_loop_iterations result in
  tests_runner fuel NotAFile remove_results gui write_selection run s
  = Crashed (unbound_local "loop_iterations")
  ∧ (selected result = None ∨ selected result = Some [] →
     tests_runner fuel (LocalFile lines) remove_results gui write_selection run s
     = NothingSelected)
  ∧ (∀ chosen, selected result = Some chosen → chosen ≠ [] →
     gui_duration result = None →
     tests_runner fuel (LocalFile lines) remove_results gui write_selection run s
     = Crashed (unbound_local "duration_seconds"))
  ∧ ∀ chosen d, selected result = Some chosen → chosen ≠ [] →
      gui_duration result = Some d →
      let s0 := write_selection chosen (remove_results s) in
      ∃ r, tests_runner fuel (LocalFile lines) remove_results gui write_selection run s
           = Looped r
        ∧ iterations_of r = seqZ 1 (Z.of_nat (length (iterations_of r)))
        ∧ ((∀ k s', run d mode k s' = Ok (f k s')) →
           (mode = "single" → 0 < fuel → r = Finished (f 1%Z s0) [1%Z])
           ∧ (mode = "loop-times" → ∀ n, count = Some n → (0 < n)%Z →
              Z.to_nat n ≤ fuel →
              r = Finished (after_iterations f n s0) (seqZ 1 n))
           ∧ (mode = "loop-times" →
              count = None ∨ (∃ n, count = Some n ∧ (n ≤ 0)%Z) →
              0 < fuel → r = Finished (f 1%Z s0) [1%Z])
           ∧ (mode ≠ "single" → mode ≠ "loop-times" →
              r = StillLooping (after_iterations f (Z.of_nat fuel) s0)
                    (seqZ 1 (Z.of_nat fuel)))).
Proof.
  intros result mode count. split; [done|]. split; [|split].
  - intros [Hsel|Hsel]; unfold tests_runner; fold result; by rewrite Hsel.
  - intros chosen Hsel Hne Hdur. unfold tests_runner. fold result.
    rewrite Hsel, Hdur. by destruct chosen.
  - intros chosen d Hsel Hne Hdur s0. unfold tests_runner. fold result.
    rewrite Hsel, Hdur. destruct chosen as [|c chosen]; [done|].
    fold mode count s0. eexists. split; [done|]. split.
    + rewrite (iterate_numbers fuel (run d mode) mode _ 0 s0 []) at 1.
      cbn [app length]. by rewrite Nat.sub_0_r.
    + intros Hrun.
      rewrite (iterate_ext fuel (run d mode) (fun k s' => Ok (f k s'))) by done.
      split; [|split; [|split]].
      * intros -> Hfuel. destruct fuel as [|fuel]; [lia|]. done.
      * intros -> n Hn Hpos Hfuel. unfold max_iterations. rewrite Hn.
        rewrite (proj2 (Z.ltb_lt 0 n) Hpos).
        rewrite iterate_loop_times by lia.
        unfold after_iterations. cbn [app]. by rewrite Z.sub_0_r.
      * intros -> Hcount Hfuel.
        assert (max_iterations count = 1%Z) as ->.
        { unfold max_iterations. destruct Hcount as [->|(n & -> & Hn)]; [done|].
          by rewrite (proj2 (Z.ltb_ge 0 n) Hn). }
        rewrite iterate_loop_times by lia. done.
      * intros H1 H2. by rewrite iterate_forever.
Qed.

End RunnerFacts.

(** ** The channel selector *)

Section SelectorFacts.
Import Selector.

Lemma find_group_add_same g x gs :
  find_group g (add_to_group g x gs) = Some (default [] (find_group g gs) ++ [x]).
Proof.
  induction gs as [|[g' l] gs IH]; cbn [add_to_group find_group].
  - by rewrite String.eqb_refl.
  - destruct (String.eqb g g') eqn:Hg; cbn [find_group]; by rewrite Hg.
Qed.

Lemma find_group_add_other g g' x gs :
  g' ≠ g → find_group g' (add_to_group g x gs) = find_group g' gs.
Proof.
  intros Hne. induction gs as [|[g0 l] gs IH]; cbn [add_to_group find_group].
  - by rewrite (proj2 (String.eqb_neq g' g) Hne).
  - destruct (String.eqb_spec g g0) as [->|Hg]; cbn [find_group].
    + by rewrite (proj2 (String.eqb_neq g' g0) Hne).
    + by rewrite IH.
Qed.

Lemma add_to_group_keys g x gs :
  (add_to_group g x gs).*1 = if decide (g ∈ gs.*1) then gs.*1 else gs.*1 ++ [g].
Proof.
  induction gs as [|[g' l] gs IH]; cbn [add_to_group fmap list_fmap fst].
  - rewrite decide_False; [done|]. by intros ?%elem_of_nil.
  - destruct (String.eqb_spec g g') as [->|Hg]; cbn [fmap list_fmap fst].
    + rewrite decide_True; [done|]. by left.
    + fold (fmap (M:=list) (@fst string (list item))). rewrite IH.
      destruct (decide (g ∈ gs.*1)) as [Hin|Hout].
      * rewrite decide_True; [done|]. by right.
      * rewrite decide_False; [done|]. intros [?|?]%elem_of_cons; done.
Qed.

Lemma add_to_group_NoDup g x gs : NoDup gs.*1 → NoDup (add_to_group g x gs).*1.
Proof.
  intros Hnd. rewrite add_to_group_keys. case_decide; [done|].
  apply NoDup_app. split; [done|]. split; [|apply NoDup_singleton].
  intros k Hk ->%list_elem_of_singleton. done.
Qed.

Lemma find_group_elem_of g l gs :
  NoDup gs.*1 → ((g, l) ∈ gs ↔ find_group g gs = Some l).
Proof.
  induction gs as [|[g' l'] gs IH]; cbn [fmap list_fmap fst find_group].
  - intros _. split; [by intros ?%elem_of_nil|done].
  - fold (fmap (M:=list) (@fst string (list item))).
    intros [Hout Hnd]%NoDup_cons. rewrite elem_of_cons.
    destruct (String.eqb_spec g g') as [->|Hg].
    + split.
      * intros [[= ->]|Hin]; [done|]. exfalso. apply Hout.
        apply list_elem_of_fmap. by exists (g', l).
      * intros [= ->]. by left.
    + rewrite <- (IH Hnd). split; [|by right].
      intros [[= -> _]|Hin]; done.
Qed.

Lemma members_snoc g items x :
  members g (items ++ [x])
  = members g items ++ (if decide (group_of (item_name x) = g) then [x] else []).
Proof.
  unfold members. by rewrite filter_app.
Qed.

Lemma group_items_snoc items x :
  group_items (items ++ [x])
  = add_to_group (group_of (item_name x)) x (group_items items).
Proof. unfold group_items. by rewrite foldl_snoc. Qed.

Lemma group_items_find items :
  NoDup (group_items items).*1
  ∧ ∀ g, find_group g (group_items items)
         = if decide (members g items = []) then None else Some (members g items).
Proof.
  induction items as [|x items [Hnd Hfind]] using rev_ind.
  - split; [constructor|]. intros g. by rewrite decide_True.
  - rewrite group_items_snoc. split; [by apply add_to_group_NoDup|].
    intros g. rewrite members_snoc.
    destruct (decide (group_of (item_name x) = g)) as [<-|Hne].
    + rewrite find_group_add_same, Hfind.
      destruct (decide (members (group_of (item_name x)) items ++ [x] = []))
        as [[_ ?]%app_eq_nil|_]; [done|].
      by case_decide as Hm; [rewrite Hm|].
    + rewrite find_group_add_other by done. by rewrite Hfind, app_nil_r.
Qed.

(** X12. The selector sorts the entries of the playlist into groups
    without losing or repeating any: the group names are pairwise
    distinct, the list kept under a name is never empty and holds
    exactly the entries whose name gives that group, in playlist order,
    and every entry is in the list of its group. *)
Theorem groups_partition_playlist (items : list item) :
  NoDup (group_items items).*1
  ∧ (∀ g l, (g, l) ∈ group_items items ↔ l = members g items ∧ l ≠ [])
  ∧ (∀ x, x ∈ items →
       ∃ l, (group_of (item_name x), l) ∈ group_items items ∧ x ∈ l).
Proof.
  destruct (group_items_find items) as [Hnd Hfind].
  split; [done|]. split.
  - intros g l. rewrite (find_group_elem_of g l _ Hnd), Hfind.
    case_decide as Hm.
    + split; [done|]. intros [-> Hne]. done.
    + split; [by intros [= <-]|]. by intros [-> _].
  - intros x Hx. exists (members (group_of (item_name x)) items).
    assert (Hin : x ∈ members (group_of (item_name x)) items).
    { unfold members. by apply list_elem_of_filter. }
    split; [|done]. apply (find_group_elem_of _ _ _ Hnd). rewrite Hfind.
    rewrite decide_False; [done|]. intros Hnil. rewrite Hnil in Hin.
    by apply elem_of_nil in Hin.
Qed.

Lemma concat_add_to_group g x gs :
  concat (add_to_group g x gs).*2 ≡ₚ concat gs.*2 ++ [x].
Proof.
  induction gs as [|[g' l] gs IH]; cbn [add_to_group fmap list_fmap snd concat].
  - done.
  - destruct (String.eqb g g'); cbn [fmap list_fmap snd concat].
    + fold (fmap (M:=list) (@snd string (list item))).
      rewrite <- !app_assoc. f_equiv. apply Permutation_app_comm.
    + fold (fmap (M:=list) (@snd string (list item))).
      by rewrite IH, app_assoc.
Qed.

Lemma concat_group_items items : concat (group_items items).*2 ≡ₚ items.
Proof.
  induction items as [|x items IH] using rev_ind; [done|].
  by rewrite group_items_snoc, concat_add_to_group, IH.
Qed.

Lemma filter_ext_in {A} (P Q : A → Prop)
    `{!∀ x, Decision (P x), !∀ x, Decision (Q x)} (l : list A) :
  (∀ x, x ∈ l → (P x ↔ Q x)) → filter P l = filter Q l.
Proof.
  induction l as [|a l IH]; intros Hpq; [done|].
  rewrite !filter_cons, IH by (intros x Hx; apply Hpq; by right).
  apply decide_ext, Hpq. by left.
Qed.

Lemma filter_all {A} (P : A → Prop) `{!∀ x, Decision (P x)} (l : list A) :
  (∀ x, x ∈ l → P x) → filter P l = l.
Proof.
  induction l as [|a l IH]; intros Hp; [done|].
  rewrite filter_cons_True by (apply Hp; by left).
  f_equal. apply IH. intros x Hx. apply Hp. by right.
Qed.

Lemma tick_loop cv (channels selected : list item) :
  foldl (fun selected ch =>
           if checked cv (item_url ch) then selected ++ [ch] else selected)
        selected channels
  = selected ++ filter (fun ch => checked cv (item_url ch) = true) channels.
Proof.
  revert selected. induction channels as [|ch channels IH]; intros selected.
  - by rewrite filter_nil, app_nil_r.
  - cbn [foldl]. rewrite IH, filter_cons.
    destruct (checked cv (item_url ch)) eqn:Hc.
    + rewrite decide_True by done. by rewrite <- app_assoc.
    + by rewrite decide_False.
Qed.

Lemma on_submit_groups gv cv (gs : groups) (selected : list item) :
  (∀ g l, (g, l) ∈ gs → ∀ x, x ∈ l → group_of (item_name x) = g) →
  foldl
    (fun selected '(group_name, channels) =>
       if checked gv group_name then selected ++ channels
       else foldl (fun selected ch =>
                     if checked cv (item_url ch)
                     then selected ++ [ch] else selected)
                  selected channels)
    selected gs
  = selected ++ filter (fun x => chosen gv cv x = true) (concat gs.*2).
Proof.
  revert selected. induction gs as [|[g l] gs IH]; intros selected Hhom.
  - cbn [foldl fmap list_fmap concat]. by rewrite filter_nil, app_nil_r.
  - cbn [foldl fmap list_fmap snd concat].
    fold (fmap (M:=list) (@snd string (list item))).
    rewrite filter_app, app_assoc.
    assert (Hl : ∀ x, x ∈ l → group_of (item_name x) = g).
    { intros x Hx. apply (Hhom g l); [by left|done]. }
    assert (Hrest : ∀ g' l', (g', l') ∈ gs → ∀ x, x ∈ l' → group_of (item_name x) = g').
    { intros g' l' Hin. apply Hhom. by right. }
    destruct (checked gv g) eqn:Hg.
    + rewrite IH by done. f_equal. f_equal.
      symmetry. apply filter_all. intros x Hx.
      unfold chosen. by rewrite (Hl x Hx), Hg.
    + rewrite tick_loop, IH by done. f_equal. f_equal.
      apply filter_ext_in. intros x Hx.
      unfold chosen. by rewrite (Hl x Hx), Hg.
Qed.

Lemma group_items_homogeneous items g l :
  (g, l) ∈ group_items items → ∀ x, x ∈ l → group_of (item_name x) = g.
Proof.
  intros Hin x Hx.
  destruct (group_items_find items) as [Hnd Hfind].
  apply (find_group_elem_of g l _ Hnd) in Hin. rewrite Hfind in Hin.
  case_decide; [done|]. injection Hin as <-.
  unfold members in Hx. by apply list_elem_of_filter in Hx as [? _].
Qed.

(** X13. Pressing the submit button of the selector returns, up to
    order, exactly the entries of the playlist whose group box or whose
    own box is ticked (boxes are looked up by group name and by URL):
    none is returned twice, and none of the others is returned. *)
Theorem on_submit_selects_ticked (gv cv : gmap string bool) (items : list item) :
  on_submit gv cv (group_items items)
  ≡ₚ filter (fun x => chosen gv cv x = true) items.
Proof.
  unfold on_submit.
  rewrite (on_submit_groups gv cv (group_items items) []).
  - rewrite app_nil_l. by rewrite concat_group_items.
  - apply group_items_homogeneous.
Qed.

End SelectorFacts.

(** ** Whole runs of [run_checks_async] *)

Section LedgerFacts.
Import PyStr PyNum Exc Session Run Ledger Samples.

Lemma write_results_in_sync info s : in_sync info (write_results info s).
Proof. reflexivity. Qed.

Lemma periodic_in_sync info idx c ticks fe s res s' :
  Periodic.probe_channel info idx c ticks fe s = Ok (res, s') →
  in_sync info s' ∧ channel_of_result res = c.
Proof.
  destruct c as [[cid cname] curl]. unfold Periodic.probe_channel.
  destruct (mark_testing info idx s) as [s1|e]; [|done].
  cbn [mbind exc_bind bind].
  destruct (Periodic.loop info idx curl ticks (initial_locals, s1)) as [lv s2].
  intros [= <- <-]. split; [apply write_results_in_sync|done].
Qed.

Lemma continuous_in_sync info idx c w0 sp events fe s res s' :
  Continuous.probe_channel info idx c w0 sp events fe s = Ok (res, s') →
  in_sync info s' ∧ channel_of_result res = c.
Proof.
  destruct c as [[cid cname] curl]. unfold Continuous.probe_channel.
  destruct (mark_testing info idx s) as [s1|e]; [|done].
  cbn [mbind exc_bind bind]. destruct sp as [msg|]; [done|].
  destruct (foldl _ _ events) as [[ws lv] s2].
  intros [= <- <-]. split; [apply write_results_in_sync|done].
Qed.

Lemma same_domain_length {A} (l l' : list A) :
  (∀ j, is_Some (l !! j) ↔ is_Some (l' !! j)) → length l = length l'.
Proof.
  intros Hdom.
  destruct (Nat.lt_trichotomy (length l) (length l')) as [Hlt|[Heq|Hlt]]; [|done|].
  - apply lookup_lt_is_Some, Hdom, lookup_lt_is_Some in Hlt. lia.
  - apply lookup_lt_is_Some, Hdom, lookup_lt_is_Some in Hlt. lia.
Qed.

Lemma one_record_changed (l l' : list mem_record) i r r' :
  l !! i = Some r → l' !! i = Some r' →
  (∀ j, j ≠ i → l' !! j = l !! j) → length l' = length l.
Proof.
  intros Hr Hr' Hoth. apply same_domain_length. intros j.
  destruct (decide (j = i)) as [->|Hne].
  - rewrite Hr, Hr'. split; eauto.
  - by rewrite Hoth.
Qed.

(** One window of either path, for a record in range and a process that
    can be launched. *)
Lemma window_completes info (mode : bool) (i : nat) ch (w : window) s :
  (i < length (channels_json s))%nat →
  (mode = true → spawn_error w = None) →
  ∃ res s',
    (if mode
     then Continuous.probe_channel info i ch (seed_world w) (spawn_error w)
            (events w) (final_elapsed w) s
     else Periodic.probe_channel info i ch (ticks w) (final_elapsed w) s)
    = Ok (res, s')
    ∧ in_sync info s' ∧ channel_of_result res = ch
    ∧ length (channels_json s') = length (channels_json s)
    ∧ (∀ j, j ≠ i → channels_json s' !! j = channels_json s !! j)
    ∧ ∃ r', channels_json s' !! i = Some r'
        ∧ res_result res = status r' ∧ (status r' = Pass ∨ status r' = Issue).
Proof.
  intros [r Hr]%lookup_lt_is_Some Hsp. destruct mode.
  - rewrite (Hsp eq_refl).
    destruct (continuous_returns info i ch (seed_world w) (events w) (final_elapsed w) s r Hr)
      as (res & s' & Hrun).
    exists res, s'. split; [done|].
    pose proof (continuous_in_sync _ _ _ _ _ _ _ _ _ _ Hrun) as [Hsync Hch].
    apply continuous_window in Hrun
      as (r0 & r' & Hr0 & Hr' & Hst & Hres & _ & _ & _ & _ & _ & _ & _ & _ & _ & _ & Hoth).
    split; [done|]. split; [done|].
    split; [by apply (one_record_changed _ _ i r0 r')|]. split; [done|].
    exists r'. split; [done|]. split; [done|].
    rewrite Hst. destruct (_ && _); auto.
  - destruct (periodic_returns info i ch (ticks w) (final_elapsed w) s r Hr)
      as (res & s' & Hrun).
    exists res, s'. split; [done|].
    pose proof (periodic_in_sync _ _ _ _ _ _ _ _ Hrun) as [Hsync Hch].
    apply periodic_window in Hrun. cbv zeta in Hrun.
    destruct Hrun
      as (r0 & r' & Hr0 & Hr' & Hst & Hres & _ & _ & _ & _ & _ & _ & _ & _ & _ & _ & _ & _ & Hoth).
    split; [done|]. split; [done|].
    split; [by apply (one_record_changed _ _ i r0 r')|]. split; [done|].
    exists r'. split; [done|]. split; [done|].
    rewrite Hst. destruct (_ && _); auto.
Qed.

Lemma probe_all_completes info (mode : bool) (i : nat) (chs : list Monitor.channel)
    windows results s :
  (i + length chs ≤ length (channels_json s))%nat →
  (mode = true → ∀ k, (k < length chs)%nat → spawn_error (windows (i + k)%nat) = None) →
  in_sync info s →
  ∃ out s',
    probe_all info mode i chs windows results s = Ok (results ++ out, s')
    ∧ channel_of_result <$> out = chs
    ∧ length (channels_json s') = length (channels_json s)
    ∧ in_sync info s'
    ∧ (∀ j, (j < i)%nat → channels_json s' !! j = channels_json s !! j)
    ∧ ∀ k res, out !! k = Some res →
        ∃ r, channels_json s' !! (i + k)%nat = Some r
          ∧ res_result res = status r ∧ (status r = Pass ∨ status r = Issue).
Proof.
  revert i results s. induction chs as [|ch chs IH]; intros i results s Hlen Hsp Hsync.
  - exists [], s. cbn [probe_all]. rewrite app_nil_r. by repeat split.
  - cbn [length] in Hlen. cbn [probe_all].
    destruct (window_completes info mode i ch (windows i) s) as
      (res & s1 & Hrun & Hsync1 & Hch & Hlen1 & Hoth1 & r1 & Hr1 & Hres1 & Hst1).
    { lia. }
    { intros Hm. specialize (Hsp Hm 0%nat). rewrite Nat.add_0_r in Hsp.
      apply Hsp. cbn [length]. lia. }
    rewrite Hrun. cbn [mbind exc_bind bind].
    destruct (IH (S i) (results ++ [res]) s1) as
      (out & s' & Hrest & Hchs & Hlen' & Hsync' & Hbelow & Hout).
    { rewrite Hlen1. lia. }
    { intros Hm k Hk. replace (S i + k)%nat with (i + S k)%nat by lia.
      apply (Hsp Hm). cbn [length]. lia. }
    { done. }
    exists (res :: out), s'.
    split; [by rewrite Hrest, <- app_assoc|].
    split; [cbn [fmap list_fmap]; by rewrite Hch, <- Hchs|].
    split; [congruence|]. split; [done|]. split.
    + intros j Hj. rewrite Hbelow by lia. apply Hoth1. lia.
    + intros [|k] res' Hk.
      * injection Hk as <-. exists r1. rewrite Nat.add_0_r.
        rewrite Hbelow by lia. done.
      * replace (i + S k)%nat with (S i + k)%nat by lia. by apply Hout.
Qed.

(** X14. A run of [run_checks_async] whose record list is at least as
    long as the channel list (as is the list the run builds for itself)
    and, in continuous mode, whose inspection processes can all be
    launched, returns one result per channel, in channel order and with
    the channel's id, name and URL. The answer of each result is the
    final status of the record at the channel's position, [pass] or
    [issue], whatever the later windows did; the record list keeps its
    length; and [results.json] ends as the image of the records in
    memory, under the start time, duration, loop mode and iteration
    number of the run. *)
Theorem run_checks_async_completes (channels : list Monitor.channel) dur
    (mode : bool) lm it (given : option session) now windows :
  (length channels ≤ length (channels_json (initial_session channels given)))%nat →
  (mode = true → ∀ i, (i < length channels)%nat → spawn_error (windows i) = None) →
  let info := {| test_start := now; duration_seconds := dur;
                 loop_mode := lm; current_iteration := it |} in
  ∃ results s',
    run_checks_async channels dur mode lm it given now windows = Ok (results, s')
    ∧ channel_of_result <$> results = channels
    ∧ length (channels_json s')
      = length (channels_json (initial_session channels given))
    ∧ results_file s' = Some (snapshot_of info s')
    ∧ ∀ i res, results !! i = Some res →
        ∃ r, channels_json s' !! i = Some r
          ∧ res_result res = status r ∧ (status r = Pass ∨ status r = Issue).
Proof.
  intros Hlen Hsp info. unfold run_checks_async.
  fold (initial_session channels given). fold info.
  destruct (probe_all_completes info mode 0%nat channels windows []
              (write_results info (initial_session channels given)))
    as (out & s' & Hrun & Hchs & Hlen' & Hsync & _ & Hout).
  - by rewrite channels_json_write_results.
  - intros Hm k Hk. by apply Hsp.
  - apply write_results_in_sync.
  - exists out, s'. rewrite Hrun. split; [done|]. split; [done|].
    split; [done|]. split; [done|]. done.
Qed.

(** A continuous run over two channels that builds its own records. *)
Lemma run_checks_async_completes_witness :
  ∃ results s',
    run_checks_async [channel_a; channel_b] 60 true "single" 1 None 1700000000 failures
    = Ok (results, s')
    ∧ channel_of_result <$> results = [channel_a; channel_b]
    ∧ length (channels_json s')
      = length (channels_json (initial_session [channel_a; channel_b] None))
    ∧ results_file s'
      = Some (snapshot_of {| test_start := 1700000000; duration_seconds := 60;
                             loop_mode := "single"; current_iteration := 1 |} s')
    ∧ ∀ i res, results !! i = Some res →
        ∃ r, channels_json s' !! i = Some r
          ∧ res_result res = status r ∧ (status r = Pass ∨ status r = Issue).
Proof.
  apply (run_checks_async_completes [channel_a; channel_b] 60 true "single" 1 None
           1700000000 failures).
  - vm_compute. lia.
  - intros _ i _. reflexivity.
Defined.

Lemma window_of_here ch rest i : window_of (ch :: rest) i i = Some ch.
Proof.
  unfold window_of. rewrite decide_True by lia. by rewrite Nat.sub_diag.
Qed.

Lemma window_of_later ch rest i j :
  j ≠ i → window_of (ch :: rest) i j = window_of rest (S i) j.
Proof.
  intros Hne. unfold window_of.
  destruct (decide (i ≤ j)%nat) as [Hle|Hgt].
  - rewrite decide_True by lia.
    replace (j - i)%nat with (S (j - S i)) by lia. done.
  - by rewrite decide_False by lia.
Qed.

Lemma window_of_before rest i : window_of rest (S i) i = None.
Proof. unfold window_of. by rewrite decide_False by lia. Qed.

Lemma window_of_start chs j : window_of chs 0 j = chs !! j.
Proof. unfold window_of. rewrite decide_True by lia. by rewrite Nat.sub_0_r. Qed.

(** Probing the channels one after another, when no two records share
    a list: each record's lists gain the entries of its own window and
    no others. *)
Lemma probe_all_gains info (i : nat) (chs : list Monitor.channel) windows results s
    out s' :
  own_lists s →
  probe_all info false i chs windows results s = Ok (out, s') →
  ∀ j r, channels_json s !! j = Some r →
    ∃ r', channels_json s' !! j = Some r'
      ∧ name r' = name r
      ∧ disconnects r' = disconnects r
      ∧ buffering_events r' = buffering_events r
      ∧ disconnects_count r'
        = disconnects_count r + Z.of_nat (length (new_stamps info chs windows i j))
      ∧ stamps s' (disconnects r)
        = stamps s (disconnects r) ++ new_stamps info chs windows i j
      ∧ durations s' (buffering_events r)
        = durations s (buffering_events r) ++ new_events info chs windows i j.
Proof.
  revert i results s. induction chs as [|ch chs IH]; intros i results s Hown.
  - cbn [probe_all]. intros [= <- <-] j r Hr. exists r.
    unfold new_stamps, new_events, window_of.
    destruct (decide (i ≤ j)%nat); rewrite ?lookup_nil; cbn [from_option length];
      rewrite !app_nil_r, Z.add_0_r; done.
  - cbn [probe_all].
    destruct (Periodic.probe_channel _ _ _ _ _ _) as [[res s1]|e] eqn:Hrun; [|done].
    cbn [mbind exc_bind bind]. intros Hrest.
    apply periodic_window in Hrun. cbv zeta in Hrun.
    destruct Hrun
      as (ri & ri' & Hri & Hri' & _ & _ & _ & _ & Hn & _ & Hd & Hbe & Hc & Hst & Hsto
          & Hdu & Hduo & _ & Hoth).
    assert (Hown1 : own_lists s1).
    { intros j k r r' Hjk Hr Hr'.
      assert (Hback : ∀ x rx, channels_json s1 !! x = Some rx →
                ∃ rx0, channels_json s !! x = Some rx0
                  ∧ disconnects rx = disconnects rx0
                  ∧ buffering_events rx = buffering_events rx0).
      { intros x rx Hx. destruct (decide (x = i)) as [->|Hxi].
        - exists ri. assert (rx = ri') as -> by congruence. done.
        - exists rx. by rewrite <- Hoth. }
      destruct (Hback j r Hr) as (r0 & Hr0 & -> & ->).
      destruct (Hback k r' Hr') as (r0' & Hr0' & -> & ->).
      by apply (Hown j k). }
    intros j r Hr.
    destruct (decide (j = i)) as [->|Hne].
    + assert (r = ri) as -> by congruence.
      destruct (IH (S i) _ s1 Hown1 Hrest i ri' Hri')
        as (r' & Hr' & Hn' & Hd' & Hbe' & Hc' & Hst' & Hdu').
      unfold new_stamps, new_events in *.
      rewrite window_of_before in Hc', Hst', Hdu'. rewrite window_of_here.
      cbn [from_option length] in *.
      rewrite app_nil_r in Hst', Hdu'. rewrite Z.add_0_r in Hc'.
      exists r'. split; [done|]. split; [congruence|]. split; [congruence|].
      split; [congruence|]. split; [congruence|].
      split; [by rewrite <- Hd, Hst', Hd|by rewrite <- Hbe, Hdu', Hbe].
    + assert (Hr1 : channels_json s1 !! j = Some r) by (by rewrite Hoth).
      destruct (IH (S i) _ s1 Hown1 Hrest j r Hr1)
        as (r' & Hr' & Hn' & Hd' & Hbe' & Hc' & Hst' & Hdu').
      destruct (Hown j i r ri Hne Hr Hri) as [Hdne Hbne].
      unfold new_stamps, new_events in *. rewrite window_of_later by done.
      exists r'. split; [done|]. split; [done|]. split; [done|]. split; [done|].
      split; [done|].
      split; [by rewrite Hst', Hsto|by rewrite Hdu', Hduo].
Qed.

(** Where the entry of a name in [previous_counts] comes from. *)
Lemma collect_previous_source k prev (m : gmap string prev_counts) n e :
  collect_previous k prev m !! n = Some e →
  m !! n = Some e
  ∨ ∃ j p, prev !! j = Some p ∧ name p = n
      ∧ e = {| prev_buffering_events := FromFile (k + j);
               prev_disconnects := FromFile (k + j);
               prev_disconnects_count := disconnects_count p;
               prev_buffering_total_seconds := buffering_total_seconds p |}.
Proof.
  revert k m. induction prev as [|ch rest IH]; intros k m; [by left|].
  cbn [collect_previous]. intros [Hm|(j & p & Hj & Hn & He)]%IH.
  - destruct (decide (name ch = n)) as [Heq|Hne].
    + rewrite Heq, lookup_insert_eq in Hm. injection Hm as <-.
      right. exists 0%nat, ch. by rewrite Nat.add_0_r.
    + rewrite lookup_insert_ne in Hm by done. by left.
  - right. exists (S j), p. split; [done|]. split; [done|].
    by replace (k + S j)%nat with (S k + j)%nat by lia.
Qed.

(** The record that [prepare_and_run] builds for a channel either has
    fresh lists and a zero count, or the lists and the count of a
    record of the previous file that bears its name. *)
Lemma start_iteration_record (chs : list Monitor.channel) dur lm it file now (i : nat)
    (c : Monitor.channel) :
  chs !! i = Some c →
  ∃ r0, channels_json (start_iteration chs dur lm it file now) !! i = Some r0
    ∧ name r0 = channel_name c
    ∧ ((disconnects r0 = Fresh i ∧ buffering_events r0 = Fresh i
        ∧ disconnects_count r0 = 0)
       ∨ ∃ k p, previous_records it file !! k = Some p ∧ name p = channel_name c
           ∧ disconnects r0 = FromFile k ∧ buffering_events r0 = FromFile k
           ∧ disconnects_count r0 = disconnects_count p).
Proof.
  intros Hc. unfold start_iteration. rewrite channels_json_write_results.
  cbn [channels_json]. rewrite list_lookup_imap, Hc.
  cbn [fmap option_fmap option_map]. eexists. split; [done|]. split; [done|].
  unfold build_record.
  destruct (collect_previous 0 (previous_records it file) ∅ !! c.1.2) as [e|] eqn:He.
  - apply collect_previous_source in He as [He|(k & p & Hk & Hn & ->)].
    + by rewrite lookup_empty in He.
    + right. exists k, p. by cbn.
  - left. by cbn.
Qed.

Lemma start_iteration_own_lists (chs : list Monitor.channel) dur lm it file now :
  NoDup (channel_name <$> chs) →
  own_lists (start_iteration chs dur lm it file now).
Proof.
  intros Hnd i j r r' Hij Hr Hr'.
  assert (Hin : ∀ x rx, channels_json (start_iteration chs dur lm it file now) !! x
                        = Some rx → ∃ c, chs !! x = Some c).
  { intros x rx. unfold start_iteration. rewrite channels_json_write_results.
    cbn [channels_json]. rewrite list_lookup_imap.
    destruct (chs !! x); [eauto|done]. }
  destruct (Hin i r Hr) as [ci Hci]. destruct (Hin j r' Hr') as [cj Hcj].
  assert (Hnames : channel_name ci ≠ channel_name cj).
  { intros Heq. apply Hij.
    apply (NoDup_lookup _ i j (channel_name ci) Hnd).
    - by rewrite list_lookup_fmap, Hci.
    - by rewrite list_lookup_fmap, Hcj, Heq. }
  destruct (start_iteration_record chs dur lm it file now i ci Hci)
    as (ri & Hri & _ & Hi).
  destruct (start_iteration_record chs dur lm it file now j cj Hcj)
    as (rj & Hrj & _ & Hj).
  assert (r = ri) as -> by congruence. assert (r' = rj) as -> by congruence.
  destruct Hi as [(-> & -> & _)|(k & p & Hk & Hn & -> & -> & _)];
    destruct Hj as [(-> & -> & _)|(k' & p' & Hk' & Hn' & -> & -> & _)];
    split; congruence.
Qed.

Lemma start_iteration_counts_ok (chs : list Monitor.channel) dur lm it file now :
  Forall counted (previous_records it file) →
  counts_ok (start_iteration chs dur lm it file now).
Proof.
  intros Hfile i r Hr.
  assert (∃ c, chs !! i = Some c) as [c Hc].
  { revert Hr. unfold start_iteration. rewrite channels_json_write_results.
    cbn [channels_json]. rewrite list_lookup_imap.
    destruct (chs !! i); [eauto|done]. }
  destruct (start_iteration_record chs dur lm it file now i c Hc)
    as (r0 & Hr0 & _ & Hcase).
  assert (r = r0) as -> by congruence.
  unfold start_iteration, write_results; cbn [stamps].
  destruct Hcase as [(-> & _ & ->)|(k & p & Hk & _ & -> & _ & ->)].
  - done.
  - unfold loaded_stamps. rewrite Hk. cbn [from_option].
    by apply (Forall_lookup_1 _ _ _ _ Hfile Hk).
Qed.

Lemma start_iteration_length (chs : list Monitor.channel) dur lm it file now :
  length (channels_json (start_iteration chs dur lm it file now)) = length chs.
Proof.
  unfold start_iteration. rewrite channels_json_write_results.
  cbn [channels_json]. apply length_imap.
Qed.

(** An iteration of the runner returns, with [results.json] in step. *)
Lemma run_iteration_returns (chs : list Monitor.channel) dur lm it file now now' windows :
  ∃ results s',
    run_iteration chs dur lm it file now now' windows = Ok (results, s')
    ∧ length (channels_json s') = length chs
    ∧ results_file s'
      = Some (snapshot_of {| test_start := now'; duration_seconds := dur;
                             loop_mode := lm; current_iteration := it |} s').
Proof.
  unfold run_iteration, run_checks_async.
  destruct (probe_all_completes
              {| test_start := now'; duration_seconds := dur;
                 loop_mode := lm; current_iteration := it |}
              false 0%nat chs windows []
              (write_results
                 {| test_start := now'; duration_seconds := dur;
                    loop_mode := lm; current_iteration := it |}
                 (start_iteration chs dur lm it file now)))
    as (out & s' & Hrun & _ & Hlen & Hsync & _ & _).
  - rewrite channels_json_write_results, start_iteration_length. cbn. lia.
  - done.
  - apply write_results_in_sync.
  - exists out, s'. split; [done|]. split; [|done].
    by rewrite Hlen, channels_json_write_results, start_iteration_length.
Qed.

(** X15. When the channels of an iteration bear pairwise distinct
    names, each channel's lists in [results.json] grow by the entries of
    its own window and by nothing else: after the iteration the
    [disconnects] of the channel at a position are those its record
    started the iteration with (the previous file's, if a record there
    bears the name), followed by the time stamps of the failed probes
    of its own window; its [buffering_events] gain the rounded
    durations of the buffering probes of its window; and its
    [disconnects_count] grows by the number of those time stamps. *)
Theorem iteration_extends_history (chs : list Monitor.channel) dur lm it file
    now now' windows :
  NoDup (channel_name <$> chs) →
  let info := {| test_start := now'; duration_seconds := dur;
                 loop_mode := lm; current_iteration := it |} in
  let s0 := start_iteration chs dur lm it file now in
  ∃ results s',
    run_iteration chs dur lm it file now now' windows = Ok (results, s')
    ∧ ∀ (i : nat) c, chs !! i = Some c →
        ∃ r0 r', channels_json s0 !! i = Some r0
          ∧ channels_json s' !! i = Some r'
          ∧ name r' = channel_name c
          ∧ disconnects (to_file s' r')
            = disconnects (to_file s0 r0)
              ++ Periodic.error_stamps info c.2 (ticks (windows i))
          ∧ buffering_events (to_file s' r')
            = buffering_events (to_file s0 r0)
              ++ (round2 <$> Periodic.buffering_durations info c.2 (ticks (windows i)))
          ∧ disconnects_count r'
            = disconnects_count r0
              + Z.of_nat (length (Periodic.error_stamps info c.2 (ticks (windows i)))).
Proof.
  intros Hnd info s0.
  destruct (run_iteration_returns chs dur lm it file now now' windows)
    as (results & s' & Hrun & _ & _).
  exists results, s'. split; [done|]. intros i c Hc.
  destruct (start_iteration_record chs dur lm it file now i c Hc)
    as (r0 & Hr0 & Hn0 & _).
  unfold run_iteration, run_checks_async in Hrun. fold info in Hrun.
  pose proof (probe_all_gains info 0 chs windows [] (write_results info s0) results s')
    as Hgain.
  destruct (Hgain (start_iteration_own_lists chs dur lm it file now Hnd) Hrun i r0 Hr0)
    as (r' & Hr' & Hn' & Hd' & Hbe' & Hc' & Hst' & Hdu').
  unfold new_stamps, new_events in Hc', Hst', Hdu'.
  rewrite window_of_start, Hc in Hc', Hst', Hdu'. cbn [from_option] in Hc', Hst', Hdu'.
  exists r0, r'. split; [done|]. split; [done|]. split; [congruence|].
  cbn [to_file disconnects buffering_events]. rewrite Hd', Hbe'.
  split; [done|]. split; done.
Qed.

Lemma iteration_extends_history_witness :
  let info := {| test_start := 1700000200; duration_seconds := 60;
                 loop_mode := "infinite"; current_iteration := 2 |} in
  let s0 := start_iteration [channel_a; channel_c] 60 "infinite" 2
              (Some first_snapshot) 1700000100 in
  ∃ results s',
    run_iteration [channel_a; channel_c] 60 "infinite" 2 (Some first_snapshot)
      1700000100 1700000200 failures = Ok (results, s')
    ∧ ∀ (i : nat) c, [channel_a; channel_c] !! i = Some c →
        ∃ r0 r', channels_json s0 !! i = Some r0
          ∧ channels_json s' !! i = Some r'
          ∧ name r' = channel_name c
          ∧ disconnects (to_file s' r')
            = disconnects (to_file s0 r0)
              ++ Periodic.error_stamps info c.2 (ticks (failures i))
          ∧ buffering_events (to_file s' r')
            = buffering_events (to_file s0 r0)
              ++ (round2 <$> Periodic.buffering_durations info c.2 (ticks (failures i)))
          ∧ disconnects_count r'
            = disconnects_count r0
              + Z.of_nat (length (Periodic.error_stamps info c.2 (ticks (failures i)))).
Proof.
  apply (iteration_extends_history [channel_a; channel_c] 60 "infinite" 2
           (Some first_snapshot) 1700000100 1700000200 failures).
  apply (bool_decide_unpack _). vm_compute. reflexivity.
Defined.

(** X16. The equality of [disconnects_count] and the length of
    [disconnects] carries over from one iteration to the next when the
    channels bear pairwise distinct names: if it holds of every record
    of the previous [results.json] that is read, the iteration returns
    and it holds of every record of the [results.json] it leaves, which
    has one record per channel. *)
Theorem iteration_keeps_counts (chs : list Monitor.channel) dur lm it file
    now now' windows :
  NoDup (channel_name <$> chs) →
  Forall counted (previous_records it file) →
  ∃ results s' snap,
    run_iteration chs dur lm it file now now' windows = Ok (results, s')
    ∧ results_file s' = Some snap
    ∧ length (snap_channels snap) = length chs
    ∧ Forall counted (snap_channels snap)
    ∧ Forall counted (previous_records (it + 1) (results_file s')).
Proof.
  intros Hnd Hfile.
  set (info := {| test_start := now'; duration_seconds := dur;
                  loop_mode := lm; current_iteration := it |}).
  destruct (run_iteration_returns chs dur lm it file now now' windows)
    as (results & s' & Hrun & Hlen & Hsync).
  fold info in Hsync.
  assert (Hall : Forall counted (snap_channels (snapshot_of info s'))).
  { cbn [snapshot_of snap_channels]. apply Forall_fmap, Forall_lookup_2.
    intros j r' Hr'. unfold run_iteration, run_checks_async in Hrun. fold info in Hrun.
    pose proof (probe_all_gains info 0 chs windows []
                  (write_results info (start_iteration chs dur lm it file now))
                  results s'
                  (start_iteration_own_lists chs dur lm it file now Hnd) Hrun) as Hgain.
    assert (∃ r0, channels_json (start_iteration chs dur lm it file now) !! j = Some r0)
      as [r0 Hr0].
    { apply lookup_lt_is_Some. rewrite start_iteration_length, <- Hlen.
      apply lookup_lt_is_Some. eauto. }
    destruct (Hgain j r0 Hr0) as (r1 & Hr1 & _ & Hd & _ & Hc & Hst & _).
    assert (Some r' = Some r1) as [= ->]
      by (etrans; [symmetry; exact Hr'|exact Hr1]).
    unfold counted, compose. cbn [to_file disconnects_count disconnects].
    rewrite Hc, Hd, Hst, length_app.
    rewrite (start_iteration_counts_ok chs dur lm it file now Hfile j r0 Hr0).
    unfold write_results; cbn [stamps]. lia. }
  exists results, s', (snapshot_of info s').
  split; [done|]. split; [done|].
  split; [cbn [snapshot_of snap_channels]; by rewrite length_fmap|].
  split; [done|].
  unfold previous_records. rewrite Hsync. by destruct (1 <? it + 1).
Qed.

Lemma iteration_keeps_counts_witness :
  ∃ results s' snap,
    run_iteration [channel_a; channel_c] 60 "infinite" 2 (Some first_snapshot)
      1700000100 1700000200 failures = Ok (results, s')
    ∧ results_file s' = Some snap
    ∧ length (snap_channels snap) = length [channel_a; channel_c]
    ∧ Forall counted (snap_channels snap)
    ∧ Forall counted (previous_records (2 + 1) (results_file s')).
Proof.
  apply (iteration_keeps_counts [channel_a; channel_c] 60 "infinite" 2
           (Some first_snapshot) 1700000100 1700000200 failures).
  - apply (bool_decide_unpack _). vm_compute. reflexivity.
  - repeat constructor.
Defined.

End LedgerFacts.

(** ** Runs that do not return *)

Section AbortFacts.
Import PyNum Exc Session Run Ledger Samples.

Lemma probe_all_app info (mode : bool) (i : nat) (a b : list Monitor.channel)
    windows results s :
  probe_all info mode i (a ++ b) windows results s
  = match probe_all info mode i a windows results s with
    | Ok (r, s1) => probe_all info mode (i + length a)%nat b windows r s1
    | Raise e => Raise e
    end.
Proof.
  revert i results s. induction a as [|ch a IH]; intros i results s.
  - cbn [app probe_all length]. by rewrite Nat.add_0_r.
  - cbn [app probe_all length].
    destruct (if mode then _ else _) as [[res s1]|e]; cbn [mbind exc_bind bind].
    + rewrite IH. by replace (S i + length a)%nat with (i + S (length a))%nat by lia.
    + done.
Qed.

(** The run up to the channel at position [k]. *)
Lemma run_prefix info (mode : bool) (channels : list Monitor.channel) windows s (k : nat)
    ch :
  channels !! k = Some ch →
  (k ≤ length (channels_json s))%nat →
  (mode = true → ∀ i, (i < k)%nat → spawn_error (windows i) = None) →
  ∃ out s1,
    length (channels_json s1) = length (channels_json s)
    ∧ probe_all info mode 0 channels windows [] (write_results info s)
      = probe_all info mode k (ch :: drop (S k) channels) windows out s1.
Proof.
  intros Hk Hlen Hsp.
  assert (Hklen : (k < length channels)%nat) by (apply lookup_lt_is_Some; eauto).
  pose proof (take_drop_middle channels k ch Hk) as Hsplit.
  assert (Hhd : length (take k channels) = k) by (apply length_take_le; lia).
  remember (take k channels) as hd eqn:Ehd.
  remember (drop (S k) channels) as tl eqn:Etl.
  rewrite <- Hsplit, probe_all_app.
  destruct (probe_all_completes info mode 0 hd windows [] (write_results info s))
    as (out & s1 & Hrun & _ & Hlen1 & _).
  - rewrite channels_json_write_results, Hhd. cbn. lia.
  - intros Hm i Hi. apply (Hsp Hm). by rewrite Hhd in Hi.
  - apply write_results_in_sync.
  - rewrite Hrun. cbn [app]. rewrite Hhd.
    exists out, s1. split; [by rewrite Hlen1, channels_json_write_results|done].
Qed.

(** X17. In continuous mode a process that cannot be launched ends the
    whole run: when the launch for the channel at position [k] raises
    and those before it succeed, [run_checks_async] raises that very
    exception and returns no result, not even for the channels it has
    finished. *)
Theorem launch_failure_aborts_run (channels : list Monitor.channel) dur lm it
    (given : option session) now windows (k : nat) msg :
  (k < length channels)%nat →
  (length channels ≤ length (channels_json (initial_session channels given)))%nat →
  (∀ i, (i < k)%nat → spawn_error (windows i) = None) →
  spawn_error (windows k) = Some msg →
  run_checks_async channels dur true lm it given now windows
  = Raise (PyException msg).
Proof.
  intros Hk Hlen Hbefore Hfail.
  destruct (lookup_lt_is_Some_2 channels k Hk) as [ch Hch].
  unfold run_checks_async. fold (initial_session channels given).
  set (info := {| test_start := now; duration_seconds := dur;
                  loop_mode := lm; current_iteration := it |}).
  destruct (run_prefix info true channels windows (initial_session channels given) k ch)
    as (out & s1 & Hlen1 & ->); [done|lia|by intros _|].
  cbn [probe_all]. destruct ch as [[cid cname] curl].
  unfold Continuous.probe_channel.
  destruct (lookup_lt_is_Some_2 (channels_json s1) k) as [r Hr]; [lia|].
  destruct (mark_testing_returns info k s1 r Hr) as [s2 ->].
  cbn [mbind exc_bind bind]. by rewrite Hfail.
Qed.

Lemma launch_failure_aborts_run_witness :
  run_checks_async [channel_a; channel_c] 60 true "single" 1 None 1700000000
    (fun i => if decide (i = 1%nat)
              then {| ticks := []; final_elapsed := 60%Q; seed_world := healthy;
                      spawn_error := Some "No such file or directory: 'ffprobe'";
                      events := [] |}
              else failures i)
  = Raise (PyException "No such file or directory: 'ffprobe'").
Proof.
  apply (launch_failure_aborts_run [channel_a; channel_c] 60 "single" 1 None 1700000000
           _ 1%nat).
  - cbn. lia.
  - cbn. lia.
  - intros i Hi. assert (i = 0%nat) as -> by lia. reflexivity.
  - reflexivity.
Defined.

(** X18. A record list shorter than the channel list makes
    [run_checks_async] raise the index error of its first statement
    under the lock, once the channels that have a record are done (in
    continuous mode, provided their processes can be launched). *)
Theorem short_record_list_raises (channels : list Monitor.channel) dur (mode : bool)
    lm it (s : session) now windows :
  (length (channels_json s) < length channels)%nat →
  (mode = true →
   ∀ i, (i < length (channels_json s))%nat → spawn_error (windows i) = None) →
  run_checks_async channels dur mode lm it (Some s) now windows
  = Raise (PyException "list index out of range").
Proof.
  intros Hshort Hsp.
  destruct (lookup_lt_is_Some_2 channels (length (channels_json s)) Hshort) as [ch Hch].
  unfold run_checks_async.
  set (info := {| test_start := now; duration_seconds := dur;
                  loop_mode := lm; current_iteration := it |}).
  destruct (run_prefix info mode channels windows s (length (channels_json s)) ch)
    as (out & s1 & Hlen1 & ->); [done|lia|done|].
  cbn [probe_all]. destruct ch as [[cid cname] curl].
  assert (Hmark : mark_testing info (length (channels_json s)) s1
                  = Raise (PyException "list index out of range")).
  { unfold mark_testing. rewrite lookup_ge_None_2; [done|lia]. }
  destruct mode.
  - unfold Continuous.probe_channel. by rewrite Hmark.
  - unfold Periodic.probe_channel. by rewrite Hmark.
Qed.

Lemma short_record_list_raises_witness :
  run_checks_async [channel_a; channel_c] 60 false "single" 1 (Some solo) 1700000000
    failures
  = Raise (PyException "list index out of range").
Proof.
  apply (short_record_list_raises [channel_a; channel_c] 60 false "single" 1 solo
           1700000000 failures).
  - cbn. lia.
  - intros Hm. discriminate Hm.
Defined.

End AbortFacts.

(** ** The texts of a finished record *)

Section ReportFacts.
Import PyStr PyNum Exc Session Report Samples.

Lemma finalize_report info idx keep lv fe s r :
  channels_json s !! idx = Some r →
  ∃ r', channels_json (finalize info idx keep lv fe s) !! idx = Some r'
    ∧ details r' = last_notes lv
    ∧ resolution r' = last_resolution lv
    ∧ tested_seconds r' = py_int fe.
Proof.
  intros Hr. unfold finalize. eexists. split.
  - rewrite channels_json_write_results. by apply lookup_update_record.
  - done.
Qed.

Lemma read_stdout_widths line ws lv :
  let st := Continuous.read_stdout line ws lv in
  Continuous.last_width st.1
  = (match width_of line with Some w => Some w | None => Continuous.last_width ws end)
  ∧ Continuous.last_height st.1
    = (match height_of line with Some h => Some h | None => Continuous.last_height ws end)
  ∧ last_resolution st.2
    = (match Continuous.last_width st.1, Continuous.last_height st.1 with
       | Some w, Some h => w +:+ "x" +:+ h
       | _, _ => last_resolution lv
       end)
  ∧ last_notes st.2 = last_notes lv.
Proof.
  unfold Continuous.read_stdout, width_of, height_of.
  destruct (contains "width=" (strip line));
    destruct (contains "height=" (strip line));
    try destruct (re_search_run "width=" is_digit (strip line));
    try destruct (re_search_run "height=" is_digit (strip line));
    destruct ws as [[w|] [h|]]; done.
Qed.

(** The widths, the heights and the resolution while the events of a
    continuous window are served. *)
Lemma serve_all_resolution info idx events lv s :
  let st := foldl (fun st e => Continuous.serve info idx e st)
              ({| Continuous.last_width := None; Continuous.last_height := None |}, lv, s)
              events in
  Continuous.last_width st.1.1 = last (omap width_of (stdout_lines events))
  ∧ Continuous.last_height st.1.1 = last (omap height_of (stdout_lines events))
  ∧ last_resolution st.1.2 = continuous_resolution (last_resolution lv) events.
Proof.
  induction events as [|e events IH] using rev_ind; [done|].
  cbv zeta in *. rewrite foldl_snoc. unfold continuous_resolution, stdout_lines in *.
  rewrite omap_app, !omap_app, !last_app.
  destruct (foldl _ _ events) as [[ws lv1] s1]. cbn [fst snd] in IH.
  destruct IH as (Hw & Hh & Hres). rewrite <- Hw, <- Hh in *.
  destruct e as [line|line|now]; cbn [Continuous.serve omap list_omap].
  - pose proof (read_stdout_widths line ws lv1) as Hstep. cbv zeta in Hstep.
    destruct (Continuous.read_stdout line ws lv1) as [ws2 lv2]. cbn [fst snd] in *.
    destruct Hstep as (Hw2 & Hh2 & Hres2 & _).
    cbn [last]. rewrite Hres2, Hw2, Hh2.
    destruct (width_of line), (height_of line), ws as [[w|] [h|]];
      cbn [Continuous.last_width Continuous.last_height last] in *; done.
  - cbn [fst snd last]. split; [done|]. split; [done|].
    rewrite <- Hres. unfold Continuous.read_stderr.
    by destruct (_ || _); destruct (contains "buffer" _).
  - done.
Qed.

(** X19. A continuous window that runs (its record is in range and its
    process can be launched) reports as resolution the last width read
    on the standard output joined by [x] to the last height read there,
    whichever lines they come from and whatever is read in between;
    when no width or no height is read, the resolution is that of the
    first short probe, or empty. The window also stores the whole
    seconds of its elapsed time. *)
Theorem continuous_reports_last_size info (idx : nat) (c : Monitor.channel) w0 events fe s :
  (idx < length (channels_json s))%nat →
  ∃ res s' r',
    Continuous.probe_channel info idx c w0 None events fe s = Ok (res, s')
    ∧ channels_json s' !! idx = Some r'
    ∧ resolution r'
      = continuous_resolution (last_resolution (Continuous.seed info c.2 w0)) events
    ∧ details r' = res_notes res
    ∧ tested_seconds r' = py_int fe.
Proof.
  intros [r Hr]%lookup_lt_is_Some. destruct c as [[cid cname] curl].
  unfold Continuous.probe_channel.
  destruct (mark_testing info idx s) as [s1|e] eqn:Hmark.
  2:{ unfold mark_testing in Hmark. by rewrite Hr in Hmark. }
  cbn [mbind exc_bind bind snd].
  apply mark_testing_ok in Hmark as (_ & _ & _ & _ & _ & r1 & Hr1 & _).
  pose proof (serve_all_resolution info idx events (Continuous.seed info curl w0) s1)
    as Hres.
  pose proof (serve_all_effect info idx events
                {| Continuous.last_width := None; Continuous.last_height := None |}
                (Continuous.seed info curl w0) s1 r1 Hr1) as Heff.
  cbv zeta in Hres, Heff.
  destruct (foldl _ _ events) as [[ws lv] s2]. cbn [fst snd] in Hres, Heff.
  destruct Hres as (_ & _ & Hres).
  destruct Heff as (_ & _ & _ & _ & _ & r2 & Hr2 & _).
  destruct (finalize_report info idx false lv fe s2 r2 Hr2)
    as (r3 & Hr3 & Hdet & Hreso & Hsec).
  eexists _, _, r3. split; [done|]. split; [done|].
  split; [by rewrite Hreso|]. split; [by rewrite Hdet|done].
Qed.

Lemma continuous_reports_last_size_witness :
  ∃ res s' r',
    Continuous.probe_channel minute 0 channel_a healthy None two_streams 60 solo
    = Ok (res, s')
    ∧ channels_json s' !! 0%nat = Some r'
    ∧ resolution r'
      = continuous_resolution (last_resolution (Continuous.seed minute channel_a.2 healthy))
          two_streams
    ∧ details r' = res_notes res
    ∧ tested_seconds r' = py_int 60.
Proof.
  apply (continuous_reports_last_size minute 0 channel_a healthy two_streams 60 solo).
  cbn. lia.
Defined.

Lemma last_cons_from {A B} (f : A → B) (d : B) (x : A) (l : list A) :
  from_option f d (last (x :: l)) = from_option f (f x) (last l).
Proof. rewrite last_cons. by destruct (last l). Qed.

(** The notes and the resolution kept by the periodic loop. *)
Lemma loop_locals info idx u ticks lv s :
  let st := Periodic.loop info idx u ticks (lv, s) in
  last_notes st.1
  = from_option (fun t => Probe.notes (Periodic.probe info u t)) (last_notes lv)
      (last (Periodic.made info ticks))
  ∧ last_resolution st.1
    = default (last_resolution lv)
        (last (omap (fun t => shown_resolution (Periodic.probe info u t))
                    (Periodic.made info ticks))).
Proof.
  revert lv s. induction ticks as [|t rest IH]; intros lv s; [done|].
  cbn [Periodic.loop Periodic.made].
  destruct (Qle_bool (inject_Z (duration_seconds info)) (Periodic.at_head t)); [done|].
  cbv zeta in *. rewrite last_cons_from. cbn [omap list_omap].
  destruct (Periodic.turn info idx u t (lv, s)) as [lv1 s1] eqn:Hturn.
  destruct (IH lv1 s1) as [Hn Hr]. rewrite Hn, Hr.
  assert (Hlv1 : last_notes lv1 = Probe.notes (Periodic.probe info u t)
                 ∧ last_resolution lv1
                   = default (last_resolution lv)
                       (shown_resolution (Periodic.probe info u t))).
  { revert Hturn. unfold Periodic.turn, shown_resolution.
    destruct (Periodic.is_buffering _), (Periodic.is_error _);
      intros [= <- _]; cbn [last_notes last_resolution];
      (split; [done|]);
      by destruct (Probe.resolution _) as [res|]; [destruct (is_empty res)|]. }
  destruct Hlv1 as [-> ->]. split; [done|].
  destruct (shown_resolution (Periodic.probe info u t)) as [res|]; [|done].
  cbn [default from_option id]. rewrite last_cons.
  by destruct (last (omap _ _)).
Qed.

(** X20. A periodic window over a record in range returns and reports
    the notes of the last probe it made, in the record and in its
    result alike, whatever the earlier probes said and whatever the
    verdict is; as resolution the last non-empty resolution a probe
    gave; both are empty when no probe was made or gave one. It stores
    the whole seconds of its elapsed time. *)
Theorem periodic_reports_last_probe info (idx : nat) (c : Monitor.channel) ticks fe s :
  (idx < length (channels_json s))%nat →
  ∃ res s' r',
    Periodic.probe_channel info idx c ticks fe s = Ok (res, s')
    ∧ channels_json s' !! idx = Some r'
    ∧ details r' = periodic_notes info c.2 ticks
    ∧ res_notes res = periodic_notes info c.2 ticks
    ∧ resolution r' = periodic_resolution info c.2 ticks
    ∧ tested_seconds r' = py_int fe.
Proof.
  intros [r Hr]%lookup_lt_is_Some. destruct c as [[cid cname] curl].
  unfold Periodic.probe_channel.
  destruct (mark_testing info idx s) as [s1|e] eqn:Hmark.
  2:{ unfold mark_testing in Hmark. by rewrite Hr in Hmark. }
  cbn [mbind exc_bind bind snd].
  apply mark_testing_ok in Hmark as (_ & _ & _ & _ & _ & r1 & Hr1 & _).
  pose proof (loop_locals info idx curl ticks initial_locals s1) as Hloc.
  pose proof (loop_effect info idx curl ticks initial_locals s1 r1 Hr1) as Heff.
  cbv zeta in Hloc, Heff.
  destruct (Periodic.loop info idx curl ticks (initial_locals, s1)) as [lv s2].
  cbn [fst snd] in Hloc, Heff. destruct Hloc as [Hn Hres].
  destruct Heff as (_ & _ & _ & _ & _ & _ & _ & r2 & Hr2 & _).
  destruct (finalize_report info idx true lv fe s2 r2 Hr2)
    as (r3 & Hr3 & Hdet & Hreso & Hsec).
  eexists _, _, r3. split; [done|]. split; [done|].
  split; [by rewrite Hdet, Hn|]. split; [by cbn [res_notes]; rewrite Hn|].
  split; [by rewrite Hreso, Hres|done].
Qed.

Lemma periodic_reports_last_probe_witness :
  ∃ res s' r',
    Periodic.probe_channel minute 0 channel_a five_stalls 60 solo = Ok (res, s')
    ∧ channels_json s' !! 0%nat = Some r'
    ∧ details r' = periodic_notes minute channel_a.2 five_stalls
    ∧ res_notes res = periodic_notes minute channel_a.2 five_stalls
    ∧ resolution r' = periodic_resolution minute channel_a.2 five_stalls
    ∧ tested_seconds r' = py_int 60.
Proof.
  apply (periodic_reports_last_probe minute 0 channel_a five_stalls 60 solo).
  cbn. lia.
Defined.

End ReportFacts.
